(** * SpendAI: proxy credentials, secret cipher, pricing, usage ledger and
      budget alerts

    A shallow embedding of the services under [backend/src/services]:
    [encryptionService.js], [pricingService.js], [alertService.js],
    [budgetService.js], [proxyKeyService.js], [usageLoggingService.js] and
    [openaiProxyService.js].

    Conventions.
    - A JavaScript [string] is a Rocq [string]; its UTF-8 encoding is the
      byte sequence of the Rocq string, so plaintexts are well-formed text.
    - [async] functions are run to completion: a call either [Returns] a
      value or [Throws] an [error] object.
    - The datastore (Supabase), the upstream HTTP endpoint, the clock and the
      random generator are inputs of the functions that consult them.
    - Node's [crypto] primitives (HMAC-SHA256, AES-256-GCM) are an interface
      with their functional laws, not re-implemented.
    - A JavaScript number the code computes with is a binary64 [float];
      the decimal columns of the datastore are [Q]. *)

From Stdlib Require Import List String Ascii Bool Arith ZArith NArith Lia.
From Stdlib Require Import QArith Qround Qabs Lqa.
From Stdlib Require Strings.Byte.
From Stdlib Require Import Floats.PrimFloat Floats.SpecFloat Floats.FloatOps.
From Stdlib Require Import Floats.FloatAxioms.
From Stdlib Require Import Numbers.Cyclic.Int63.Uint63.
Import ListNotations.

Local Open Scope list_scope.
Local Open Scope string_scope.

(** ** JavaScript values, strings and exceptions *)

Module Js.

(** A JSON value as far as the services inspect it: [typeof] and
    truthiness. Objects and arrays are opaque. *)
Inductive value : Type :=
| Undefined
| Null
| Bool (b : bool)
| Num (n : Z)
| Str (s : string)
| Obj.

Definition truthy (v : value) : bool :=
  match v with
  | Undefined | Null => false
  | Bool b => b
  | Num n => negb (n =? 0)%Z
  | Str s => negb (s =? "")
  | Obj => true
  end.

(** [String.prototype.includes]. *)
Fixpoint includes (needle hay : string) : bool :=
  if String.prefix needle hay then true
  else match hay with
       | EmptyString => false
       | String _ rest => includes needle rest
       end.

(** [String.prototype.split] with a one-character separator. *)
Fixpoint split (sep : ascii) (s : string) : list string :=
  match s with
  | EmptyString => [EmptyString]
  | String c rest =>
      if Ascii.eqb c sep then EmptyString :: split sep rest
      else match split sep rest with
           | [] => [String c EmptyString]
           | p :: ps => String c p :: ps
           end
  end.

(** [Array.prototype.join]. *)
Definition join (sep : string) (parts : list string) : string :=
  String.concat sep parts.

(** The upstream response body at the fields the ledger reads; the rest
    of the JSON document is the opaque [payload]. *)
Record usage_object : Type := {
  prompt_tokens : value;
  completion_tokens : value;
  total_tokens : value
}.

Record response_body : Type := {
  payload : string;
  body_model : option string;
  body_usage : option usage_object
}.

Record http_response : Type := {
  status : Z;
  data : response_body;
  headers : list (string * string)
}.

(** An [Error] object with the properties the handlers look at. *)
Record error : Type := {
  message : string;
  code : option string;
  response : option http_response
}.

Definition Error (msg : string) : error :=
  {| message := msg; code := None; response := None |}.

Inductive outcome (A : Type) : Type :=
| Returns (a : A)
| Throws (e : error).
Arguments Returns {A} a.
Arguments Throws {A} e.

Definition bind {A B} (m : outcome A) (k : A -> outcome B) : outcome B :=
  match m with
  | Returns a => k a
  | Throws e => Throws e
  end.

(** [try { m } catch (e) { throw h(e) }]. *)
Definition rethrow {A} (m : outcome A) (h : error -> error) : outcome A :=
  match m with
  | Returns a => Returns a
  | Throws e => Throws (h e)
  end.

End Js.

Import Js.

Notation "x <- m ;; k" := (Js.bind m (fun x => k))
  (at level 61, m at next level, right associativity).

(** ** [Buffer]: hexadecimal encoding and decoding *)

Module Buffer.

Definition hex_digit (n : N) : ascii :=
  match n with
  | 0%N => "0" | 1%N => "1" | 2%N => "2" | 3%N => "3"
  | 4%N => "4" | 5%N => "5" | 6%N => "6" | 7%N => "7"
  | 8%N => "8" | 9%N => "9" | 10%N => "a" | 11%N => "b"
  | 12%N => "c" | 13%N => "d" | 14%N => "e" | _ => "f"
  end%char.

(** Value of a hex digit; both cases are accepted, as by
    [Buffer.from(s, 'hex')] and by the regex [/^[0-9a-f]+$/i]. *)
Definition hex_value (c : ascii) : option N :=
  let n := N_of_ascii c in
  if ((48 <=? n) && (n <=? 57))%N then Some (n - 48)%N
  else if ((97 <=? n) && (n <=? 102))%N then Some (n - 87)%N
  else if ((65 <=? n) && (n <=? 70))%N then Some (n - 55)%N
  else None.

Definition is_hex (c : ascii) : bool :=
  match hex_value c with Some _ => true | None => false end.

Definition byte_to_hex (b : Byte.byte) : string :=
  let n := Byte.to_N b in
  String (hex_digit (n / 16)) (String (hex_digit (n mod 16)) EmptyString).

(** [buf.toString('hex')]. *)
Fixpoint toString_hex (bs : list Byte.byte) : string :=
  match bs with
  | [] => EmptyString
  | b :: rest => byte_to_hex b ++ toString_hex rest
  end.

(** [Buffer.from(s, 'hex')]: decodes pairs of digits and stops at the
    first pair that is not hexadecimal; a trailing odd digit is dropped. *)
Fixpoint from_hex (s : string) : list Byte.byte :=
  match s with
  | String a (String b rest) =>
      match hex_value a, hex_value b with
      | Some h, Some l =>
          match Byte.of_N (16 * h + l) with
          | Some x => x :: from_hex rest
          | None => []
          end
      | _, _ => []
      end
  | _ => []
  end.

Fixpoint all_hex (s : string) : bool :=
  match s with
  | EmptyString => true
  | String c rest => is_hex c && all_hex rest
  end.

Fixpoint bytes_eqb (a b : list Byte.byte) : bool :=
  match a, b with
  | [], [] => true
  | x :: a', y :: b' => Byte.eqb x y && bytes_eqb a' b'
  | _, _ => false
  end.

End Buffer.

(** ** [encryptionService.js] *)

Module EncryptionService.

(** AES-256-GCM as Node's [crypto] module offers it. [gcm_seal key iv pt]
    is the ciphertext and the authentication tag; [gcm_open key iv tag ct]
    is the plaintext when the tag verifies ([decipher.final()] throws
    otherwise). The laws are those of the cipher for a 256-bit key and a
    96-bit nonce: opening what was sealed gives the plaintext back, the
    ciphertext is as long as the plaintext, and the tag has 16 bytes. *)
Class Aead : Type := {
  gcm_seal : list Byte.byte -> list Byte.byte -> list Byte.byte ->
             list Byte.byte * list Byte.byte;
  gcm_open : list Byte.byte -> list Byte.byte -> list Byte.byte ->
             list Byte.byte -> option (list Byte.byte);
  gcm_open_seal : forall key iv pt,
    List.length key = 32%nat -> List.length iv = 12%nat ->
    gcm_open key iv (snd (gcm_seal key iv pt)) (fst (gcm_seal key iv pt))
    = Some pt;
  gcm_ciphertext_length : forall key iv pt,
    List.length key = 32%nat -> List.length iv = 12%nat ->
    List.length (fst (gcm_seal key iv pt)) = List.length pt;
  gcm_tag_length : forall key iv pt,
    List.length key = 32%nat -> List.length iv = 12%nat ->
    List.length (snd (gcm_seal key iv pt)) = 16%nat
}.

Definition utf8_encode (s : string) : list Byte.byte := list_byte_of_string s.
Definition utf8_decode (b : list Byte.byte) : string := string_of_list_byte b.

(** [crypto.createCipheriv('aes-256-gcm', key, iv)] and its decipher twin
    reject a key that is not 32 bytes long and an empty nonce. *)
Definition cipher_accepts (key iv : list Byte.byte) : bool :=
  (List.length key =? 32)%nat && negb (List.length iv =? 0)%nat.

Section Cipher.
Context {aes : Aead}.

(** [process.env.OPENAI_KEY_ENCRYPTION_SECRET]. *)
Variable secret : option string.

Definition getMasterKey : outcome (list Byte.byte) :=
  match secret with
  | None =>
      Throws (Error "OPENAI_KEY_ENCRYPTION_SECRET environment variable is not set")
  | Some s =>
      if s =? "" then
        Throws (Error "OPENAI_KEY_ENCRYPTION_SECRET environment variable is not set")
      else if negb (String.length s =? 64)%nat then
        Throws (Error "OPENAI_KEY_ENCRYPTION_SECRET must be 32 bytes (64 hex chars)")
      else Returns (Buffer.from_hex s)
  end.

(** [encrypt(plaintext)]; [iv] is the value of [crypto.randomBytes(12)]
    drawn by this call. *)
Definition encrypt (iv : list Byte.byte) (plaintext : string) : outcome string :=
  if plaintext =? "" then
    Throws (Error "Plaintext must be a non-empty string")
  else
    rethrow
      (key <- getMasterKey ;;
       if cipher_accepts key iv then
         let sealed := gcm_seal key iv (utf8_encode plaintext) in
         let ciphertext := Buffer.toString_hex (fst sealed) in
         let authTag := snd sealed in
         Returns (Buffer.toString_hex iv ++ ":" ++
                  Buffer.toString_hex authTag ++ ":" ++ ciphertext)
       else Throws (Error "Invalid key length"))
      (fun _ => Error "Failed to encrypt OpenAI API key").

(** [decrypt(encrypted)]. *)
Definition decrypt (encrypted : string) : outcome string :=
  if encrypted =? "" then
    Throws (Error "Encrypted text must be a non-empty string")
  else
    rethrow
      (match split ":" encrypted with
       | [p0; p1; p2] =>
           let iv := Buffer.from_hex p0 in
           let authTag := Buffer.from_hex p1 in
           let ciphertext := p2 in
           key <- getMasterKey ;;
           if cipher_accepts key iv then
             match gcm_open key iv authTag (Buffer.from_hex ciphertext) with
             | Some pt => Returns (utf8_decode pt)
             | None => Throws (Error "Unsupported state or unable to authenticate data")
             end
           else Throws (Error "Invalid key length")
       | _ => Throws (Error "Invalid encrypted format")
       end)
      (fun _ => Error "Failed to decrypt OpenAI API key (corrupted or tampered)").

End Cipher.

(** [/^[0-9a-f]+$/i.test(part)]. *)
Definition hex_part (part : string) : bool :=
  negb (part =? "") && Buffer.all_hex part.

(** [isEncrypted(value)]: three colon-separated hexadecimal parts. *)
Definition isEncrypted (value : string) : bool :=
  if value =? "" then false
  else
    let parts := split ":" value in
    if negb (List.length parts =? 3)%nat then false
    else forallb hex_part parts.

(** A master secret as [getMasterKey] expects it: 64 hex characters. *)
Definition valid_master_secret (s : string) : Prop :=
  String.length s = 64%nat /\ Buffer.all_hex s = true.

(** A toy cipher that satisfies the interface: the ciphertext is the
    reversed plaintext and the tag is the nonce padded to 16 bytes. It only
    shows that the interface is inhabited and lets examples compute. *)
Definition toy_tag (iv : list Byte.byte) : list Byte.byte :=
  (iv ++ [Byte.x00; Byte.x00; Byte.x00; Byte.x00])%list.

Definition toy_seal (_ iv pt : list Byte.byte) : list Byte.byte * list Byte.byte :=
  (rev pt, toy_tag iv).

Definition toy_open (_ iv tag ct : list Byte.byte) : option (list Byte.byte) :=
  if Buffer.bytes_eqb tag (toy_tag iv) then Some (rev ct) else None.

Lemma bytes_eqb_refl (l : list Byte.byte) : Buffer.bytes_eqb l l = true.
Proof.
  induction l as [|x l IH]; cbn; [reflexivity|].
  rewrite IH, andb_true_r. now apply Byte.byte_dec_lb.
Qed.

Lemma toy_open_seal key iv pt :
  List.length key = 32%nat -> List.length iv = 12%nat ->
  toy_open key iv (snd (toy_seal key iv pt)) (fst (toy_seal key iv pt)) = Some pt.
Proof.
  intros _ _. unfold toy_open, toy_seal; cbn.
  now rewrite bytes_eqb_refl, rev_involutive.
Qed.

Lemma toy_ciphertext_length key iv pt :
  List.length key = 32%nat -> List.length iv = 12%nat ->
  List.length (fst (toy_seal key iv pt)) = List.length pt.
Proof. intros _ _. cbn. apply length_rev. Qed.

Lemma toy_tag_length key iv (pt : list Byte.byte) :
  List.length key = 32%nat -> List.length iv = 12%nat ->
  List.length (snd (toy_seal key iv pt)) = 16%nat.
Proof. intros _ H. cbn. unfold toy_tag. rewrite length_app, H. reflexivity. Qed.

Definition toy_aead : Aead :=
  {| gcm_seal := toy_seal; gcm_open := toy_open;
     gcm_open_seal := toy_open_seal;
     gcm_ciphertext_length := toy_ciphertext_length;
     gcm_tag_length := toy_tag_length |}.

End EncryptionService.

(** ** Datastore schema ([database/migrations])

    One module per table, with the columns the services read or write.
    Identifiers and timestamps are the strings PostgREST returns; [created_at]
    of a usage row is kept as milliseconds since the epoch so that it can be
    compared with the start of the month. *)

Module Db.
(** A failed datastore call: the client either hands back an [error]
    object ([Rejected code message]) or throws ([Unreachable message]). *)
Inductive fault : Type :=
| Rejected (code message : string)
| Unreachable (message : string).

Definition fault_error (f : fault) : error :=
  match f with
  | Rejected c m => {| message := m; code := Some c; response := None |}
  | Unreachable m => Error m
  end.
End Db.

Module Organizations.
Record row : Type := {
  id : string;
  openai_api_key : option string;
  monthly_budget_usd : option Q
}.
End Organizations.

Module Projects.
Record row : Type := {
  id : string;
  organization_id : string;
  monthly_budget_usd : option Q
}.
End Projects.

Module ProxyKeys.
Record row : Type := {
  id : string;
  organization_id : string;
  project_id : string;
  key_value : string;
  name : string;
  is_active : bool;
  created_by : string;
  revoked_at : option string
}.
End ProxyKeys.

Module UsageLogs.
Record row : Type := {
  request_id : string;
  organization_id : string;
  project_id : string;
  proxy_key_id : string;
  model : string;
  provider : string;
  tokens_prompt : Z;
  tokens_completion : Z;
  cost_usd : Q;
  price_prompt_per_million : option Q;
  price_completion_per_million : option Q;
  currency : string;
  status : string;
  created_at : Z
}.
End UsageLogs.

Module Alerts.
Record row : Type := {
  organization_id : string;
  project_id : option string;
  alert_level : string;
  threshold_percent : Z;
  budget_amount : Q;
  actual_spend : Q;
  month_year : string
}.

(** [idx_unique_org_alert_per_month]: unique on
    (organization_id, threshold_percent, month_year) where project_id is
    null; [idx_unique_project_alert_per_month]: unique on
    (project_id, threshold_percent, month_year) where it is not. *)
Definition collides (a b : row) : bool :=
  match project_id a, project_id b with
  | None, None =>
      (organization_id a =? organization_id b)
      && (threshold_percent a =? threshold_percent b)%Z
      && (month_year a =? month_year b)
  | Some p, Some q =>
      (p =? q)
      && (threshold_percent a =? threshold_percent b)%Z
      && (month_year a =? month_year b)
  | _, _ => false
  end.

Inductive insert_result : Type :=
| Inserted (data : row)
| InsertError (code message : string)
| InsertThrows (message : string).

(** [from('alerts').insert(r).select().single()] *)
Definition insert (fault : option Db.fault) (table : list row) (r : row)
  : list row * insert_result :=
  match fault with
  | Some (Db.Rejected c m) => (table, InsertError c m)
  | Some (Db.Unreachable m) => (table, InsertThrows m)
  | None =>
      if existsb (collides r) table then
        (table, InsertError "23505"
                  "duplicate key value violates unique constraint")
      else ((table ++ [r])%list, Inserted r)
  end.

(** The scope of an alert and the triple the spec counts alerts by. *)
Inductive scope : Type :=
| OrganizationScope (organization : string)
| ProjectScope (project : string).

Definition scope_of (r : row) : scope :=
  match project_id r with
  | None => OrganizationScope (organization_id r)
  | Some p => ProjectScope p
  end.

Definition scope_eqb (a b : scope) : bool :=
  match a, b with
  | OrganizationScope x, OrganizationScope y => x =? y
  | ProjectScope x, ProjectScope y => x =? y
  | _, _ => false
  end.

Definition has_triple (s : scope) (threshold : Z) (period : string) (r : row) : bool :=
  scope_eqb (scope_of r) s
  && (threshold_percent r =? threshold)%Z
  && (month_year r =? period).
End Alerts.

(** The tables together. *)
Record datastore : Type := {
  organizations : list Organizations.row;
  projects : list Projects.row;
  proxy_keys : list ProxyKeys.row;
  usage_logs : list UsageLogs.row;
  alerts : list Alerts.row
}.

Definition with_alerts (s : datastore) (a : list Alerts.row) : datastore :=
  {| organizations := organizations s; projects := projects s;
     proxy_keys := proxy_keys s; usage_logs := usage_logs s; alerts := a |}.

Definition with_usage_logs (s : datastore) (u : list UsageLogs.row) : datastore :=
  {| organizations := organizations s; projects := projects s;
     proxy_keys := proxy_keys s; usage_logs := u; alerts := alerts s |}.

(** The clock read by one call: [new Date()] as an ISO string, as epoch
    milliseconds, and the first instant of its UTC month. *)
Record clock : Type := { now : string; epoch : Z; startOfMonth : Z }.

(** ** JavaScript numbers

    A JavaScript number is an IEEE-754 binary64 value, Rocq's primitive
    [float]. Integers that arrive as JSON are [Z] and decimals of the
    datastore are [Q]; both become the nearest double when the code
    computes with them. *)

Module Binary64.

(** The double nearest to an integer. *)
Definition of_Z (z : Z) : float :=
  SF2Prim (binary_normalize prec emax z 0%Z false).

(** The double nearest to a decimal (numerator and denominator are below
    2^53 for the decimals of the pricing table and of the datastore, so
    the one division rounds once). *)
Definition of_Q (q : Q) : float :=
  PrimFloat.div (of_Z (Qnum q)) (of_Z (Zpos (Qden q))).

(** The exact value of a finite double; 0 for the others. *)
Definition to_Q (x : float) : Q :=
  match Prim2SF x with
  | S754_finite s m e =>
      let v := if s then Zneg m else Zpos m in
      if (0 <=? e)%Z then inject_Z (v * 2 ^ e) else v # (2 ^ Z.to_pos (- e))
  | _ => 0
  end.

End Binary64.

(** ** [pricingService.js] *)

Module PricingService.

Record pricing : Type := { prompt : Q; completion : Q }.

(** Prices in USD per million tokens. *)
Definition getPricingTable : list (string * pricing) :=
  [ ("gpt-3.5-turbo",       {| prompt := 0.50;  completion := 1.50 |});
    ("gpt-3.5-turbo-0125",  {| prompt := 0.50;  completion := 1.50 |});
    ("gpt-3.5-turbo-1106",  {| prompt := 1.00;  completion := 2.00 |});
    ("gpt-4",               {| prompt := 30.00; completion := 60.00 |});
    ("gpt-4-0613",          {| prompt := 30.00; completion := 60.00 |});
    ("gpt-4-turbo",         {| prompt := 10.00; completion := 30.00 |});
    ("gpt-4-turbo-preview", {| prompt := 10.00; completion := 30.00 |});
    ("gpt-4o",              {| prompt := 5.00;  completion := 15.00 |});
    ("gpt-4o-mini",         {| prompt := 0.15;  completion := 0.60 |}) ]%Q.

(** The table is an object literal, so a lookup also finds what every
    object inherits from [Object.prototype]. *)
Definition Object_prototype : list string :=
  [ "constructor"; "__defineGetter__"; "__defineSetter__"; "hasOwnProperty";
    "__lookupGetter__"; "__lookupSetter__"; "isPrototypeOf";
    "propertyIsEnumerable"; "toString"; "valueOf"; "__proto__";
    "toLocaleString" ].

(** What [pricingTable[model]] is when it is truthy: an entry of the table,
    or an inherited member (a function, or the prototype object), which
    has no [prompt] and no [completion]. *)
Inductive member : Type :=
| Entry (p : pricing)
| Inherited (name : string).

(** [pricingTable[model] || null] *)
Definition getModelPricing (model : string) : option member :=
  match find (fun entry => fst entry =? model) getPricingTable with
  | Some entry => Some (Entry (snd entry))
  | None =>
      if existsb (String.eqb model) Object_prototype then Some (Inherited model)
      else None
  end.

(** [getModelPricing(model) !== null] *)
Definition hasPricing (model : string) : bool :=
  match getModelPricing model with Some _ => true | None => false end.

(** [Object.keys(getPricingTable())] *)
Definition getSupportedModels : list string := map fst getPricingTable.

(** [pricing.prompt] and [pricing.completion], as the ledger stores them:
    [undefined] is stored as null. *)
Definition prompt_per_million (m : option member) : option Q :=
  match m with
  | Some (Entry p) => Some (prompt p)
  | _ => None
  end.

Definition completion_per_million (m : option member) : option Q :=
  match m with
  | Some (Entry p) => Some (completion p)
  | _ => None
  end.

(** [Math.round]: the nearest integer, halves rounded up. *)
Definition Math_round (x : Q) : Z := Qfloor (x + (1 # 2)).

(** *** Costs

    The functions compute on JavaScript numbers: binary64, operation by
    operation as the code performs them. *)

(** [pricing.prompt] and [pricing.completion] in arithmetic: [undefined]
    coerces to NaN. *)
Definition prompt_f64 (m : member) : float :=
  match m with
  | Entry p => Binary64.of_Q (prompt p)
  | Inherited _ => nan
  end.

Definition completion_f64 (m : member) : float :=
  match m with
  | Entry p => Binary64.of_Q (completion p)
  | Inherited _ => nan
  end.

(** [Math.round] on a double: NaN, the infinities and the zeros are
    returned as they are; a negative value that rounds to zero gives -0. *)
Definition Math_round_f64 (x : float) : float :=
  match Prim2SF x with
  | S754_finite s m e =>
      let n := Math_round (Binary64.to_Q x) in
      if s && (n =? 0)%Z then neg_zero else Binary64.of_Z n
  | _ => x
  end.

(** [promptCost + completionCost] *)
Definition totalCost_f64 (pricing : member) (promptTokens completionTokens : Z)
  : float :=
  let promptCost :=
    (Binary64.of_Z promptTokens / 1000000 * prompt_f64 pricing)%float in
  let completionCost :=
    (Binary64.of_Z completionTokens / 1000000 * completion_f64 pricing)%float in
  (promptCost + completionCost)%float.

(** [calculateCost(model, promptTokens, completionTokens)] *)
Definition calculateCost_f64 (model : string) (promptTokens completionTokens : Z)
  : float :=
  match getModelPricing model with
  | None => 0%float
  | Some pricing =>
      let totalCost := totalCost_f64 pricing promptTokens completionTokens in
      (Math_round_f64 (totalCost * 1000000) / 1000000)%float
  end.

(** What the ledger's [cost_usd DECIMAL(10, 6)] column holds for a number:
    the number rounded to six decimals. NaN is no decimal (it is sent as
    null); it counts as 0 here. *)
Definition decimal6 (x : float) : Q :=
  (inject_Z (Math_round (Binary64.to_Q x * 1000000)) / 1000000)%Q.

(** The result of [calculateCost] as the ledger row holds it. *)
Definition calculateCost (model : string) (promptTokens completionTokens : Z) : Q :=
  decimal6 (calculateCost_f64 model promptTokens completionTokens).

(** [getCostBreakdown(model, promptTokens, completionTokens)]: without
    pricing the object [{ model, error: 'No pricing found', total_cost_usd: 0 }],
    otherwise the one with [pricing], [usage] and [costs]. *)
Record costs : Type := {
  prompt_per_1m : option Q;
  completion_per_1m : option Q;
  breakdown_prompt_tokens : Z;
  breakdown_completion_tokens : Z;
  breakdown_total_tokens : Z;
  prompt_cost_usd : float;
  completion_cost_usd : float;
  total_cost_usd : float
}.

Inductive cost_breakdown : Type :=
| NoPricingFound (model : string) (error : string) (total_cost_usd : float)
| CostBreakdown (model : string) (c : costs).

Definition round6_f64 (x : float) : float :=
  (Math_round_f64 (x * 1000000) / 1000000)%float.

Definition getCostBreakdown (model : string) (promptTokens completionTokens : Z)
  : cost_breakdown :=
  match getModelPricing model with
  | None => NoPricingFound model "No pricing found" 0%float
  | Some pricing =>
      let promptCost :=
        (Binary64.of_Z promptTokens / 1000000 * prompt_f64 pricing)%float in
      let completionCost :=
        (Binary64.of_Z completionTokens / 1000000 * completion_f64 pricing)%float in
      let totalCost := (promptCost + completionCost)%float in
      CostBreakdown model
        {| prompt_per_1m := prompt_per_million (Some pricing);
           completion_per_1m := completion_per_million (Some pricing);
           breakdown_prompt_tokens := promptTokens;
           breakdown_completion_tokens := completionTokens;
           breakdown_total_tokens := (promptTokens + completionTokens)%Z;
           prompt_cost_usd := round6_f64 promptCost;
           completion_cost_usd := round6_f64 completionCost;
           total_cost_usd := round6_f64 totalCost |}
  end.

End PricingService.

(** ** [alertService.js] *)

Module AlertService.

Record params : Type := {
  organization_id : string;
  project_id : option string;
  alert_level : string;
  threshold_percent : Z;
  budget_amount : Q;
  actual_spend : Q
}.

Inductive result : Type :=
| Recorded (data : Alerts.row)       (* { success: true, data } *)
| AlreadySent                        (* { success: true, already_sent: true } *)
| Failed (error : string).           (* { success: false, error } *)

Definition success (r : result) : bool :=
  match r with
  | Recorded _ | AlreadySent => true
  | Failed _ => false
  end.

(** [recordAlert(params)]. [now] is [new Date().toISOString()] and
    [fault] what the datastore does to this insert besides checking the
    table's constraints. The result is the new [alerts] table and the
    object the call resolves to. *)
Definition recordAlert (now : string) (fault : option Db.fault)
           (alerts : list Alerts.row) (p : params)
  : list Alerts.row * result :=
  let month_year := String.substring 0 7 now in
  let inserted :=
    Alerts.insert fault alerts
      {| Alerts.organization_id := organization_id p;
         Alerts.project_id := project_id p;
         Alerts.alert_level := alert_level p;
         Alerts.threshold_percent := threshold_percent p;
         Alerts.budget_amount := budget_amount p;
         Alerts.actual_spend := actual_spend p;
         Alerts.month_year := month_year |} in
  match inserted with
  | (alerts', Alerts.Inserted data) => (alerts', Recorded data)
  | (alerts', Alerts.InsertError code message) =>
      if code =? "23505" then (alerts', AlreadySent)
      else (alerts', Failed message)
  | (alerts', Alerts.InsertThrows message) => (alerts', Failed message)
  end.

(** A call as the rest of the system issues it. *)
Record call : Type := {
  call_now : string;
  call_fault : option Db.fault;
  call_params : params
}.

Fixpoint run (calls : list call) (alerts : list Alerts.row) : list Alerts.row :=
  match calls with
  | [] => alerts
  | c :: rest =>
      run rest (fst (recordAlert (call_now c) (call_fault c) alerts (call_params c)))
  end.

End AlertService.

(** ** [budgetService.js] *)

Module BudgetService.

(** What the datastore does to each query of one [checkBudgets] call. *)
Record faults : Type := {
  org_select : option Db.fault;
  org_usage_select : option Db.fault;
  org_alert_insert : option Db.fault;
  project_select : option Db.fault;
  project_usage_select : option Db.fault;
  project_alert_insert : option Db.fault
}.

Definition no_faults : faults :=
  {| org_select := None; org_usage_select := None; org_alert_insert := None;
     project_select := None; project_usage_select := None;
     project_alert_insert := None |}.

Definition query {A} (fault : option Db.fault) (rows : A) : outcome A :=
  match fault with
  | Some f => Throws (Db.fault_error f)
  | None => Returns rows
  end.

(** [.single()] fails unless exactly one row is selected. *)
Definition single {A} (rows : list A) : outcome A :=
  match rows with
  | [r] => Returns r
  | _ => Throws {| message := "JSON object requested, multiple (or no) rows returned";
                   code := Some "PGRST116"; response := None |}
  end.

(** [calculateMTDSpend(organizationId, projectId = null)] *)
Definition calculateMTDSpend (fault : option Db.fault) (c : clock) (s : datastore)
           (organizationId : string) (projectId : option string) : outcome Q :=
  let selected :=
    filter (fun r =>
              (UsageLogs.organization_id r =? organizationId)
              && (startOfMonth c <=? UsageLogs.created_at r)%Z
              && match projectId with
                 | Some p => if p =? "" then true else UsageLogs.project_id r =? p
                 | None => true
                 end)
           (usage_logs s) in
  data <- query fault selected ;;
  let total := fold_left (fun acc r => acc + UsageLogs.cost_usd r)%Q data 0%Q in
  Returns (inject_Z (PricingService.Math_round (total * 1000000)) / 1000000)%Q.

(** [getOrgBudget]: the pair [(budget, actual_spend)]. *)
Definition getOrgBudget (f : faults) (c : clock) (s : datastore)
           (organizationId : string) : outcome (option Q * Q) :=
  rows <- query (org_select f)
            (filter (fun o => Organizations.id o =? organizationId) (organizations s)) ;;
  org <- single rows ;;
  mtdSpend <- calculateMTDSpend (org_usage_select f) c s organizationId None ;;
  Returns (Organizations.monthly_budget_usd org, mtdSpend).

(** [getProjectBudget] *)
Definition getProjectBudget (f : faults) (c : clock) (s : datastore)
           (projectId : string) : outcome (option Q * Q) :=
  rows <- query (project_select f)
            (filter (fun p => Projects.id p =? projectId) (projects s)) ;;
  project <- single rows ;;
  mtdSpend <- calculateMTDSpend (project_usage_select f) c s
                (Projects.organization_id project) (Some projectId) ;;
  Returns (Projects.monthly_budget_usd project, mtdSpend).

Record evaluation : Type := {
  organization_id : string;
  project_id : option string;
  alert_level : string;
  budget : Q;
  actual : Q
}.

Definition thresholds : list Z := [100; 90; 75; 50]%Z.

(** [(actual / budget) * 100], on the doubles the two decimals are in
    JavaScript. *)
Definition percentUsed (e : evaluation) : float :=
  (Binary64.of_Q (actual e) / Binary64.of_Q (budget e) * 100)%float.

(** [percentUsed >= t] *)
Definition reached (e : evaluation) (t : Z) : bool :=
  PrimFloat.leb (Binary64.of_Z t) (percentUsed e).

(** The [for (const t of thresholds)] loop with its [break]: the result is
    the new [alerts] table and the [recordAlert] calls issued, in order. *)
Fixpoint walk (ts : list Z) (now : string) (fault : option Db.fault)
         (table : list Alerts.row) (e : evaluation)
  : list Alerts.row * list AlertService.params :=
  match ts with
  | [] => (table, [])
  | t :: rest =>
      if reached e t then
        let p := {| AlertService.organization_id := organization_id e;
                    AlertService.project_id := project_id e;
                    AlertService.alert_level := alert_level e;
                    AlertService.threshold_percent := t;
                    AlertService.budget_amount := budget e;
                    AlertService.actual_spend := actual e |} in
        (fst (AlertService.recordAlert now fault table p), [p])
      else walk rest now fault table e
  end.

Definition evaluateThresholds := walk thresholds.

(** [budget > 0] on a nullable column: [null > 0] is false. *)
Definition positive (b : option Q) : option Q :=
  match b with
  | Some q => if Qle_bool q 0 then None else Some q
  | None => None
  end.

(** [checkBudgets(organizationId, projectId)]. The [try]/[catch] absorbs
    every failure; alerts recorded before the failure stay. The result is
    the datastore afterwards and the trace of the call: each
    [evaluateThresholds] performed, with the [recordAlert] calls it made. *)
Definition checkBudgets (f : faults) (c : clock) (s : datastore)
           (organizationId projectId : string)
  : datastore * list (evaluation * list AlertService.params) :=
  match getOrgBudget f c s organizationId with
  | Throws _ => (s, [])
  | Returns (orgBudget, orgSpend) =>
      let '(alerts1, trace1) :=
        match positive orgBudget with
        | Some b =>
            let e := {| organization_id := organizationId; project_id := None;
                        alert_level := "organization";
                        budget := b; actual := orgSpend |} in
            let '(a, calls) :=
              evaluateThresholds (now c) (org_alert_insert f) (alerts s) e in
            (a, [(e, calls)])
        | None => (alerts s, [])
        end in
      let s1 := with_alerts s alerts1 in
      match getProjectBudget f c s1 projectId with
      | Throws _ => (s1, trace1)
      | Returns (projectBudget, projectSpend) =>
          let '(alerts2, trace2) :=
            match positive projectBudget with
            | Some b =>
                let e := {| organization_id := organizationId;
                            project_id := Some projectId;
                            alert_level := "project";
                            budget := b; actual := projectSpend |} in
                let '(a, calls) :=
                  evaluateThresholds (now c) (project_alert_insert f) alerts1 e in
                (a, [(e, calls)])
            | None => (alerts1, [])
            end in
          (with_alerts s1 alerts2, (trace1 ++ trace2)%list)
      end
  end.

End BudgetService.

(** ** [proxyKeyService.js] *)

Module ProxyKeyService.

Record key_info : Type := {
  id : string;
  organization_id : string;
  project_id : string;
  is_active : bool
}.

Record created_key : Type := {
  created_row : ProxyKeys.row;
  keyValue : string;
  masked : string
}.

(** [generateKeyValue()], from the 32 bytes of [crypto.randomBytes(32)]. *)
Definition generateKeyValue (randomBytes : list Byte.byte) : string :=
  "sk-spendai-" ++ Buffer.toString_hex randomBytes.

Definition maskKeyValue (keyValue : string) : string :=
  if (keyValue =? "") || (String.length keyValue <? 4)%nat then "****"
  else "sk-****" ++ String.substring (String.length keyValue - 4) 4 keyValue.

Definition AuthenticationFailure : error := Error "Invalid or revoked proxy key".

Section Hmac.
(** [crypto.createHmac('sha256', secret).update(keyValue).digest('hex')] *)
Variable hmac_sha256_hex : string -> string -> string.

(** [process.env.PROXY_KEY_SECRET] *)
Variable PROXY_KEY_SECRET : option string.

Definition getServerSecret : outcome string :=
  match PROXY_KEY_SECRET with
  | None => Throws (Error "PROXY_KEY_SECRET environment variable is not set")
  | Some secret =>
      if secret =? "" then
        Throws (Error "PROXY_KEY_SECRET environment variable is not set")
      else Returns secret
  end.

Definition hashKeyValue (keyValue : string) : outcome string :=
  secret <- getServerSecret ;;
  Returns (hmac_sha256_hex secret keyValue).

(** [createProxyKey]. [randomBytes] and [new_id] are what the random
    generator and [gen_random_uuid()] produce; the table rejects a
    repeated primary key or a repeated [key_value] (both unique). *)
Definition createProxyKey (randomBytes : list Byte.byte) (new_id : string)
           (fault : option Db.fault) (table : list ProxyKeys.row)
           (organizationId projectId userId name : string)
  : list ProxyKeys.row * outcome created_key :=
  let keyValue := generateKeyValue randomBytes in
  match hashKeyValue keyValue with
  | Throws e => (table, Throws e)
  | Returns keyHash =>
      let masked := maskKeyValue keyValue in
      let r := {| ProxyKeys.id := new_id;
                  ProxyKeys.organization_id := organizationId;
                  ProxyKeys.project_id := projectId;
                  ProxyKeys.key_value := keyHash;
                  ProxyKeys.name := if name =? "" then masked else name;
                  ProxyKeys.is_active := true;
                  ProxyKeys.created_by := userId;
                  ProxyKeys.revoked_at := None |} in
      match fault with
      | Some (Db.Rejected _ m) =>
          (table, Throws (Error ("Failed to create proxy key: " ++ m)))
      | Some (Db.Unreachable m) => (table, Throws (Error m))
      | None =>
          if existsb (fun k => (ProxyKeys.id k =? new_id)
                               || (ProxyKeys.key_value k =? keyHash)) table
          then (table,
                Throws (Error ("Failed to create proxy key: " ++
                               "duplicate key value violates unique constraint")))
          else ((table ++ [r])%list,
                Returns {| created_row := r; keyValue := keyValue; masked := masked |})
      end
  end.

Definition targets (keyId organizationId : string) (k : ProxyKeys.row) : bool :=
  (ProxyKeys.id k =? keyId) && (ProxyKeys.organization_id k =? organizationId).

Definition revoked (now : string) (k : ProxyKeys.row) : ProxyKeys.row :=
  {| ProxyKeys.id := ProxyKeys.id k;
     ProxyKeys.organization_id := ProxyKeys.organization_id k;
     ProxyKeys.project_id := ProxyKeys.project_id k;
     ProxyKeys.key_value := ProxyKeys.key_value k;
     ProxyKeys.name := ProxyKeys.name k;
     ProxyKeys.is_active := false;
     ProxyKeys.created_by := ProxyKeys.created_by k;
     ProxyKeys.revoked_at := Some now |}.

(** [revokeProxyKey(keyId, organizationId)]: an [update] of the rows with
    that id and organization, whatever their state, to
    [is_active = false, revoked_at = now]; [.single()] turns anything but
    one updated row into [PGRST116] and leaves the table as it was. *)
Definition revokeProxyKey (now : string) (fault : option Db.fault)
           (table : list ProxyKeys.row) (keyId organizationId : string)
  : list ProxyKeys.row * outcome ProxyKeys.row :=
  match fault with
  | Some (Db.Rejected c m) =>
      (table,
       Throws (Error (if c =? "PGRST116" then "Proxy key not found"
                      else "Failed to revoke proxy key: " ++ m)))
  | Some (Db.Unreachable m) => (table, Throws (Error m))
  | None =>
      match filter (targets keyId organizationId) table with
      | [k] =>
          (map (fun r => if targets keyId organizationId r then revoked now r else r)
               table,
           Returns (revoked now k))
      | _ => (table, Throws (Error "Proxy key not found"))
      end
  end.

(** The comparison inside the loop of [verifyProxyKey]:
    equal lengths, then [crypto.timingSafeEqual]. *)
Definition matches (keyHash : string) (key : ProxyKeys.row) : bool :=
  let storedHashBuffer := Buffer.from_hex (ProxyKeys.key_value key) in
  let providedHashBuffer := Buffer.from_hex keyHash in
  (List.length storedHashBuffer =? List.length providedHashBuffer)%nat
  && Buffer.bytes_eqb storedHashBuffer providedHashBuffer.

(** The body of the [try] block of [verifyProxyKey]. *)
Definition verifyProxyKey_try (fault : option Db.fault)
           (table : list ProxyKeys.row) (keyValue : string) : outcome key_info :=
  keyHash <- hashKeyValue keyValue ;;
  keys <- match fault with
          | Some (Db.Rejected _ _) => Throws (Error "Key verification failed")
          | Some (Db.Unreachable m) => Throws (Error m)
          | None => Returns (filter ProxyKeys.is_active table)
          end ;;
  match keys with
  | [] => Throws (Error "Invalid or revoked proxy key")
  | _ =>
      match find (matches keyHash) keys with
      | None => Throws (Error "Invalid or revoked proxy key")
      | Some matchedKey =>
          if negb (ProxyKeys.is_active matchedKey) then
            Throws (Error "Invalid or revoked proxy key")
          else
            Returns {| id := ProxyKeys.id matchedKey;
                       organization_id := ProxyKeys.organization_id matchedKey;
                       project_id := ProxyKeys.project_id matchedKey;
                       is_active := ProxyKeys.is_active matchedKey |}
      end
  end.

(** [verifyProxyKey(keyValue)]: whatever the [try] block throws is
    replaced by the one generic error. *)
Definition verifyProxyKey (fault : option Db.fault)
           (table : list ProxyKeys.row) (keyValue : string) : outcome key_info :=
  rethrow (verifyProxyKey_try fault table keyValue)
          (fun _ => Error "Invalid or revoked proxy key").

(** The administrative operations that write the [proxy_keys] table. *)
Inductive operation : Type :=
| Create (randomBytes : list Byte.byte) (new_id : string) (fault : option Db.fault)
         (organizationId projectId userId name : string)
| Revoke (now : string) (fault : option Db.fault) (keyId organizationId : string).

Definition step (table : list ProxyKeys.row) (op : operation) : list ProxyKeys.row :=
  match op with
  | Create rb i f o p u n => fst (createProxyKey rb i f table o p u n)
  | Revoke t f k o => fst (revokeProxyKey t f table k o)
  end.

Definition run (ops : list operation) (table : list ProxyKeys.row)
  : list ProxyKeys.row := fold_left step ops table.

End Hmac.

Record key_count : Type := {
  total : Z;
  active : Z;
  revoked_count : Z
}.

Definition in_project (projectId organizationId : string) (k : ProxyKeys.row) : bool :=
  (ProxyKeys.project_id k =? projectId)
  && (ProxyKeys.organization_id k =? organizationId).

(** [getKeyCount(projectId, organizationId)]: two exact counts, of the
    project's keys and of its active keys; [revoked] is their difference. *)
Definition getKeyCount (totalFault activeFault : option Db.fault)
           (table : list ProxyKeys.row) (projectId organizationId : string)
  : outcome key_count :=
  match totalFault with
  | Some (Db.Rejected _ m) => Throws (Error ("Failed to count keys: " ++ m))
  | Some (Db.Unreachable m) => Throws (Error m)
  | None =>
      let totalCount :=
        Z.of_nat (List.length (filter (in_project projectId organizationId) table)) in
      match activeFault with
      | Some (Db.Rejected _ m) =>
          Throws (Error ("Failed to count active keys: " ++ m))
      | Some (Db.Unreachable m) => Throws (Error m)
      | None =>
          let activeCount :=
            Z.of_nat (List.length
                        (filter (fun k => in_project projectId organizationId k
                                          && ProxyKeys.is_active k) table)) in
          Returns {| total := totalCount;
                     active := activeCount;
                     revoked_count := (totalCount - activeCount)%Z |}
      end
  end.

End ProxyKeyService.

(** ** [usageLoggingService.js] *)

Module UsageLoggingService.

Record usage : Type := {
  usage_model : string;
  usage_prompt_tokens : Z;
  usage_completion_tokens : Z;
  usage_total_tokens : Js.value
}.

(** [extractUsageFromResponse(openaiResponse)] *)
Definition extractUsageFromResponse (openaiResponse : response_body) : option usage :=
  match body_model openaiResponse with
  | None => None
  | Some model =>
      if model =? "" then None
      else
        match body_usage openaiResponse with
        | None => None
        | Some u =>
            match prompt_tokens u, completion_tokens u with
            | Num p, Num c =>
                Some {| usage_model := model;
                        usage_prompt_tokens := p;
                        usage_completion_tokens := c;
                        usage_total_tokens := total_tokens u |}
            | _, _ => None
            end
        end
  end.

Record params : Type := {
  request_id : string;
  organization_id : string;
  project_id : string;
  proxy_key_id : string
}.

(** What the datastore does to the queries of one [logUsage] call. *)
Record faults : Type := {
  usage_insert : option Db.fault;
  budget_faults : BudgetService.faults
}.

(** [logUsage(params)]: validation, cost, one insert, then the budget
    check, whose outcome the caller never sees. *)
Definition logUsage (f : faults) (c : clock) (s : datastore)
           (p : params) (u : usage) : datastore * outcome UsageLogs.row :=
  if (request_id p =? "") || (organization_id p =? "") || (project_id p =? "")
     || (proxy_key_id p =? "") || (usage_model u =? "") then
    (s, Throws (Error "Missing required fields for usage logging"))
  else if (usage_prompt_tokens u <? 0)%Z || (usage_completion_tokens u <? 0)%Z then
    (s, Throws (Error "Token counts cannot be negative"))
  else
    let cost_usd :=
      PricingService.calculateCost (usage_model u)
        (usage_prompt_tokens u) (usage_completion_tokens u) in
    let pricing := PricingService.getModelPricing (usage_model u) in
    let r := {| UsageLogs.request_id := request_id p;
                UsageLogs.organization_id := organization_id p;
                UsageLogs.project_id := project_id p;
                UsageLogs.proxy_key_id := proxy_key_id p;
                UsageLogs.model := usage_model u;
                UsageLogs.provider := "openai";
                UsageLogs.tokens_prompt := usage_prompt_tokens u;
                UsageLogs.tokens_completion := usage_completion_tokens u;
                UsageLogs.cost_usd := cost_usd;
                UsageLogs.price_prompt_per_million :=
                  PricingService.prompt_per_million pricing;
                UsageLogs.price_completion_per_million :=
                  PricingService.completion_per_million pricing;
                UsageLogs.currency := "USD";
                UsageLogs.status := "success";
                UsageLogs.created_at := epoch c |} in
    match usage_insert f with
    | Some (Db.Rejected _ m) => (s, Throws (Error ("Failed to log usage: " ++ m)))
    | Some (Db.Unreachable m) => (s, Throws (Error m))
    | None =>
        let s1 := with_usage_logs s (usage_logs s ++ [r])%list in
        let s2 := fst (BudgetService.checkBudgets (budget_faults f) c s1
                         (organization_id p) (project_id p)) in
        (s2, Returns r)
    end.

(** [logFromOpenAIResponse(params)]: [None] is the skipped write. *)
Definition logFromOpenAIResponse (f : faults) (c : clock) (s : datastore)
           (p : params) (openaiResponse : response_body)
  : datastore * outcome (option UsageLogs.row) :=
  match extractUsageFromResponse openaiResponse with
  | None => (s, Returns None)
  | Some u =>
      match logUsage f c s p u with
      | (s', Returns r) => (s', Returns (Some r))
      | (s', Throws e) => (s', Throws e)
      end
  end.

End UsageLoggingService.

(** ** [openaiProxyService.js] *)

Module OpenAIProxyService.

Definition getSupportedModels : list string :=
  [ "gpt-3.5-turbo"; "gpt-3.5-turbo-0125"; "gpt-3.5-turbo-1106";
    "gpt-4"; "gpt-4-0613"; "gpt-4-turbo"; "gpt-4-turbo-preview";
    "gpt-4o"; "gpt-4o-mini" ].

Inductive validation : Type :=
| Valid
| Invalid (error : string).

(** [Array.prototype.includes] on strings. *)
Definition list_includes (l : list string) (x : string) : bool :=
  existsb (String.eqb x) l.

(** [validateModel(model)] *)
Definition validateModel (model : Js.value) : validation :=
  match model with
  | Str m =>
      if m =? "" then Invalid "model is required"
      else if negb (list_includes getSupportedModels m) then
        Invalid ("Unsupported model: " ++ m ++ ". Supported models: "
                 ++ join ", " getSupportedModels)
      else Valid
  | _ => Invalid "model is required"
  end.

Definition getOpenAIBaseURL : string := "https://api.openai.com".

(** [extractBearerToken(authHeader)] *)
Definition extractBearerToken (authHeader : option string) : option string :=
  match authHeader with
  | None => None
  | Some h =>
      if String.prefix "Bearer " h
      then Some (String.substring 7 (String.length h - 7) h)
      else None
  end.

Record request_body : Type := {
  model : Js.value;
  messages : Js.value
}.

Definition header_value (hs : list (string * string)) (name : string) : option string :=
  option_map snd (find (fun h => fst h =? name) hs).

Definition toUpperCase (c : ascii) : ascii :=
  let n := nat_of_ascii c in
  if (97 <=? n)%nat && (n <=? 122)%nat then ascii_of_nat (n - 32) else c.

Definition capitalize (w : string) : string :=
  match w with
  | EmptyString => EmptyString
  | String c rest => String (toUpperCase c) rest
  end.

(** [buildForwardHeaders(requestHeaders, openaiApiKey)] *)
Definition buildForwardHeaders (requestHeaders : list (string * string))
           (openaiApiKey : string) : list (string * string) :=
  let forwardHeaders :=
    [ ("Content-Type", "application/json");
      ("Authorization", "Bearer " ++ openaiApiKey) ] in
  let allowedHeaders := [ "accept"; "user-agent" ] in
  fold_left
    (fun acc header =>
       match header_value requestHeaders header with
       | Some v =>
           if v =? "" then acc
           else
             let headerName := join "-" (map capitalize (split "-" header)) in
             (acc ++ [(headerName, v)])%list
       | None => acc
       end)
    allowedHeaders forwardHeaders.

Section Crypto.
Context {aes : EncryptionService.Aead}.
Variable hmac_sha256_hex : string -> string -> string.

(** The process environment and the outside world of one request. *)
Record environment : Type := {
  PROXY_KEY_SECRET : option string;
  OPENAI_KEY_ENCRYPTION_SECRET : option string;
  randomUUID : string;
  time : clock;
  (** the upstream endpoint: an HTTP response, or a transport error
      (its [code], e.g. [ECONNABORTED], and message) *)
  transport : string -> request_body -> list (string * string)
              -> http_response + (string * string);
  proxy_keys_select : option Db.fault;
  organizations_select : option Db.fault;
  ledger : UsageLoggingService.faults
}.

(** [getOrganizationOpenAIKey(organizationId)]: the lines this function
    itself writes to the console ([console.warn] on the legacy path,
    [console.error] when decryption fails), and the key or the error. *)
Definition getOrganizationOpenAIKey (secret : option string)
           (fault : option Db.fault) (table : list Organizations.row)
           (organizationId : string) : list string * outcome string :=
  match fault with
  | Some _ => ([], Throws (Error "Failed to fetch organization OpenAI key"))
  | None =>
      match filter (fun o => Organizations.id o =? organizationId) table with
      | [org] =>
          match Organizations.openai_api_key org with
          | None => ([], Throws (Error "Organization OpenAI API key not configured"))
          | Some encryptedKey =>
              if encryptedKey =? "" then
                ([], Throws (Error "Organization OpenAI API key not configured"))
              else if EncryptionService.isEncrypted encryptedKey then
                match EncryptionService.decrypt secret encryptedKey with
                | Returns key => ([], Returns key)
                | Throws decryptError =>
                    (["Failed to decrypt OpenAI key: " ++ message decryptError],
                     Throws (Error "Failed to decrypt organization OpenAI API key"))
                end
              else
                (["Organization " ++ organizationId ++ " has unencrypted OpenAI key"],
                 Returns encryptedKey)
          end
      | _ => ([], Throws (Error "Failed to fetch organization OpenAI key"))
      end
  end.

Record outbound : Type := {
  url : string;
  body : request_body;
  forwardHeaders : list (string * string);
  timeout : Z
}.

(** [axios.post(url, body, { headers, timeout, validateStatus })] with
    [validateStatus: status => status < 600]. *)
Definition axios_post (env : environment) (o : outbound) : outcome http_response :=
  match transport env (url o) (body o) (forwardHeaders o) with
  | inl r =>
      if (status r <? 600)%Z then Returns r
      else Throws {| message := "Request failed with status code";
                     code := Some "ERR_BAD_RESPONSE";
                     response := Some r |}
  | inr (c, m) => Throws {| message := m; code := Some c; response := None |}
  end.

Record metadata : Type := {
  spendai_request_id : string;
  organization_id : option string;
  project_id : option string;
  proxy_key_id : option string;
  timestamp : option string;
  openai_request_id : option string
}.

Record result : Type := {
  success : bool;
  error : option string;
  response : response_body;
  statusCode : Z;
  headers : list (string * string);
  meta : metadata
}.

(** The [catch] block of [proxyChatCompletion]. *)
Definition on_error (requestId : string) (e : Js.error) : outcome result :=
  if match code e with Some c => c =? "INVALID_MODEL" | None => false end then
    Throws e
  else
    match Js.response e with
    | Some r =>
        Returns {| success := false;
                   error := Some "OpenAI API error";
                   response := data r;
                   statusCode := status r;
                   headers := Js.headers r;
                   meta := {| spendai_request_id := requestId;
                              organization_id := None; project_id := None;
                              proxy_key_id := None; timestamp := None;
                              openai_request_id := None |} |}
    | None =>
        if match code e with Some c => c =? "ECONNABORTED" | None => false end then
          Throws (Error "OpenAI request timeout")
        else if includes "proxy key" (message e) then Throws e
        else if includes "decrypt" (message e) then
          Throws (Error "Failed to decrypt organization OpenAI key")
        else Throws (Error "Proxy request failed")
    end.

(** Steps 2 to 6 of [proxyChatCompletion]: everything before the
    outbound call. *)
Definition prepare (env : environment) (s : datastore) (proxyKey : string)
           (requestBody : request_body) (requestHeaders : list (string * string))
  : outcome (ProxyKeyService.key_info * outbound) :=
  key <- ProxyKeyService.verifyProxyKey hmac_sha256_hex (PROXY_KEY_SECRET env)
           (proxy_keys_select env) (proxy_keys s) proxyKey ;;
  match validateModel (model requestBody) with
  | Invalid msg =>
      Throws {| message := msg; code := Some "INVALID_MODEL"; Js.response := None |}
  | Valid =>
      openaiApiKey <- snd (getOrganizationOpenAIKey (OPENAI_KEY_ENCRYPTION_SECRET env)
                             (organizations_select env) (organizations s)
                             (ProxyKeyService.organization_id key)) ;;
      Returns (key,
               {| url := getOpenAIBaseURL ++ "/v1/chat/completions";
                  body := requestBody;
                  forwardHeaders := buildForwardHeaders requestHeaders openaiApiKey;
                  timeout := 60000 |})
  end.

(** [proxyChatCompletion(proxyKey, requestBody, requestHeaders)]: the
    datastore afterwards, the outbound calls issued, and the value
    returned or the error thrown. [stamp] is the [new Date()] read when
    the result object is built. *)
Definition proxyChatCompletion (env : environment) (stamp : string) (s : datastore)
           (proxyKey : string) (requestBody : request_body)
           (requestHeaders : list (string * string))
  : datastore * list outbound * outcome result :=
  let requestId := randomUUID env in
  match prepare env s proxyKey requestBody requestHeaders with
  | Throws e => (s, [], on_error requestId e)
  | Returns (key, call) =>
      match axios_post env call with
      | Throws e => (s, [call], on_error requestId e)
      | Returns openaiResponse =>
          let s' :=
            if (status openaiResponse =? 200)%Z then
              match UsageLoggingService.logFromOpenAIResponse (ledger env) (time env) s
                      {| UsageLoggingService.request_id := requestId;
                         UsageLoggingService.organization_id :=
                           ProxyKeyService.organization_id key;
                         UsageLoggingService.project_id :=
                           ProxyKeyService.project_id key;
                         UsageLoggingService.proxy_key_id := ProxyKeyService.id key |}
                      (data openaiResponse)
              with
              | (logged, Returns _) => logged
              | (logged, Throws loggingError) => logged  (* caught and logged *)
              end
            else s in
          (s', [call],
           Returns {| success := true;
                      error := None;
                      response := data openaiResponse;
                      statusCode := status openaiResponse;
                      headers := Js.headers openaiResponse;
                      meta := {| spendai_request_id := requestId;
                                 organization_id :=
                                   Some (ProxyKeyService.organization_id key);
                                 project_id := Some (ProxyKeyService.project_id key);
                                 proxy_key_id := Some (ProxyKeyService.id key);
                                 timestamp := Some stamp;
                                 openai_request_id :=
                                   match header_value (Js.headers openaiResponse)
                                                      "x-request-id" with
                                   | Some v => if v =? "" then None else Some v
                                   | None => None
                                   end |} |})
      end
  end.

End Crypto.

End OpenAIProxyService.

(** ** [scripts/encryptExistingKeys.js] *)

Module EncryptExistingKeys.

Record summary : Type := {
  migrated : list Organizations.row;
  encryptedCount : nat;
  alreadyEncryptedCount : nat
}.

(** [update({ openai_api_key: encryptedKey }).eq('id', org.id)] *)
Definition set_key (organizationId encryptedKey : string) (o : Organizations.row)
  : Organizations.row :=
  if Organizations.id o =? organizationId then
    {| Organizations.id := Organizations.id o;
       Organizations.openai_api_key := Some encryptedKey;
       Organizations.monthly_budget_usd := Organizations.monthly_budget_usd o |}
  else o.

Section Cipher.
Context {aes : EncryptionService.Aead}.

(** [process.env.OPENAI_KEY_ENCRYPTION_SECRET] *)
Variable secret : option string.

(** The successive values of [crypto.randomBytes(12)]. *)
Variable random : nat -> list Byte.byte.

(** What the datastore does to the update of each organization. *)
Variable update_fault : string -> option Db.fault.

(** The loop over the organizations that were fetched: [draws] counts the
    random values used so far, [acc] is the state of the table and of the
    two counters. An organization whose key is already in the encrypted
    format is skipped; a failure of [encrypt] or of the update is logged and
    the loop goes on. *)
Fixpoint process (fetched : list Organizations.row) (draws : nat) (acc : summary)
  : summary :=
  match fetched with
  | [] => acc
  | org :: rest =>
      match Organizations.openai_api_key org with
      | None => process rest draws acc
      | Some key =>
          if EncryptionService.isEncrypted key then
            process rest draws
              {| migrated := migrated acc;
                 encryptedCount := encryptedCount acc;
                 alreadyEncryptedCount := S (alreadyEncryptedCount acc) |}
          else if key =? "" then process rest draws acc
          else
            match EncryptionService.encrypt secret (random draws) key with
            | Throws _ => process rest (S draws) acc
            | Returns encryptedKey =>
                match update_fault (Organizations.id org) with
                | Some _ => process rest (S draws) acc
                | None =>
                    process rest (S draws)
                      {| migrated :=
                           map (set_key (Organizations.id org) encryptedKey)
                               (migrated acc);
                         encryptedCount := S (encryptedCount acc);
                         alreadyEncryptedCount := alreadyEncryptedCount acc |}
                end
            end
      end
  end.

(** [encryptExistingKeys()]: the organizations with a non-null key are
    fetched once, then processed; a failed fetch changes nothing. *)
Definition encryptExistingKeys (select_fault : option Db.fault)
           (table : list Organizations.row) : summary :=
  let untouched := {| migrated := table; encryptedCount := 0;
                      alreadyEncryptedCount := 0 |} in
  match select_fault with
  | Some _ => untouched
  | None =>
      let fetched :=
        filter (fun o => match Organizations.openai_api_key o with
                         | Some _ => true
                         | None => false
                         end) table in
      process fetched 0 untouched
  end.

End Cipher.

End EncryptExistingKeys.

(** * Properties *)

(** ** Hexadecimal strings *)

Lemma hex_value_lt c n : Buffer.hex_value c = Some n -> (n < 16)%N.
Proof.
  unfold Buffer.hex_value.
  repeat match goal with
         | |- context [if ?b then _ else _] => destruct b eqn:?
         end; intros [= <-];
    repeat match goal with
           | H : (_ && _)%bool = true |- _ => apply andb_prop in H; destruct H
           | H : (_ <=? _)%N = true |- _ => apply N.leb_le in H
           end; lia.
Qed.

Lemma from_hex_byte_to_hex b rest :
  Buffer.from_hex (Buffer.byte_to_hex b ++ rest) = b :: Buffer.from_hex rest.
Proof. destruct b; reflexivity. Qed.

Lemma from_hex_toString_hex bs : Buffer.from_hex (Buffer.toString_hex bs) = bs.
Proof.
  induction bs as [|b bs IH]; [reflexivity|].
  cbn [Buffer.toString_hex]. now rewrite from_hex_byte_to_hex, IH.
Qed.

Lemma all_hex_app a b :
  Buffer.all_hex (a ++ b) = Buffer.all_hex a && Buffer.all_hex b.
Proof.
  induction a as [|c a IH]; cbn; [reflexivity|].
  now rewrite IH, andb_assoc.
Qed.

Lemma all_hex_toString_hex bs : Buffer.all_hex (Buffer.toString_hex bs) = true.
Proof.
  induction bs as [|b bs IH]; [reflexivity|].
  cbn [Buffer.toString_hex]. rewrite all_hex_app, IH, andb_true_r.
  destruct b; reflexivity.
Qed.

Lemma toString_hex_nonempty bs : bs <> [] -> Buffer.toString_hex bs <> "".
Proof. destruct bs as [|b bs]; [congruence|]. intros _. destruct b; discriminate. Qed.

Lemma from_hex_length n : forall s,
  String.length s = (2 * n)%nat -> Buffer.all_hex s = true ->
  List.length (Buffer.from_hex s) = n.
Proof.
  induction n as [|n IH]; intros s Hlen Hhex.
  - destruct s; [reflexivity | discriminate].
  - destruct s as [|a [|b rest]]; try (cbn in Hlen; lia).
    cbn in Hhex. unfold Buffer.is_hex in Hhex.
    cbn [Buffer.from_hex].
    destruct (Buffer.hex_value a) as [h|] eqn:Ha; [|discriminate].
    destruct (Buffer.hex_value b) as [l|] eqn:Hb; [|discriminate].
    apply hex_value_lt in Ha, Hb.
    destruct (Byte.of_N (16 * h + l)) eqn:Hbyte.
    + cbn [List.length]. f_equal. apply IH; [cbn in Hlen; lia | exact Hhex].
    + apply Byte.of_N_None_iff in Hbyte. lia.
Qed.

(** ** Splitting on a character that a part does not contain *)

Lemma split_free sep s :
  (forall c, Buffer.is_hex c = true -> Ascii.eqb c sep = false) ->
  Buffer.all_hex s = true -> split sep s = [s].
Proof.
  intros Hsep. induction s as [|c s IH]; [reflexivity|].
  cbn. intros H. apply andb_prop in H as [Hc Hs].
  now rewrite (Hsep c Hc), (IH Hs).
Qed.

Lemma split_app sep a rest :
  (forall c, Buffer.is_hex c = true -> Ascii.eqb c sep = false) ->
  Buffer.all_hex a = true ->
  split sep (a ++ String sep rest) = a :: split sep rest.
Proof.
  intros Hsep. induction a as [|c a IH]; cbn.
  - intros _. now rewrite Ascii.eqb_refl.
  - intros H. apply andb_prop in H as [Hc Ha].
    now rewrite (Hsep c Hc), (IH Ha).
Qed.

Lemma colon_not_hex c : Buffer.is_hex c = true -> Ascii.eqb c ":" = false.
Proof.
  destruct (Ascii.eqb c ":") eqn:E; [|reflexivity].
  apply Ascii.eqb_eq in E. subst c. discriminate.
Qed.

Lemma split_bundle a b c :
  split ":" (Buffer.toString_hex a ++ ":" ++ Buffer.toString_hex b ++ ":"
             ++ Buffer.toString_hex c)
  = [Buffer.toString_hex a; Buffer.toString_hex b; Buffer.toString_hex c].
Proof.
  change (":" ++ ?x) with (String ":" x).
  rewrite split_app by (auto using colon_not_hex, all_hex_toString_hex).
  change (":" ++ ?x) with (String ":" x).
  rewrite split_app by (auto using colon_not_hex, all_hex_toString_hex).
  now rewrite split_free by (auto using colon_not_hex, all_hex_toString_hex).
Qed.

Lemma append_nonempty a b : a <> "" -> (a ++ b) <> "".
Proof. destruct a; [congruence | discriminate]. Qed.

Lemma eqb_empty_false s : s <> "" -> (s =? "") = false.
Proof. intros H. now apply String.eqb_neq. Qed.

Lemma getMasterKey_valid secret :
  EncryptionService.valid_master_secret secret ->
  EncryptionService.getMasterKey (Some secret) = Returns (Buffer.from_hex secret)
  /\ List.length (Buffer.from_hex secret) = 32%nat.
Proof.
  intros [Hlen Hhex]. split.
  - unfold EncryptionService.getMasterKey.
    destruct secret; [discriminate|].
    cbn [String.eqb]. now rewrite Hlen.
  - now apply from_hex_length.
Qed.

(** C5. Under one master key (64 hex characters), for every 12-byte nonce
    drawn by the call and every non-empty plaintext [x], [encrypt] returns
    the bundle [hex(iv):hex(authTag):hex(ciphertext)] built on that nonce,
    [isEncrypted] recognises it, and [decrypt] of that bundle returns [x].
    The cipher is any implementation of the AES-256-GCM interface. *)
Theorem decrypt_encrypt
  (aes : EncryptionService.Aead) (secret : string) (iv : list Byte.byte) (x : string) :
  EncryptionService.valid_master_secret secret ->
  List.length iv = 12%nat ->
  x <> "" ->
  exists authTag ciphertext,
    let bundle := Buffer.toString_hex iv ++ ":" ++ Buffer.toString_hex authTag
                  ++ ":" ++ Buffer.toString_hex ciphertext in
    EncryptionService.encrypt (Some secret) iv x = Returns bundle
    /\ EncryptionService.isEncrypted bundle = true
    /\ EncryptionService.decrypt (Some secret) bundle = Returns x.
Proof.
  intros Hsecret Hiv Hx.
  destruct (getMasterKey_valid secret Hsecret) as [Hkey Hlen].
  set (key := Buffer.from_hex secret) in *.
  set (sealed := EncryptionService.gcm_seal key iv (EncryptionService.utf8_encode x)).
  exists (snd sealed), (fst sealed). cbv zeta.
  assert (Hacc : EncryptionService.cipher_accepts key iv = true).
  { unfold EncryptionService.cipher_accepts. now rewrite Hlen, Hiv. }
  assert (Hne : Buffer.toString_hex iv <> "").
  { apply toString_hex_nonempty. destruct iv; [discriminate | congruence]. }
  split; [|split].
  - unfold EncryptionService.encrypt.
    rewrite (eqb_empty_false x Hx), Hkey. cbn [bind rethrow].
    now rewrite Hacc.
  - unfold EncryptionService.isEncrypted.
    rewrite (eqb_empty_false _ (append_nonempty _ _ Hne)), split_bundle.
    cbn [List.length Nat.eqb negb forallb]. unfold EncryptionService.hex_part.
    rewrite !all_hex_toString_hex, (eqb_empty_false _ Hne).
    assert (Htag : Buffer.toString_hex (snd sealed) <> "").
    { apply toString_hex_nonempty. intros E.
      pose proof (EncryptionService.gcm_tag_length key iv
                    (EncryptionService.utf8_encode x) Hlen Hiv) as L.
      fold sealed in L. now rewrite E in L. }
    assert (Hct : Buffer.toString_hex (fst sealed) <> "").
    { apply toString_hex_nonempty. intros E.
      pose proof (EncryptionService.gcm_ciphertext_length key iv
                    (EncryptionService.utf8_encode x) Hlen Hiv) as L.
      fold sealed in L. rewrite E in L.
      destruct x; [congruence | discriminate]. }
    now rewrite (eqb_empty_false _ Htag), (eqb_empty_false _ Hct).
  - unfold EncryptionService.decrypt.
    rewrite (eqb_empty_false _ (append_nonempty _ _ Hne)), split_bundle.
    rewrite Hkey. cbn [bind rethrow].
    rewrite !from_hex_toString_hex, Hacc.
    unfold sealed. rewrite EncryptionService.gcm_open_seal by assumption.
    unfold EncryptionService.utf8_decode, EncryptionService.utf8_encode.
    now rewrite string_of_list_byte_of_string.
Qed.

Definition demo_master_secret : string :=
  "000102030405060708090a0b0c0d0e0f101112131415161718191a1b1c1d1e1f".

Definition demo_iv : list Byte.byte :=
  [Byte.x01; Byte.x02; Byte.x03; Byte.x04; Byte.x05; Byte.x06;
   Byte.x07; Byte.x08; Byte.x09; Byte.x0a; Byte.x0b; Byte.x0c].

Lemma decrypt_encrypt_witness :
  EncryptionService.valid_master_secret demo_master_secret
  /\ List.length demo_iv = 12%nat
  /\ "sk-proj-test123" <> ""
  /\ exists authTag ciphertext,
       let bundle := Buffer.toString_hex demo_iv ++ ":" ++ Buffer.toString_hex authTag
                     ++ ":" ++ Buffer.toString_hex ciphertext in
       EncryptionService.encrypt (aes := EncryptionService.toy_aead)
         (Some demo_master_secret) demo_iv "sk-proj-test123" = Returns bundle
       /\ EncryptionService.isEncrypted bundle = true
       /\ EncryptionService.decrypt (aes := EncryptionService.toy_aead)
            (Some demo_master_secret) bundle = Returns "sk-proj-test123".
Proof.
  assert (H1 : EncryptionService.valid_master_secret demo_master_secret)
    by (split; reflexivity).
  assert (H2 : List.length demo_iv = 12%nat) by reflexivity.
  assert (H3 : "sk-proj-test123" <> "") by discriminate.
  repeat split; try assumption.
  exact (decrypt_encrypt EncryptionService.toy_aead demo_master_secret demo_iv
           "sk-proj-test123" H1 H2 H3).
Defined.

(** ** The legacy plaintext path of [getOrganizationOpenAIKey] *)

(** C9, as the code has it. For every organization whose stored upstream
    secret is a non-empty string that [isEncrypted] does not recognise,
    [getOrganizationOpenAIKey] returns the stored value unchanged, whatever
    the cipher and the master secret are (even a missing one, with which
    every decryption throws): the only thing it does besides is warn on the
    console. *)
Theorem legacy_plaintext_key_returned
  (aes : EncryptionService.Aead) (secret : option string)
  (table : list Organizations.row) (organizationId : string)
  (org : Organizations.row) (stored : string) :
  filter (fun o => Organizations.id o =? organizationId) table = [org] ->
  Organizations.openai_api_key org = Some stored ->
  stored <> "" ->
  EncryptionService.isEncrypted stored = false ->
  OpenAIProxyService.getOrganizationOpenAIKey secret None table organizationId
  = (["Organization " ++ organizationId ++ " has unencrypted OpenAI key"],
     Returns stored).
Proof.
  intros Hrow Hkey Hne Hplain.
  unfold OpenAIProxyService.getOrganizationOpenAIKey.
  now rewrite Hrow, Hkey, (eqb_empty_false _ Hne), Hplain.
Qed.

Definition demo_legacy_org : Organizations.row :=
  {| Organizations.id := "org-1";
     Organizations.openai_api_key := Some "sk-proj-legacy";
     Organizations.monthly_budget_usd := None |}.

Lemma legacy_plaintext_key_returned_witness :
  OpenAIProxyService.getOrganizationOpenAIKey (aes := EncryptionService.toy_aead)
    None None [demo_legacy_org] "org-1"
  = (["Organization org-1 has unencrypted OpenAI key"], Returns "sk-proj-legacy").
Proof.
  apply (legacy_plaintext_key_returned EncryptionService.toy_aead None
           [demo_legacy_org] "org-1" demo_legacy_org "sk-proj-legacy").
  - reflexivity.
  - reflexivity.
  - discriminate.
  - reflexivity.
Defined.

(** An empty stored secret does not match the encrypted format either, yet
    it is not returned: the organization counts as not configured. *)
Lemma legacy_empty_key_rejected :
  let org := {| Organizations.id := "org-1";
                Organizations.openai_api_key := Some "";
                Organizations.monthly_budget_usd := None |} in
  EncryptionService.isEncrypted "" = false
  /\ OpenAIProxyService.getOrganizationOpenAIKey (aes := EncryptionService.toy_aead)
       (Some demo_master_secret) None [org] "org-1"
     = ([], Throws (Error "Organization OpenAI API key not configured"))
  /\ snd (OpenAIProxyService.getOrganizationOpenAIKey (aes := EncryptionService.toy_aead)
            (Some demo_master_secret) None [org] "org-1")
     <> Returns "".
Proof. cbv zeta. repeat split. discriminate. Qed.

(** ** Pricing *)

Lemma Math_round_spec x :
  (inject_Z (PricingService.Math_round x) - (1 # 2) <= x
   /\ x < inject_Z (PricingService.Math_round x) + (1 # 2))%Q.
Proof.
  unfold PricingService.Math_round.
  pose proof (Qfloor_le (x + (1 # 2))) as Hlo.
  pose proof (Qlt_floor (x + (1 # 2))) as Hhi.
  rewrite inject_Z_plus in Hhi. change (inject_Z 1) with 1%Q in Hhi.
  split; lra.
Qed.

Lemma Math_round_unique x k :
  (inject_Z k - (1 # 2) <= x)%Q -> (x < inject_Z k + (1 # 2))%Q ->
  PricingService.Math_round x = k.
Proof.
  intros Hlo Hhi. destruct (Math_round_spec x) as [Rlo Rhi].
  set (n := PricingService.Math_round x) in *.
  assert (H1 : (inject_Z k < inject_Z (n + 1))%Q)
    by (rewrite inject_Z_plus; change (inject_Z 1) with 1%Q; lra).
  assert (H2 : (inject_Z n < inject_Z (k + 1))%Q)
    by (rewrite inject_Z_plus; change (inject_Z 1) with 1%Q; lra).
  rewrite <- Zlt_Qlt in H1, H2. lia.
Qed.

Lemma Math_round_comp x y : (x == y)%Q ->
  PricingService.Math_round x = PricingService.Math_round y.
Proof. intros E. unfold PricingService.Math_round. now rewrite E. Qed.

(** ** Binary64: doubling a number doubles what is computed from it

    Multiplying a double by two adds one to its binary exponent and leaves
    its mantissa alone, as long as no overflow or subnormal is near. The
    lemmas below follow this through the operations of [calculateCost]:
    conversion of an integer, division, multiplication and addition, as
    [SpecFloat] specifies them. *)

Module Binary64Facts.

Local Open Scope Z_scope.


(** *** Binary digits *)

Lemma digits2_pos_size p : digits2_pos p = Pos.size p.
Proof. induction p; cbn; congruence. Qed.

Lemma Zdigits2_log2 p : Zdigits2 (Zpos p) = Z.log2 (Zpos p) + 1.
Proof.
  cbn [Zdigits2]. rewrite digits2_pos_size.
  destruct p; cbn; lia.
Qed.

Lemma Zdigits2_nonneg m : 0 <= Zdigits2 m.
Proof. destruct m; cbn; lia. Qed.

Lemma Zdigits2_le m k : 0 <= m -> 0 <= k -> m < 2 ^ k -> Zdigits2 m <= k.
Proof.
  intros Hm Hk Hlt. destruct m as [|p|p]; [cbn; lia| |lia].
  rewrite Zdigits2_log2.
  assert (Z.log2 (Zpos p) < k) by (apply Z.log2_lt_pow2; lia). lia.
Qed.

Lemma Zdigits2_lt_pow p : Zpos p < 2 ^ Zdigits2 (Zpos p).
Proof.
  rewrite Zdigits2_log2. replace (Z.log2 (Zpos p) + 1) with (Z.succ (Z.log2 (Zpos p))) by lia.
  apply Z.log2_spec. lia.
Qed.

Lemma Zdigits2_ge_pow p : 2 ^ (Zdigits2 (Zpos p) - 1) <= Zpos p.
Proof.
  rewrite Zdigits2_log2. replace (Z.log2 (Zpos p) + 1 - 1) with (Z.log2 (Zpos p)) by lia.
  apply Z.log2_spec. lia.
Qed.

(** *** Shifting a mantissa to the right *)

Lemma iter_pos_nat {A} (f : A -> A) p x :
  iter_pos f p x = Nat.iter (Pos.to_nat p) f x.
Proof.
  revert x. induction p as [p IH|p IH|]; intros x; cbn [iter_pos].
  - rewrite !IH, Pos2Nat.inj_xI.
    replace (S (2 * Pos.to_nat p))%nat with (Pos.to_nat p + (Pos.to_nat p + 1))%nat by lia.
    rewrite !Nat.iter_add. reflexivity.
  - rewrite !IH, Pos2Nat.inj_xO.
    replace (2 * Pos.to_nat p)%nat with (Pos.to_nat p + Pos.to_nat p)%nat by lia.
    now rewrite Nat.iter_add.
  - reflexivity.
Qed.

Lemma shr_1_m mrs : 0 <= shr_m mrs -> shr_m (shr_1 mrs) = Z.div2 (shr_m mrs).
Proof.
  destruct mrs as [m r s]. cbn [shr_m]. intros Hm.
  destruct m as [|[p|p|]|p]; try reflexivity; lia.
Qed.

Lemma iter_shr_1_m n mrs :
  0 <= shr_m mrs ->
  shr_m (Nat.iter n shr_1 mrs) = Z.shiftr (shr_m mrs) (Z.of_nat n).
Proof.
  intros Hm. induction n as [|n IH].
  - change (Z.of_nat 0) with 0. now rewrite Z.shiftr_0_r.
  - rewrite Nat.iter_succ, shr_1_m.
    + rewrite IH, Z.div2_spec, Z.shiftr_shiftr by lia. f_equal. lia.
    + rewrite IH. apply Z.shiftr_nonneg. exact Hm.
Qed.

(** The mantissa [shr] leaves: shifted right by [n] when [n] is positive. *)
Definition shr_rec (mrs : shr_record) (n : Z) : shr_record :=
  match n with
  | Zpos p => iter_pos shr_1 p mrs
  | _ => mrs
  end.

Lemma shr_eq mrs e n : shr mrs e n = (shr_rec mrs n, e + Z.max 0 n).
Proof. destruct n; cbn [shr shr_rec]; f_equal; lia. Qed.

Lemma shr_rec_m mrs n :
  0 <= shr_m mrs -> shr_m (shr_rec mrs n) = Z.shiftr (shr_m mrs) (Z.max 0 n).
Proof.
  intros Hm. destruct n as [|p|p]; cbn [shr_rec].
  - now rewrite Z.shiftr_0_r.
  - rewrite iter_pos_nat, iter_shr_1_m by assumption. f_equal. lia.
  - now rewrite Z.shiftr_0_r.
Qed.

Lemma shr_record_of_loc_m m l : shr_m (shr_record_of_loc m l) = m.
Proof. destruct l as [|[]]; reflexivity. Qed.

Lemma round_nearest_even_bounds m l :
  m <= round_nearest_even m l <= m + 1.
Proof.
  destruct l as [|[]]; cbn; try lia. destruct (Z.even m); lia.
Qed.

(** The last step of [binary_round_aux]. *)
Definition finish (s : bool) (mrs : shr_record) (e : Z) : spec_float :=
  match shr_m mrs with
  | Z0 => S754_zero s
  | Zpos m => if e <=? emax - prec then S754_finite s m e else S754_infinity s
  | Zneg _ => S754_nan
  end.

(** [binary_round_aux] when no subnormal is in sight: both shifts are by
    the number of digits in excess of 53. *)
Definition excess1 (M : Z) : Z := Zdigits2 M - prec.
Definition rounded1 (M : Z) (L : location) : Z :=
  let mrs := shr_rec (shr_record_of_loc M L) (excess1 M) in
  round_nearest_even (shr_m mrs) (loc_of_shr_record mrs).
Definition excess2 (M : Z) (L : location) : Z := Zdigits2 (rounded1 M L) - prec.

Lemma fexp_normal x : emin + prec <= x -> fexp prec emax x = x - prec.
Proof. unfold fexp, SpecFloat.emin, emax, prec. lia. Qed.

Lemma binary_round_aux_normal s M E L :
  0 <= M -> emin + prec <= E ->
  binary_round_aux prec emax s M E L
  = finish s (shr_rec (shr_record_of_loc (rounded1 M L) loc_Exact) (excess2 M L))
           (E + Z.max 0 (excess1 M) + Z.max 0 (excess2 M L)).
Proof.
  intros HM HE. unfold binary_round_aux, shr_fexp.
  pose proof (Zdigits2_nonneg M) as HD.
  rewrite fexp_normal by lia.
  replace (Zdigits2 M + E - prec - E) with (excess1 M) by (unfold excess1; lia).
  rewrite shr_eq.
  fold (rounded1 M L).
  pose proof (Zdigits2_nonneg (rounded1 M L)) as HD1.
  rewrite fexp_normal by lia.
  replace (Zdigits2 (rounded1 M L) + (E + Z.max 0 (excess1 M)) - prec
           - (E + Z.max 0 (excess1 M))) with (excess2 M L)
    by (unfold excess2; lia).
  rewrite shr_eq. reflexivity.
Qed.

Lemma rounded1_bounds M L :
  0 <= M ->
  0 <= rounded1 M L
  /\ (prec <= Zdigits2 M -> rounded1 M L <= 2 ^ prec)
  /\ (Zdigits2 M < prec -> rounded1 M L <= 2 ^ Zdigits2 M).
Proof.
  intros HM. unfold rounded1.
  set (mrs := shr_rec (shr_record_of_loc M L) (excess1 M)).
  assert (Hm : shr_m mrs = Z.shiftr M (Z.max 0 (excess1 M))).
  { unfold mrs. rewrite shr_rec_m; rewrite shr_record_of_loc_m; auto. }
  pose proof (round_nearest_even_bounds (shr_m mrs) (loc_of_shr_record mrs)) as Hr.
  set (r := round_nearest_even (shr_m mrs) (loc_of_shr_record mrs)) in *.
  rewrite Hm in Hr. clearbody r. clear Hm mrs.
  assert (H0 : 0 <= Z.shiftr M (Z.max 0 (excess1 M))) by (apply Z.shiftr_nonneg; lia).
  split; [lia|]. unfold excess1 in *.
  destruct M as [|p|p]; [| |lia].
  - rewrite Z.shiftr_0_l in Hr. cbn [Zdigits2]. change (2 ^ 0) with 1.
    split; intros; unfold prec in *; lia.
  - pose proof (Zdigits2_lt_pow p) as Hlt.
    split; intros Hd.
    + rewrite Z.max_r in Hr by lia.
      rewrite Z.shiftr_div_pow2 in Hr by lia.
      assert (Zpos p / 2 ^ (Zdigits2 (Zpos p) - prec) < 2 ^ prec).
      { apply Z.div_lt_upper_bound; [apply Z.pow_pos_nonneg; lia|].
        rewrite <- Z.pow_add_r by (unfold prec in *; lia).
        replace (Zdigits2 (Zpos p) - prec + prec) with (Zdigits2 (Zpos p)) by lia.
        exact Hlt. }
      lia.
    + rewrite Z.max_l in Hr by lia. rewrite Z.shiftr_0_r in Hr. lia.
Qed.

Lemma excess_bounds M L :
  0 <= M ->
  Z.max 0 (excess1 M) + Z.max 0 (excess2 M L) <= Z.max 0 (excess1 M) + 1.
Proof.
  intros HM. destruct (rounded1_bounds M L HM) as (H0 & Hhi & Hlo).
  unfold excess2, excess1 in *.
  assert (Hp : 0 < prec) by (unfold prec; lia).
  destruct (Z_lt_le_dec (Zdigits2 M) prec) as [Hd|Hd].
  - specialize (Hlo Hd).
    assert (Zdigits2 (rounded1 M L) <= Zdigits2 M + 1).
    { apply Zdigits2_le; [lia|pose proof (Zdigits2_nonneg M); lia|].
      rewrite Z.pow_add_r by (pose proof (Zdigits2_nonneg M); lia).
      assert (0 < 2 ^ Zdigits2 M) by (apply Z.pow_pos_nonneg; [lia|apply Zdigits2_nonneg]).
      lia. }
    lia.
  - specialize (Hhi Hd).
    assert (Zdigits2 (rounded1 M L) <= prec + 1).
    { apply Zdigits2_le; [lia|lia|].
      rewrite Z.pow_add_r by lia.
      assert (0 < 2 ^ prec) by (apply Z.pow_pos_nonneg; lia). lia. }
    lia.
Qed.

(** Doubling: the same mantissa, the exponent one more. *)
Definition dbl (x : spec_float) : spec_float :=
  match x with
  | S754_finite s m e => S754_finite s m (e + 1)
  | _ => x
  end.

(** A result that is zero or finite, of sign [s], with its exponent in range. *)
Definition landed (s : bool) (lo hi : Z) (x : spec_float) : Prop :=
  x = S754_zero s \/ exists m e, x = S754_finite s m e /\ lo <= e <= hi.

Lemma binary_round_aux_dbl s M E L :
  0 <= M -> emin + prec <= E ->
  E + Z.max 0 (Zdigits2 M - prec) + 2 <= emax - prec ->
  binary_round_aux prec emax s M (E + 1) L = dbl (binary_round_aux prec emax s M E L)
  /\ landed s E (E + Z.max 0 (Zdigits2 M - prec) + 1)
             (binary_round_aux prec emax s M E L).
Proof.
  intros HM HE Hhi.
  rewrite !binary_round_aux_normal by lia.
  pose proof (excess_bounds M L HM) as Hex. fold (excess1 M) in Hhi.
  set (mrs := shr_rec _ _) in *.
  set (e := E + Z.max 0 (excess1 M) + Z.max 0 (excess2 M L)) in *.
  replace (E + 1 + Z.max 0 (excess1 M) + Z.max 0 (excess2 M L)) with (e + 1)
    by (unfold e; lia).
  assert (He : E <= e <= E + Z.max 0 (excess1 M) + 1) by (unfold e; lia).
  unfold finish.
  assert (Hmrs : 0 <= shr_m mrs).
  { unfold mrs. rewrite shr_rec_m; rewrite shr_record_of_loc_m.
    - apply Z.shiftr_nonneg. apply (rounded1_bounds M L HM).
    - apply (rounded1_bounds M L HM). }
  destruct (shr_m mrs) as [|m|m]; [| |lia].
  - split; [reflexivity|]. now left.
  - replace (e + 1 <=? emax - prec) with true by (symmetry; apply Z.leb_le; lia).
    replace (e <=? emax - prec) with true by (symmetry; apply Z.leb_le; lia).
    split; [reflexivity|]. right. exists m, e. split; [reflexivity|].
    unfold excess1 in He. lia.
Qed.

(** *** Doubles whose exponent is far from both ends *)

Ltac flia := unfold SpecFloat.emin, emax, prec in *; lia.

Definition ranged (lo hi : Z) (x : float) : Prop :=
  Prim2SF x = S754_zero false
  \/ exists m e, Prim2SF x = S754_finite false m e /\ lo <= e <= hi.

Definition twice (x x2 : float) : Prop := Prim2SF x2 = dbl (Prim2SF x).

Lemma valid_digits x s m e :
  Prim2SF x = S754_finite s m e -> emin < e ->
  Zdigits2 (Zpos m) = prec /\ 2 ^ (prec - 1) <= Zpos m < 2 ^ prec.
Proof.
  intros Hx He. pose proof (Prim2SF_valid x) as Hv. rewrite Hx in Hv.
  cbn [SpecFloat.valid_binary] in Hv. unfold bounded, canonical_mantissa in Hv.
  apply andb_prop in Hv as [Hc _]. apply Z.eqb_eq in Hc.
  assert (Hd : Zdigits2 (Zpos m) = prec).
  { cbn [Zdigits2]. unfold fexp, SpecFloat.emin, emax, prec in *. lia. }
  split; [exact Hd|].
  pose proof (Zdigits2_lt_pow m). pose proof (Zdigits2_ge_pow m).
  rewrite Hd in *. lia.
Qed.

Lemma landed_ranged s lo hi lo' hi' x :
  landed s lo hi (Prim2SF x) -> s = false -> lo' <= lo -> hi <= hi' ->
  ranged lo' hi' x.
Proof.
  intros [H|(m & e & H & He)] -> Hlo Hhi; [now left|].
  right. exists m, e. split; [exact H|lia].
Qed.

Lemma mul_twice lx hx ly hy x x2 y :
  ranged lx hx x -> ranged ly hy y -> twice x x2 ->
  emin < lx -> emin < ly ->
  emin + prec <= lx + ly -> hx + hy + 55 <= emax - prec ->
  twice (x * y) (x2 * y) /\ ranged (lx + ly) (hx + hy + 54) (x * y).
Proof.
  intros Hx Hy Hxx Hlx Hly Hlo Hhi. unfold twice in *.
  unfold ranged. rewrite !FloatAxioms.mul_spec, Hxx.
  destruct Hx as [Hx|(mx & ex & Hx & Hex)]; rewrite Hx;
    destruct Hy as [Hy|(my & ey & Hy & Hey)]; rewrite Hy;
    try (cbn; split; [reflexivity|now left]).
  destruct (valid_digits x _ _ _ Hx ltac:(lia)) as [_ Hmx].
  destruct (valid_digits y _ _ _ Hy ltac:(lia)) as [_ Hmy].
  cbn [dbl SF64mul SFmul xorb].
  replace (ex + 1 + ey) with (ex + ey + 1) by lia.
  assert (Hd : Zdigits2 (Zpos (mx * my)) <= 2 * prec).
  { apply Zdigits2_le; [lia|unfold prec; lia|].
    rewrite Pos2Z.inj_mul.
    replace (2 * prec) with (prec + prec) by lia.
    rewrite Z.pow_add_r by (unfold prec; lia).
    apply Z.mul_lt_mono_nonneg; lia. }
  destruct (binary_round_aux_dbl false (Zpos (mx * my)) (ex + ey) loc_Exact)
    as [Hdbl Hset]; [lia|flia|flia|].
  split; [exact Hdbl|].
  destruct Hset as [H|(m & e & H & He)]; [now left|].
  right. exists m, e. split; [exact H|]. unfold prec in *. lia.
Qed.

Lemma div_eucl_div a b : fst (Z.div_eucl a b) = a / b.
Proof. unfold Z.div. now destruct (Z.div_eucl a b). Qed.

Lemma div_twice lx hx ly hy x x2 y my ey :
  ranged lx hx x -> Prim2SF y = S754_finite false my ey -> ly <= ey <= hy ->
  twice x x2 ->
  emin < lx -> emin < ly ->
  emin + 2 * prec <= lx - hy -> hx - ly + 4 <= emax ->
  twice (x / y) (x2 / y) /\ ranged (lx - hy - prec) (hx - ly - prec + 2) (x / y).
Proof.
  intros Hx Hy Hey Hxx Hlx Hly Hlo Hhi. unfold twice in *.
  unfold ranged. rewrite !FloatAxioms.div_spec, Hxx, Hy.
  destruct Hx as [Hx|(mx & ex & Hx & Hex)]; rewrite Hx;
    try (cbn; split; [reflexivity|now left]).
  destruct (valid_digits x _ _ _ Hx ltac:(lia)) as [Hdx Hmx].
  destruct (valid_digits y _ _ _ Hy ltac:(lia)) as [Hdy Hmy].
  cbn [dbl SF64div SFdiv xorb]. unfold SFdiv_core_binary.
  rewrite Hdx, Hdy.
  replace (prec + (ex + 1) - (prec + ey)) with (ex - ey + 1) by lia.
  replace (prec + ex - (prec + ey)) with (ex - ey) by lia.
  rewrite !fexp_normal by flia.
  replace (Z.min (ex - ey + 1 - prec) (ex + 1 - ey)) with (ex - ey - prec + 1)
    by (unfold prec; lia).
  replace (Z.min (ex - ey - prec) (ex - ey)) with (ex - ey - prec)
    by (unfold prec; lia).
  replace (ex + 1 - ey - (ex - ey - prec + 1)) with prec by lia.
  replace (ex - ey - (ex - ey - prec)) with prec by lia.
  change (match prec with
          | 0 => Z.pos mx
          | Z.pos _ => Z.shiftl (Z.pos mx) prec
          | Z.neg _ => 0
          end) with (Z.shiftl (Z.pos mx) prec).
  pose proof (div_eucl_div (Z.shiftl (Zpos mx) prec) (Zpos my)) as Hq.
  destruct (Z.div_eucl (Z.shiftl (Zpos mx) prec) (Zpos my)) as [q r].
  cbn [fst] in Hq.
  assert (Hq0 : 0 <= q).
  { rewrite Hq. apply Z.div_pos; [|lia]. apply Z.shiftl_nonneg. lia. }
  assert (Hqd : Zdigits2 q <= prec + 1).
  { apply Zdigits2_le; [exact Hq0|unfold prec; lia|].
    rewrite Hq. apply Z.div_lt_upper_bound; [lia|].
    rewrite Z.shiftl_mul_pow2 by (unfold prec; lia).
    unfold prec in *.
    change (2 ^ (53 + 1)) with (2 * 2 ^ 53).
    change (2 ^ (53 - 1)) with (2 ^ 52) in *.
    assert (2 ^ 53 = 2 * 2 ^ 52) by reflexivity.
    nia. }
  destruct (binary_round_aux_dbl false q (ex - ey - prec)
              (new_location (Zpos my) r)) as [Hdbl Hset]; [exact Hq0|flia|flia|].
  split; [exact Hdbl|].
  destruct Hset as [H|(m & e & H & He)]; [now left|].
  right. exists m, e. split; [exact H|]. unfold prec in *. lia.
Qed.

Lemma pos_iter_xO m d : Zpos (Pos.iter xO m d) = Zpos m * 2 ^ Zpos d.
Proof.
  induction d as [|d IH] using Pos.peano_ind.
  - cbn. lia.
  - rewrite Pos.iter_succ, Pos2Z.inj_succ, Z.pow_succ_r by lia.
    rewrite Pos2Z.inj_xO, IH. lia.
Qed.

Lemma shl_align_spec m e e' :
  snd (shl_align m e e') = Z.min e e'
  /\ Zpos (fst (shl_align m e e')) = Zpos m * 2 ^ (e - Z.min e e').
Proof.
  unfold shl_align. destruct (e' - e) as [|d|d] eqn:Hd; cbn [fst snd].
  - rewrite Z.min_l by lia. rewrite Z.sub_diag. cbn. lia.
  - rewrite Z.min_l by lia. rewrite Z.sub_diag. cbn. lia.
  - rewrite Z.min_r by lia. rewrite pos_iter_xO.
    replace (e - e') with (Zpos d) by lia. tauto.
Qed.

Lemma shl_align_succ m e e' :
  shl_align m (e + 1) (e' + 1)
  = (fst (shl_align m e e'), snd (shl_align m e e') + 1).
Proof.
  unfold shl_align. replace (e' + 1 - (e + 1)) with (e' - e) by lia.
  destruct (e' - e); reflexivity.
Qed.

Lemma Zdigits2_mul_pow2 m k :
  0 <= k -> Zdigits2 (Zpos m * 2 ^ k) = Zdigits2 (Zpos m) + k.
Proof.
  intros Hk.
  assert (Hpos : 0 < Zpos m * 2 ^ k)
    by (apply Z.mul_pos_pos; [lia|apply Z.pow_pos_nonneg; lia]).
  destruct (Zpos m * 2 ^ k) as [|q|q] eqn:E; try lia.
  rewrite !Zdigits2_log2, <- E, Z.log2_mul_pow2 by lia. lia.
Qed.

(** [binary_round] of a positive mantissa, away from the subnormals. *)
Lemma binary_round_dbl s m e :
  emin + 2 * prec <= e ->
  Z.max e (Zdigits2 (Zpos m) + e - prec) + 3 <= emax - prec ->
  binary_round prec emax s m (e + 1) = dbl (binary_round prec emax s m e)
  /\ landed s (Z.min e (Zdigits2 (Zpos m) + e - prec))
             (Zdigits2 (Zpos m) + e - prec + 1)
             (binary_round prec emax s m e).
Proof.
  intros Hlo Hhi. unfold binary_round.
  pose proof (Zdigits2_nonneg (Zpos m)) as HD. cbn [Zdigits2] in *.
  set (D := Zpos (digits2_pos m)) in *.
  replace (D + (e + 1)) with (D + e + 1) by lia.
  rewrite !fexp_normal by flia.
  replace (D + e + 1 - prec) with (D + e - prec + 1) by lia.
  rewrite shl_align_succ.
  destruct (shl_align_spec m e (D + e - prec)) as [Hsnd Hfst].
  destruct (shl_align m e (D + e - prec)) as [mz ez]. cbn [fst snd] in *.
  assert (Hdz : Zdigits2 (Zpos mz) = D + (e - ez)).
  { rewrite Hfst, Zdigits2_mul_pow2 by lia. rewrite Hsnd. reflexivity. }
  destruct (binary_round_aux_dbl s (Zpos mz) ez loc_Exact) as [Hdbl Hset];
    [lia|flia|flia|].
  split; [exact Hdbl|].
  destruct Hset as [H|(m' & e' & H & He)]; [now left|].
  right. exists m', e'. split; [exact H|]. rewrite Hdz in He. lia.
Qed.

Lemma binary_round_xO s p e :
  Zdigits2 (Zpos p~0) <= prec -> emin + prec <= e ->
  binary_round prec emax s p~0 e = binary_round prec emax s p (e + 1).
Proof.
  intros Hd Hlo. unfold binary_round.
  cbn [Zdigits2 digits2_pos] in Hd. rewrite Pos2Z.inj_succ in Hd.
  cbn [digits2_pos]. rewrite Pos2Z.inj_succ.
  set (D := Zpos (digits2_pos p)) in *.
  assert (0 < D) by (unfold D; lia).
  replace (D + (e + 1)) with (Z.succ D + e) by lia.
  rewrite fexp_normal by lia.
  set (T := Z.succ D + e - prec).
  destruct (shl_align_spec p~0 e T) as [Hs1 Hf1].
  destruct (shl_align_spec p (e + 1) T) as [Hs2 Hf2].
  destruct (shl_align p~0 e T) as [m1 e1], (shl_align p (e + 1) T) as [m2 e2].
  cbn [fst snd] in *.
  assert (HT : T <= e) by (unfold T; lia).
  rewrite Z.min_r in Hs1, Hf1 by lia. rewrite Z.min_r in Hs2, Hf2 by lia.
  assert (Zpos m1 = Zpos m2).
  { rewrite Hf1, Hf2. replace (e + 1 - T) with (Z.succ (e - T)) by lia.
    rewrite Z.pow_succ_r by lia. rewrite Pos2Z.inj_xO. lia. }
  congruence.
Qed.

Lemma Zdigits2_ge m k : 0 < k -> 2 ^ (k - 1) <= Zpos m -> k <= Zdigits2 (Zpos m).
Proof.
  intros Hk H. rewrite Zdigits2_log2.
  assert (k - 1 <= Z.log2 (Zpos m)) by (apply Z.log2_le_pow2; lia). lia.
Qed.

Lemma add_twice lx hx ly hy x x2 y y2 :
  ranged lx hx x -> ranged ly hy y -> twice x x2 -> twice y y2 ->
  emin + 2 * prec <= lx -> emin + 2 * prec <= ly ->
  hx + 5 <= emax - prec -> hy + 5 <= emax - prec ->
  twice (x + y) (x2 + y2)
  /\ ranged (Z.min lx ly) (Z.max hx hy + 2) (x + y).
Proof.
  intros Hx Hy Hxx Hyy Hlx Hly Hhx Hhy. unfold twice in *.
  unfold ranged. rewrite !FloatAxioms.add_spec, Hxx, Hyy.
  destruct Hx as [Hx|(mx & ex & Hx & Hex)]; rewrite Hx;
    destruct Hy as [Hy|(my & ey & Hy & Hey)]; rewrite Hy.
  - cbn. split; [reflexivity|now left].
  - cbn. split; [reflexivity|]. right. exists my, ey. split; [reflexivity|lia].
  - cbn. split; [reflexivity|]. right. exists mx, ex. split; [reflexivity|lia].
  - destruct (valid_digits x _ _ _ Hx ltac:(flia)) as [Hdx Hmx].
    destruct (valid_digits y _ _ _ Hy ltac:(flia)) as [Hdy Hmy].
    cbn [dbl SF64add SFadd cond_Zopp].
    replace (Z.min (ex + 1) (ey + 1)) with (Z.min ex ey + 1) by lia.
    set (ez := Z.min ex ey).
    rewrite !shl_align_succ. cbn [fst].
    destruct (shl_align_spec mx ex ez) as [_ Ha].
    destruct (shl_align_spec my ey ez) as [_ Hb].
    set (a := fst (shl_align mx ex ez)) in *.
    set (b := fst (shl_align my ey ez)) in *.
    rewrite Z.min_r in Ha by (unfold ez; lia).
    rewrite Z.min_r in Hb by (unfold ez; lia).
    change (Zpos a + Zpos b) with (Zpos (a + b)).
    cbn [binary_normalize].
    set (M := Z.max ex ey).
    assert (H1 : 0 < 2 ^ (ex - ez)) by (apply Z.pow_pos_nonneg; unfold ez; lia).
    assert (H2 : 0 < 2 ^ (ey - ez)) by (apply Z.pow_pos_nonneg; unfold ez; lia).
    assert (H3 : 2 ^ (ex - ez) <= 2 ^ (M - ez))
      by (apply Z.pow_le_mono_r; unfold M, ez; lia).
    assert (H4 : 2 ^ (ey - ez) <= 2 ^ (M - ez))
      by (apply Z.pow_le_mono_r; unfold M, ez; lia).
    assert (Hlow : 2 ^ (prec - 1) <= Zpos (a + b)).
    { rewrite Pos2Z.inj_add, Ha. nia. }
    assert (Hupp : Zpos (a + b) < 2 ^ (prec + 1 + (M - ez))).
    { rewrite Pos2Z.inj_add, Ha, Hb.
      rewrite Z.pow_add_r by (unfold prec, M, ez; lia).
      rewrite Z.pow_add_r by (unfold prec; lia).
      change (2 ^ 1) with 2. nia. }
    assert (Hd1 : prec <= Zdigits2 (Zpos (a + b)))
      by (apply Zdigits2_ge; [unfold prec; lia|exact Hlow]).
    assert (Hd2 : Zdigits2 (Zpos (a + b)) <= prec + 1 + (M - ez))
      by (apply Zdigits2_le; [lia|unfold prec, M, ez; lia|exact Hupp]).
    destruct (binary_round_dbl false (a + b) ez) as [Hdbl Hset];
      [unfold ez; flia|unfold M, ez in *; flia|].
    split; [exact Hdbl|].
    destruct Hset as [H|(m' & e' & H & He)]; [now left|].
    right. exists m', e'. split; [exact H|]. unfold M, ez in *. lia.
Qed.

(** *** Integers as doubles *)

Lemma of_Z_spec z :
  0 <= z < 2 ^ 63 -> Prim2SF (Binary64.of_Z z) = binary_normalize prec emax z 0 false.
Proof.
  intros Hz. unfold Binary64.of_Z.
  pose proof (of_uint63_spec (Uint63.of_Z z)) as H.
  rewrite Uint63.of_Z_spec, Z.mod_small in H by (change wB with (2 ^ 63); lia).
  rewrite <- H. now rewrite SF2Prim_Prim2SF.
Qed.

Lemma of_Z_twice (k z : Z) :
  0 <= k <= 52 -> 0 <= z < 2 ^ k ->
  twice (Binary64.of_Z z) (Binary64.of_Z (2 * z)) /\ ranged (- 52) (k - 52) (Binary64.of_Z z).
Proof.
  intros Hk Hz. unfold twice, ranged.
  assert (Hk52 : 2 ^ k <= 2 ^ 52) by (apply Z.pow_le_mono_r; lia).
  assert (H63 : 2 ^ 52 < 2 ^ 63) by reflexivity.
  assert (E52 : 2 ^ 52 = 4503599627370496) by reflexivity.
  rewrite !of_Z_spec by lia.
  destruct z as [|p|p]; [| |lia].
  - cbn. split; [reflexivity|now left].
  - change (2 * Zpos p) with (Zpos p~0). cbn [binary_normalize].
    assert (Hdp : Zdigits2 (Zpos p) <= k) by (apply Zdigits2_le; lia).
    assert (Hd0 : 0 < Zdigits2 (Zpos p)) by (cbn; lia).
    rewrite binary_round_xO.
    + destruct (binary_round_dbl false p 0) as [Hdbl Hset]; [flia|flia|].
      split; [exact Hdbl|].
      destruct Hset as [Hr|(m' & e' & Hr & He)]; [now left|].
      right. exists m', e'. split; [exact Hr|]. unfold prec in *. lia.
    + cbn [Zdigits2 digits2_pos] in *. rewrite Pos2Z.inj_succ. unfold prec. lia.
    + flia.
Qed.

Lemma iter_shr_1_exact n m :
  Nat.iter n shr_1 {| shr_m := Zpos m * 2 ^ Z.of_nat n; shr_r := false; shr_s := false |}
  = {| shr_m := Zpos m; shr_r := false; shr_s := false |}.
Proof.
  induction n as [|n IH].
  - cbn [Nat.iter]. change (Z.of_nat 0) with 0. rewrite Z.pow_0_r, Z.mul_1_r. reflexivity.
  - rewrite Nat.iter_succ_r, Nat2Z.inj_succ, Z.pow_succ_r by lia.
    assert (Hpos : 0 < Zpos m * 2 ^ Z.of_nat n)
      by (apply Z.mul_pos_pos; [lia|apply Z.pow_pos_nonneg; lia]).
    destruct (Zpos m * 2 ^ Z.of_nat n) as [|q|q] eqn:E; try lia.
    replace (Zpos m * (2 * 2 ^ Z.of_nat n)) with (Zpos q~0) by lia.
    cbn [shr_1 orb]. exact IH.
Qed.

Lemma two_mul lo hi z :
  ranged lo hi z -> emin + 2 * prec <= lo -> hi + 1 <= emax - prec ->
  Prim2SF (2 * z) = dbl (Prim2SF z).
Proof.
  intros Hz Hlo Hhi. rewrite FloatAxioms.mul_spec.
  change (Prim2SF 2) with (S754_finite false 4503599627370496 (-51)).
  destruct Hz as [Hz|(m & e & Hz & He)]; rewrite Hz; [reflexivity|].
  destruct (valid_digits z _ _ _ Hz ltac:(flia)) as [Hd Hm].
  cbn [dbl SF64mul SFmul xorb].
  assert (EM : Zpos (4503599627370496 * m) = Zpos m * 2 ^ 52)
    by (rewrite Pos2Z.inj_mul; change (2 ^ 52) with 4503599627370496; lia).
  assert (HD : Zdigits2 (Zpos (4503599627370496 * m)) = prec + 52)
    by (rewrite EM, Zdigits2_mul_pow2, Hd by lia; reflexivity).
  rewrite binary_round_aux_normal by flia.
  assert (E1 : excess1 (Zpos (4503599627370496 * m)) = 52)
    by (unfold excess1; rewrite HD; lia).
  assert (R1 : rounded1 (Zpos (4503599627370496 * m)) loc_Exact = Zpos m).
  { unfold rounded1. rewrite E1, EM. cbn [shr_record_of_loc shr_rec].
    rewrite iter_pos_nat.
    change (2 ^ 52) with (2 ^ Z.of_nat (Pos.to_nat 52)).
    rewrite iter_shr_1_exact. reflexivity. }
  unfold excess2. rewrite R1, E1, Hd.
  replace (prec - prec) with 0 by lia.
  cbn [shr_rec shr_record_of_loc Z.max]. unfold finish. cbn [shr_m].
  replace (-51 + e + Z.max 0 52 + Z.max 0 0) with (e + 1) by lia.
  replace (e + 1 <=? emax - prec) with true by (symmetry; apply Z.leb_le; lia).
  reflexivity.
Qed.

(** *** Exact values and [Math.round] *)

Lemma to_Q_zero x : Prim2SF x = S754_zero false -> Binary64.to_Q x = 0%Q.
Proof. intros H. unfold Binary64.to_Q. now rewrite H. Qed.

Lemma to_Q_twice lo hi y y2 :
  ranged lo hi y -> twice y y2 -> hi <= -2 -> (Binary64.to_Q y2 == 2 * Binary64.to_Q y)%Q.
Proof.
  intros Hy Hyy Hhi. unfold twice in Hyy. unfold Binary64.to_Q. rewrite Hyy.
  destruct Hy as [Hy|(m & e & Hy & He)]; rewrite Hy; [reflexivity|].
  cbn [dbl].
  replace (0 <=? e + 1) with false by (symmetry; apply Z.leb_gt; lia).
  replace (0 <=? e) with false by (symmetry; apply Z.leb_gt; lia).
  unfold Qeq, Qmult. cbn [Qnum Qden]. rewrite Pos.mul_1_l.
  rewrite !Pos2Z.inj_pow, !Z2Pos.id by lia.
  replace (- e) with (Z.succ (- (e + 1))) by lia.
  rewrite Z.pow_succ_r by lia. lia.
Qed.

Lemma to_Q_bounds lo hi y k :
  ranged lo hi y -> emin < lo -> hi < 0 -> 0 <= k -> prec + hi <= k ->
  (0 <= Binary64.to_Q y)%Q /\ (Binary64.to_Q y < inject_Z (2 ^ k))%Q.
Proof.
  intros Hy Hlo Hhi Hk Hkk.
  assert (Hpk : 0 < 2 ^ k) by (apply Z.pow_pos_nonneg; lia).
  unfold Binary64.to_Q.
  destruct Hy as [Hy|(m & e & Hy & He)]; rewrite Hy.
  - split; [apply Qle_refl|]. unfold Qlt, inject_Z. cbn. lia.
  - destruct (valid_digits y _ _ _ Hy ltac:(lia)) as [_ Hm].
    replace (0 <=? e) with false by (symmetry; apply Z.leb_gt; lia).
    cbv zeta. split.
    + unfold Qle. cbn. lia.
    + unfold Qlt, inject_Z. cbn [Qnum Qden].
      rewrite Pos2Z.inj_pow, Z2Pos.id by lia.
      assert (2 ^ prec <= 2 ^ k * 2 ^ (- e)).
      { rewrite <- Z.pow_add_r by lia. apply Z.pow_le_mono_r; lia. }
      lia.
Qed.

End Binary64Facts.

(** *** Rounding a number and its double *)

Lemma Math_round_double x :
  let n := PricingService.Math_round x in
  let m := PricingService.Math_round (2 * x)%Q in
  (2 * n - 1 <= m <= 2 * n + 1)%Z
  /\ (m = (2 * n)%Z <-> (inject_Z n - (1 # 4) <= x /\ x < inject_Z n + (1 # 4))%Q).
Proof.
  intros n m.
  destruct (Math_round_spec x) as [Rlo Rhi].
  destruct (Math_round_spec (2 * x)) as [Dlo Dhi].
  fold n in Rlo, Rhi. fold m in Dlo, Dhi.
  assert (Hbound : (2 * n - 1 <= m <= 2 * n + 1)%Z).
  { assert (H1 : (inject_Z m < inject_Z (2 * n + 2))%Q).
    { rewrite inject_Z_plus, inject_Z_mult. change (inject_Z 2) with 2%Q. lra. }
    assert (H2 : (inject_Z (2 * n - 2) < inject_Z m)%Q).
    { unfold Z.sub. rewrite inject_Z_plus, inject_Z_mult.
      change (inject_Z 2) with 2%Q. change (inject_Z (- (2))) with (- (2))%Q. lra. }
    rewrite <- Zlt_Qlt in H1, H2. lia. }
  split; [exact Hbound|]. split.
  - intros E. rewrite E, inject_Z_mult in Dlo, Dhi.
    change (inject_Z 2) with 2%Q in Dlo, Dhi. split; lra.
  - intros [Qlo Qhi]. apply Math_round_unique.
    + rewrite inject_Z_mult. change (inject_Z 2) with 2%Q. lra.
    + rewrite inject_Z_mult. change (inject_Z 2) with 2%Q. lra.
Qed.

Lemma Math_round_bounds x K :
  (0 <= x)%Q -> (x < inject_Z K)%Q ->
  (0 <= PricingService.Math_round x <= K)%Z.
Proof.
  intros H0 HK. destruct (Math_round_spec x) as [Rlo Rhi].
  set (n := PricingService.Math_round x) in *.
  assert (H1 : (inject_Z (-1) < inject_Z n)%Q)
    by (change (inject_Z (-1)) with (-1)%Q; lra).
  assert (H2 : (inject_Z n < inject_Z (K + 1))%Q)
    by (rewrite inject_Z_plus; change (inject_Z 1) with 1%Q; lra).
  rewrite <- Zlt_Qlt in H1, H2. lia.
Qed.

(** *** The prices of the table as doubles *)

Lemma table_entry model pricing :
  PricingService.getModelPricing model = Some (PricingService.Entry pricing) ->
  In pricing (map snd PricingService.getPricingTable).
Proof.
  unfold PricingService.getModelPricing.
  destruct (find _ PricingService.getPricingTable) as [entry|] eqn:F.
  - intros [= <-]. apply in_map. exact (proj1 (find_some _ _ F)).
  - destruct (existsb _ _); discriminate.
Qed.

Lemma million : Prim2SF 1000000 = S754_finite false 8589934592000000 (-33).
Proof. reflexivity. Qed.

Ltac table_cases H :=
  cbn in H;
  repeat (destruct H as [<-|H]; [|]); [ .. | destruct H].

Lemma table_prices model pricing :
  PricingService.getModelPricing model = Some (PricingService.Entry pricing) ->
  Binary64Facts.ranged (-55) (-47) (Binary64.of_Q (PricingService.prompt pricing))
  /\ Binary64Facts.ranged (-55) (-47)
       (Binary64.of_Q (PricingService.completion pricing)).
Proof.
  intros H. apply table_entry in H. table_cases H;
    (split; right; eexists _, _; (split; [vm_compute; reflexivity|lia])).
Qed.

(** [totalCost * 1_000_000], the number [Math.round] is applied to. *)
Definition microdollars (pricing : PricingService.member) (p c : Z) : float :=
  (PricingService.totalCost_f64 pricing p c * 1000000)%float.

Lemma ranged_weaken lo hi lo' hi' x :
  Binary64Facts.ranged lo hi x -> (lo' <= lo)%Z -> (hi <= hi')%Z ->
  Binary64Facts.ranged lo' hi' x.
Proof.
  intros [H|(m & e & H & He)] Hlo Hhi; [now left|].
  right. exists m, e. split; [exact H|lia].
Qed.

Lemma microdollars_twice model pricing p c :
  PricingService.getModelPricing model = Some (PricingService.Entry pricing) ->
  (0 <= p < 2 ^ 31)%Z -> (0 <= c < 2 ^ 31)%Z ->
  Binary64Facts.twice (microdollars (PricingService.Entry pricing) p c)
                      (microdollars (PricingService.Entry pricing) (2 * p) (2 * c))
  /\ Binary64Facts.ranged (-160) (-9) (microdollars (PricingService.Entry pricing) p c).
Proof.
  intros Hm Hp Hc.
  destruct (table_prices model pricing Hm) as [Hpp Hpc].
  assert (Scale : forall t, (0 <= t < 2 ^ 31)%Z ->
            Binary64Facts.twice (Binary64.of_Z t / 1000000) (Binary64.of_Z (2 * t) / 1000000)
            /\ Binary64Facts.ranged (-72) (-39) (Binary64.of_Z t / 1000000)).
  { intros t Ht.
    destruct (Binary64Facts.of_Z_twice 31 t ltac:(lia) Ht) as [T1 R1].
    destruct (Binary64Facts.div_twice (-52) (31 - 52) (-33) (-33) _ _ _ _ _
                R1 million ltac:(lia) T1) as [T2 R2];
      try (unfold SpecFloat.emin, emax, prec; lia).
    split; [exact T2|].
    apply (ranged_weaken _ _ _ _ _ R2); unfold prec; lia. }
  assert (Part : forall t price, (0 <= t < 2 ^ 31)%Z ->
            Binary64Facts.ranged (-55) (-47) price ->
            Binary64Facts.twice (Binary64.of_Z t / 1000000 * price)
                                (Binary64.of_Z (2 * t) / 1000000 * price)
            /\ Binary64Facts.ranged (-127) (-32) (Binary64.of_Z t / 1000000 * price)).
  { intros t price Ht Hprice. destruct (Scale t Ht) as [T2 R2].
    destruct (Binary64Facts.mul_twice _ _ _ _ _ _ _ R2 Hprice T2) as [T3 R3];
      try (unfold SpecFloat.emin, emax, prec; lia).
    split; [exact T3|]. apply (ranged_weaken _ _ _ _ _ R3); lia. }
  destruct (Part p _ Hp Hpp) as [Tp Rp].
  destruct (Part c _ Hc Hpc) as [Tc Rc].
  destruct (Binary64Facts.add_twice _ _ _ _ _ _ _ _ Rp Rc Tp Tc) as [Ts Rs];
    try (unfold SpecFloat.emin, emax, prec; lia).
  assert (Rm : Binary64Facts.ranged (-33) (-33) 1000000).
  { right. eexists _, _. split; [exact million|lia]. }
  destruct (Binary64Facts.mul_twice _ _ _ _ _ _ _ Rs Rm Ts) as [Ty Ry];
    try (unfold SpecFloat.emin, emax, prec; cbn; lia).
  split; [exact Ty|].
  apply (ranged_weaken _ _ _ _ _ Ry); cbn; lia.
Qed.

Lemma Math_round_f64_ranged lo hi y :
  Binary64Facts.ranged lo hi y ->
  PricingService.Math_round_f64 y
  = Binary64.of_Z (PricingService.Math_round (Binary64.to_Q y)).
Proof.
  intros [H|(m & e & H & _)]; unfold PricingService.Math_round_f64.
  - rewrite (Binary64Facts.to_Q_zero y H), H.
    rewrite <- (SF2Prim_Prim2SF y), H. reflexivity.
  - rewrite H. reflexivity.
Qed.

Definition demo_pricing : PricingService.pricing :=
  {| PricingService.prompt := 0.15; PricingService.completion := 0.60 |}.

(** C3, as the code computes it. For every model of the pricing table and
    all token counts [p], [c] from 0 to 2^31 - 1 (the range of the ledger's
    INTEGER columns), in binary64:
    - the cost of no tokens is 0;
    - the unrounded cost in millionths of a dollar, the number
      [totalCost * 1_000_000] that [Math.round] is applied to, doubles
      exactly when both counts double;
    - [calculateCost] returns [n / 1_000_000] for the integer [n] that
      [Math.round] gives, and the integer [n2] for the doubled counts is
      [2n - 1], [2n] or [2n + 1];
    - [n2 = 2n] exactly when the unrounded number lies within a quarter of
      [n] (at least [n - 1/4] and below [n + 1/4]), and then
      [calculateCost(model, 2p, 2c)] is the double [2 * calculateCost(model, p, c)]. *)
Theorem calculateCost_doubling (model : string) (pricing : PricingService.pricing)
        (p c : Z) :
  PricingService.getModelPricing model = Some (PricingService.Entry pricing) ->
  (0 <= p < 2 ^ 31)%Z -> (0 <= c < 2 ^ 31)%Z ->
  let unrounded p c :=
    (PricingService.totalCost_f64 (PricingService.Entry pricing) p c * 1000000)%float in
  let n := PricingService.Math_round (Binary64.to_Q (unrounded p c)) in
  let n2 := PricingService.Math_round (Binary64.to_Q (unrounded (2 * p) (2 * c))%Z) in
  PricingService.calculateCost_f64 model 0 0 = 0%float
  /\ unrounded (2 * p)%Z (2 * c)%Z = (2 * unrounded p c)%float
  /\ PricingService.calculateCost_f64 model p c
     = (Binary64.of_Z n / 1000000)%float
  /\ PricingService.calculateCost_f64 model (2 * p) (2 * c)
     = (Binary64.of_Z n2 / 1000000)%float
  /\ (2 * n - 1 <= n2 <= 2 * n + 1)%Z
  /\ (n2 = (2 * n)%Z
      <-> (inject_Z n - (1 # 4) <= Binary64.to_Q (unrounded p c)
           /\ Binary64.to_Q (unrounded p c) < inject_Z n + (1 # 4))%Q)
  /\ (n2 = (2 * n)%Z ->
      PricingService.calculateCost_f64 model (2 * p) (2 * c)
      = (2 * PricingService.calculateCost_f64 model p c)%float).
Proof.
  intros Hm Hp Hc unrounded n n2.
  destruct (microdollars_twice model pricing p c Hm Hp Hc) as [Ty Ry].
  assert (Hp2 : (0 <= 2 * p < 2 ^ 32)%Z) by (change (2 ^ 32)%Z with (2 * 2 ^ 31)%Z; lia).
  change (microdollars (PricingService.Entry pricing) p c) with (unrounded p c) in *.
  change (microdollars (PricingService.Entry pricing) (2 * p) (2 * c))
    with (unrounded (2 * p)%Z (2 * c)%Z) in *.
  set (y := unrounded p c) in *. set (y2 := unrounded (2 * p)%Z (2 * c)%Z) in *.
  assert (Ry2 : Binary64Facts.ranged (-159) (-8) y2).
  { destruct Ry as [H|(m & e & H & He)]; unfold Binary64Facts.twice in Ty;
      rewrite H in Ty; [now left|].
    right. exists m, (e + 1)%Z. split; [exact Ty|lia]. }
  assert (Hcost : forall a b,
             PricingService.calculateCost_f64 model a b
             = (PricingService.Math_round_f64 (unrounded a b) / 1000000)%float).
  { intros a b. unfold PricingService.calculateCost_f64. now rewrite Hm. }
  assert (H2y : Prim2SF (2 * y) = Binary64Facts.dbl (Prim2SF y)).
  { apply (Binary64Facts.two_mul (-160) (-9)); [exact Ry| |];
      unfold SpecFloat.emin, emax, prec; lia. }
  assert (Hq : (Binary64.to_Q y2 == 2 * Binary64.to_Q y)%Q)
    by (apply (Binary64Facts.to_Q_twice (-160) (-9)); [exact Ry|exact Ty|lia]).
  destruct (Math_round_double (Binary64.to_Q y)) as [Hb Hiff].
  rewrite <- (Math_round_comp _ _ Hq) in Hb, Hiff.
  fold n in Hb, Hiff. fold n2 in Hb, Hiff.
  destruct (Binary64Facts.to_Q_bounds (-160) (-9) y 44 Ry) as [Hy0 Hy44];
    try (unfold SpecFloat.emin, emax, prec; lia).
  destruct (Math_round_bounds _ _ Hy0 Hy44) as [Hn0 Hn44]. fold n in Hn0, Hn44.
  split; [|split; [|split; [|split; [|split; [exact Hb|split; [exact Hiff|]]]]]].
  - unfold PricingService.calculateCost_f64. rewrite Hm.
    pose proof (table_entry model pricing Hm) as Hin.
    table_cases Hin; vm_compute; reflexivity.
  - apply Prim2SF_inj. rewrite H2y. exact Ty.
  - rewrite Hcost. change (unrounded p c) with y.
    now rewrite (Math_round_f64_ranged _ _ _ Ry).
  - rewrite Hcost. change (unrounded (2 * p)%Z (2 * c)%Z) with y2.
    now rewrite (Math_round_f64_ranged _ _ _ Ry2).
  - intros E. rewrite !Hcost.
    change (unrounded p c) with y. change (unrounded (2 * p)%Z (2 * c)%Z) with y2.
    rewrite (Math_round_f64_ranged _ _ _ Ry), (Math_round_f64_ranged _ _ _ Ry2).
    fold n. fold n2. rewrite E.
    assert (Hn : (0 <= n < 2 ^ 45)%Z)
      by (change (2 ^ 45)%Z with (2 * 2 ^ 44)%Z;
          assert (0 < 2 ^ 44)%Z by reflexivity; lia).
    destruct (Binary64Facts.of_Z_twice 45 n ltac:(lia) Hn) as [T1 R1].
    destruct (Binary64Facts.div_twice (-52) (45 - 52) (-33) (-33) _ _ _ _ _
                R1 million ltac:(lia) T1) as [T2 R2];
      try (unfold SpecFloat.emin, emax, prec; lia).
    apply Prim2SF_inj. rewrite T2. symmetry.
    apply (Binary64Facts.two_mul _ _ _ R2); unfold SpecFloat.emin, emax, prec; lia.
Qed.

Lemma calculateCost_doubling_witness :
  PricingService.getModelPricing "gpt-4o-mini"
  = Some (PricingService.Entry demo_pricing)
  /\ (0 <= 1000 < 2 ^ 31)%Z /\ (0 <= 500 < 2 ^ 31)%Z
  /\ PricingService.calculateCost_f64 "gpt-4o-mini" 0 0 = 0%float
  /\ PricingService.calculateCost_f64 "gpt-4o-mini" (2 * 1000) (2 * 500)
     = (2 * PricingService.calculateCost_f64 "gpt-4o-mini" 1000 500)%float.
Proof.
  assert (Hm : PricingService.getModelPricing "gpt-4o-mini"
               = Some (PricingService.Entry demo_pricing)) by reflexivity.
  assert (Hp : (0 <= 1000 < 2 ^ 31)%Z) by (split; [discriminate|reflexivity]).
  assert (Hc : (0 <= 500 < 2 ^ 31)%Z) by (split; [discriminate|reflexivity]).
  destruct (calculateCost_doubling "gpt-4o-mini" demo_pricing 1000 500 Hm Hp Hc)
    as (H0 & _ & _ & _ & _ & _ & H2).
  split; [exact Hm|]. split; [exact Hp|]. split; [exact Hc|].
  split; [exact H0|]. apply H2. vm_compute. reflexivity.
Defined.

(** One prompt token of [gpt-3.5-turbo] costs half a millionth of a dollar,
    which [Math.round] takes up to one millionth; two tokens cost one
    millionth. So the cost of the doubled counts is the cost itself, not
    twice the cost. *)
Lemma calculateCost_not_linear :
  PricingService.getModelPricing "gpt-3.5-turbo"
  = Some (PricingService.Entry {| PricingService.prompt := 0.50;
                                  PricingService.completion := 1.50 |})
  /\ PricingService.calculateCost_f64 "gpt-3.5-turbo" 1 0 = (1 / 1000000)%float
  /\ PricingService.calculateCost_f64 "gpt-3.5-turbo" (2 * 1) (2 * 0)
     = (1 / 1000000)%float
  /\ PrimFloat.eqb (PricingService.calculateCost_f64 "gpt-3.5-turbo" (2 * 1) (2 * 0))
                   (2 * PricingService.calculateCost_f64 "gpt-3.5-turbo" 1 0)%float
     = false.
Proof.
  split; [reflexivity|].
  split; [vm_compute; reflexivity|].
  split; vm_compute; reflexivity.
Qed.

(** Binary64 at half-way points. The products [27 * 1.5] and
    [1 * 0.15 + 6 * 0.6] are 40.5 and 3.75 in exact arithmetic; the code
    reaches them from below, so its costs are 40 and 4 millionths, and 7
    (not 8) millionths for the doubled counts of the second. *)
Example calculateCost_halfway :
  PricingService.calculateCost_f64 "gpt-3.5-turbo" 0 27 = (40 / 1000000)%float
  /\ PricingService.calculateCost_f64 "gpt-4o-mini" 1 6 = (4 / 1000000)%float
  /\ PricingService.calculateCost_f64 "gpt-4o-mini" 2 12 = (7 / 1000000)%float.
Proof. repeat split; vm_compute; reflexivity. Qed.

(** ** Alerts *)

Lemma scope_eqb_eq a b : Alerts.scope_eqb a b = true -> a = b.
Proof.
  destruct a, b; cbn; try discriminate; intros H;
    apply String.eqb_eq in H; now subst.
Qed.

Lemma collides_has_triple a b :
  Alerts.collides a b
  = Alerts.has_triple (Alerts.scope_of a) (Alerts.threshold_percent a)
                      (Alerts.month_year a) b.
Proof.
  unfold Alerts.collides, Alerts.has_triple, Alerts.scope_of.
  rewrite (Z.eqb_sym (Alerts.threshold_percent a)),
          (String.eqb_sym (Alerts.month_year a)).
  destruct (Alerts.project_id a), (Alerts.project_id b); cbn;
    try reflexivity; now rewrite String.eqb_sym.
Qed.

Lemma has_triple_inv s t m r :
  Alerts.has_triple s t m r = true ->
  Alerts.scope_of r = s /\ Alerts.threshold_percent r = t /\ Alerts.month_year r = m.
Proof.
  unfold Alerts.has_triple. intros H.
  apply andb_prop in H as [H Hm]. apply andb_prop in H as [Hs Ht].
  apply scope_eqb_eq in Hs. apply Z.eqb_eq in Ht. apply String.eqb_eq in Hm.
  auto.
Qed.

Lemma existsb_pointwise {A} (f g : A -> bool) l :
  (forall x, f x = g x) -> existsb f l = existsb g l.
Proof.
  intros E. induction l as [|x l IH]; cbn; [reflexivity|]. now rewrite E, IH.
Qed.

Lemma filter_none {A} (f : A -> bool) l :
  existsb f l = false -> filter f l = [].
Proof.
  induction l as [|x l IH]; cbn; [reflexivity|].
  intros H. apply orb_false_elim in H as [Hx Hl]. rewrite Hx. auto.
Qed.

(** The uniqueness constraint of the [alerts] table, as the spec counts
    it: at most one row per (scope, threshold, period). *)
Definition at_most_one_per_triple (table : list Alerts.row) : Prop :=
  forall s t m, (List.length (filter (Alerts.has_triple s t m) table) <= 1)%nat.

Lemma insert_at_most_one fault table r :
  at_most_one_per_triple table ->
  at_most_one_per_triple (fst (Alerts.insert fault table r)).
Proof.
  intros Inv. unfold Alerts.insert.
  destruct fault as [[c m'|m']|]; try exact Inv.
  destruct (existsb (Alerts.collides r) table) eqn:Hex; [exact Inv|].
  intros s t m. cbn [fst]. rewrite filter_app, length_app. cbn [filter].
  destruct (Alerts.has_triple s t m r) eqn:Hr; cbn [List.length].
  - apply has_triple_inv in Hr as (<- & <- & <-).
    rewrite (filter_none _ table); [cbn; lia|].
    rewrite <- Hex. apply existsb_pointwise. intros x.
    symmetry. apply collides_has_triple.
  - specialize (Inv s t m). lia.
Qed.

Lemma recordAlert_table now fault table p :
  exists r, fst (AlertService.recordAlert now fault table p)
            = fst (Alerts.insert fault table r)
            /\ Alerts.organization_id r = AlertService.organization_id p
            /\ Alerts.project_id r = AlertService.project_id p
            /\ Alerts.alert_level r = AlertService.alert_level p
            /\ Alerts.threshold_percent r = AlertService.threshold_percent p
            /\ Alerts.month_year r = String.substring 0 7 now.
Proof.
  unfold AlertService.recordAlert.
  match goal with
  | |- context [Alerts.insert fault table ?row] => exists row
  end.
  split; [|now cbn].
  destruct (Alerts.insert _ _ _) as [t [d|c m|m]]; cbn [fst]; try reflexivity.
  now destruct (c =? "23505").
Qed.

Lemma recordAlert_at_most_one now fault table p :
  at_most_one_per_triple table ->
  at_most_one_per_triple (fst (AlertService.recordAlert now fault table p)).
Proof.
  intros Inv. destruct (recordAlert_table now fault table p) as (r & -> & _).
  now apply insert_at_most_one.
Qed.

Lemma run_at_most_one calls : forall table,
  at_most_one_per_triple table ->
  at_most_one_per_triple (AlertService.run calls table).
Proof.
  induction calls as [|c calls IH]; intros table Inv; cbn; [exact Inv|].
  apply IH. now apply recordAlert_at_most_one.
Qed.

Definition params_scope (p : AlertService.params) : Alerts.scope :=
  match AlertService.project_id p with
  | None => Alerts.OrganizationScope (AlertService.organization_id p)
  | Some q => Alerts.ProjectScope q
  end.

(** C2. Whatever [recordAlert] calls are made (any parameters, clock
    readings and datastore faults), on a table that respects the uniqueness
    constraint there is afterwards at most one alert per (scope, threshold,
    period); and a call whose triple is already in the table returns
    success ([already_sent]) and leaves the table as it was. *)
Theorem alerts_at_most_one_per_triple :
  (forall calls table,
      at_most_one_per_triple table ->
      at_most_one_per_triple (AlertService.run calls table))
  /\ at_most_one_per_triple []
  /\ (forall now table p,
        existsb (Alerts.has_triple (params_scope p)
                   (AlertService.threshold_percent p) (String.substring 0 7 now))
                table = true ->
        AlertService.recordAlert now None table p = (table, AlertService.AlreadySent)
        /\ AlertService.success
             (snd (AlertService.recordAlert now None table p)) = true).
Proof.
  split; [exact run_at_most_one|].
  split; [intros s t m; cbn; lia|].
  intros now table p Hex.
  assert (E : AlertService.recordAlert now None table p
              = (table, AlertService.AlreadySent)).
  { unfold AlertService.recordAlert, Alerts.insert.
    match goal with
    | |- context [existsb (Alerts.collides ?row) table] =>
        replace (existsb (Alerts.collides row) table) with true
    end; [reflexivity|].
    rewrite <- Hex. apply existsb_pointwise. intros x.
    now rewrite collides_has_triple. }
  now rewrite E.
Qed.

Definition demo_now : string := "2026-01-15T10:00:00.000Z".

Definition demo_alert : AlertService.params :=
  {| AlertService.organization_id := "org-1";
     AlertService.project_id := None;
     AlertService.alert_level := "organization";
     AlertService.threshold_percent := 50;
     AlertService.budget_amount := 10;
     AlertService.actual_spend := 5.5 |}.

Definition demo_call : AlertService.call :=
  {| AlertService.call_now := demo_now;
     AlertService.call_fault := None;
     AlertService.call_params := demo_alert |}.

Lemma alerts_at_most_one_per_triple_witness :
  let table := AlertService.run [demo_call; demo_call] [] in
  List.length table = 1%nat
  /\ at_most_one_per_triple table
  /\ AlertService.recordAlert demo_now None table demo_alert
     = (table, AlertService.AlreadySent).
Proof.
  destruct alerts_at_most_one_per_triple as (H1 & H2 & H3).
  split; [reflexivity|]. split.
  - apply H1. exact H2.
  - apply H3. reflexivity.
Defined.

(** ** Budget thresholds *)

Lemma walk_calls ts now fault table e :
  forall p, In p (snd (BudgetService.walk ts now fault table e)) ->
  snd (BudgetService.walk ts now fault table e) = [p]
  /\ In (AlertService.threshold_percent p) ts
  /\ AlertService.organization_id p = BudgetService.organization_id e
  /\ AlertService.project_id p = BudgetService.project_id e
  /\ AlertService.alert_level p = BudgetService.alert_level e.
Proof.
  induction ts as [|t ts IH]; cbn [BudgetService.walk]; intros p Hp.
  - destruct Hp.
  - destruct (BudgetService.reached e t).
    + cbn [snd] in *. destruct Hp as [<-|[]]. cbn. auto.
    + destruct (IH p Hp) as (H1 & H2 & H3). repeat split; try tauto.
      now right.
Qed.

(** The row a [recordAlert] call tries to insert. *)
Definition alert_row (now : string) (p : AlertService.params) : Alerts.row :=
  {| Alerts.organization_id := AlertService.organization_id p;
     Alerts.project_id := AlertService.project_id p;
     Alerts.alert_level := AlertService.alert_level p;
     Alerts.threshold_percent := AlertService.threshold_percent p;
     Alerts.budget_amount := AlertService.budget_amount p;
     Alerts.actual_spend := AlertService.actual_spend p;
     Alerts.month_year := String.substring 0 7 now |}.








(** At an exact boundary the double can fall short of the quotient: a spend
    of 8.1 against a ceiling of 9 is 90 percent, [percentUsed] is
    89.99999999999999, and the alert is raised for 75. *)
Example percentUsed_below_exact_quotient :
  let e := {| BudgetService.organization_id := "org-1";
              BudgetService.project_id := None;
              BudgetService.alert_level := "organization";
              BudgetService.budget := 9;
              BudgetService.actual := 8.1 |} in
  (BudgetService.actual e / BudgetService.budget e * 100 == 90)%Q
  /\ BudgetService.reached e 90 = false
  /\ map AlertService.threshold_percent
         (snd (BudgetService.evaluateThresholds demo_now None [] e)) = [75%Z].
Proof. cbv zeta. split; [reflexivity|]. split; vm_compute; reflexivity. Qed.

(** A ceiling that is null (or absent) or zero. *)
Definition no_ceiling (b : option Q) : Prop :=
  match b with
  | None => True
  | Some q => (q == 0)%Q
  end.

Lemma positive_no_ceiling b : no_ceiling b -> BudgetService.positive b = None.
Proof.
  destruct b as [q|]; cbn; [|reflexivity]. intros E.
  destruct (Qle_bool q 0) eqn:H; [reflexivity|].
  apply not_true_iff_false in H. rewrite Qle_bool_iff in H.
  exfalso. apply H. rewrite E. apply Qle_refl.
Qed.

Lemma positive_gt0 b q : BudgetService.positive b = Some q -> b = Some q /\ (0 < q)%Q.
Proof.
  destruct b as [x|]; cbn; [|discriminate].
  destruct (Qle_bool x 0) eqn:H; [discriminate|]. intros [= <-].
  split; [reflexivity|].
  apply not_true_iff_false in H. rewrite Qle_bool_iff in H.
  now apply Qnot_le_lt.
Qed.

Lemma single_in {A} (rows : list A) r : BudgetService.single rows = Returns r -> rows = [r].
Proof. destruct rows as [|x [|y rows]]; cbn; congruence. Qed.

Lemma query_returns {A} fault (rows rows' : A) :
  BudgetService.query fault rows = Returns rows' -> rows' = rows.
Proof. destruct fault; cbn; congruence. Qed.

Lemma filter_singleton_in {A} (f : A -> bool) l x :
  filter f l = [x] -> In x l /\ f x = true.
Proof.
  intros H. apply filter_In. rewrite H. now left.
Qed.

Lemma getOrgBudget_row f c s organizationId b spend :
  BudgetService.getOrgBudget f c s organizationId = Returns (b, spend) ->
  exists o, In o (organizations s) /\ Organizations.id o = organizationId
            /\ Organizations.monthly_budget_usd o = b.
Proof.
  unfold BudgetService.getOrgBudget.
  destruct (BudgetService.query _ _) as [rows|] eqn:Hq; cbn [bind]; [|discriminate].
  destruct (BudgetService.single rows) as [org|] eqn:Hs; cbn [bind]; [|discriminate].
  destruct (BudgetService.calculateMTDSpend _ _ _ _ _); cbn [bind]; [|discriminate].
  intros [= <- _].
  apply query_returns in Hq. apply single_in in Hs. rewrite Hq in Hs.
  apply filter_singleton_in in Hs as [Hin Hid].
  apply String.eqb_eq in Hid. eauto.
Qed.

Lemma getProjectBudget_row f c s projectId b spend :
  BudgetService.getProjectBudget f c s projectId = Returns (b, spend) ->
  exists p, In p (projects s) /\ Projects.id p = projectId
            /\ Projects.monthly_budget_usd p = b.
Proof.
  unfold BudgetService.getProjectBudget.
  destruct (BudgetService.query _ _) as [rows|] eqn:Hq; cbn [bind]; [|discriminate].
  destruct (BudgetService.single rows) as [project|] eqn:Hs; cbn [bind]; [|discriminate].
  destruct (BudgetService.calculateMTDSpend _ _ _ _ _); cbn [bind]; [|discriminate].
  intros [= <- _].
  apply query_returns in Hq. apply single_in in Hs. rewrite Hq in Hs.
  apply filter_singleton_in in Hs as [Hin Hid].
  apply String.eqb_eq in Hid. eauto.
Qed.

Lemma insert_rows fault table r x :
  In x (fst (Alerts.insert fault table r)) -> In x table \/ x = r.
Proof.
  unfold Alerts.insert. destruct fault as [[? ?|?]|]; cbn [fst]; auto.
  destruct (existsb _ _); cbn [fst]; auto.
  intros H. apply in_app_or in H as [H|[H|[]]]; auto.
Qed.

Lemma walk_rows ts now fault table e x :
  In x (fst (BudgetService.walk ts now fault table e)) ->
  In x table \/ Alerts.project_id x = BudgetService.project_id e.
Proof.
  induction ts as [|t ts IH]; cbn [BudgetService.walk fst]; auto.
  destruct (BudgetService.reached _ _); [|exact IH].
  cbn [fst]. intros H.
  destruct (recordAlert_table now fault table
              {| AlertService.organization_id := BudgetService.organization_id e;
                 AlertService.project_id := BudgetService.project_id e;
                 AlertService.alert_level := BudgetService.alert_level e;
                 AlertService.threshold_percent := t;
                 AlertService.budget_amount := BudgetService.budget e;
                 AlertService.actual_spend := BudgetService.actual e |})
    as (r & E & _ & Hp & _).
  rewrite E in H. apply insert_rows in H as [H| ->]; auto.
Qed.

(** C10. When the organization (resp. the project) of a [checkBudgets]
    call has a ceiling that is null, absent or zero, the call performs no
    threshold evaluation for the organization (resp. the project) scope and
    adds no alert of that scope, whatever the month-to-date spend, the clock
    and the datastore's faults are. Every evaluation that is performed has a
    ceiling strictly above zero. *)
Theorem checkBudgets_skips_scope_without_ceiling
        (f : BudgetService.faults) (c : clock) (s : datastore)
        (organizationId projectId : string) :
  let after := fst (BudgetService.checkBudgets f c s organizationId projectId) in
  let trace := snd (BudgetService.checkBudgets f c s organizationId projectId) in
  ((forall o, In o (organizations s) -> Organizations.id o = organizationId ->
              no_ceiling (Organizations.monthly_budget_usd o)) ->
   (forall e calls, In (e, calls) trace ->
                    BudgetService.alert_level e = "project"
                    /\ BudgetService.project_id e = Some projectId)
   /\ (forall r, In r (alerts after) ->
                 In r (alerts s) \/ Alerts.project_id r = Some projectId))
  /\ ((forall p, In p (projects s) -> Projects.id p = projectId ->
                 no_ceiling (Projects.monthly_budget_usd p)) ->
      (forall e calls, In (e, calls) trace ->
                       BudgetService.alert_level e = "organization"
                       /\ BudgetService.project_id e = None)
      /\ (forall r, In r (alerts after) ->
                    In r (alerts s) \/ Alerts.project_id r = None))
  /\ (forall e calls, In (e, calls) trace -> (0 < BudgetService.budget e)%Q).
Proof.
  cbv zeta. unfold BudgetService.checkBudgets.
  destruct (BudgetService.getOrgBudget f c s organizationId)
    as [[orgBudget orgSpend]|err] eqn:Horg;
    [|cbn; repeat split; intros; (contradiction || auto)].
  apply getOrgBudget_row in Horg as (o & Ho & Hoid & Hob).
  destruct (BudgetService.positive orgBudget) as [ob|] eqn:Hopos.
  - (* the organization scope is evaluated *)
    destruct (BudgetService.evaluateThresholds _ _ (alerts s) _) as [a1 calls1] eqn:E1.
    assert (R1 : forall r, In r a1 -> In r (alerts s) \/ Alerts.project_id r = None).
    { intros r Hr. replace a1 with (fst (BudgetService.evaluateThresholds
        (now c) (BudgetService.org_alert_insert f) (alerts s)
        {| BudgetService.organization_id := organizationId;
           BudgetService.project_id := None;
           BudgetService.alert_level := "organization";
           BudgetService.budget := ob; BudgetService.actual := orgSpend |}))
        in Hr by now rewrite E1.
      now apply walk_rows in Hr. }
    destruct (positive_gt0 _ _ Hopos) as [Hsome Hgt].
    destruct (BudgetService.getProjectBudget f c _ projectId)
      as [[projectBudget projectSpend]|err] eqn:Hproj.
    + apply getProjectBudget_row in Hproj as (p & Hp & Hpid & Hpb). cbn in Hp.
      destruct (BudgetService.positive projectBudget) as [pb|] eqn:Hppos.
      * destruct (BudgetService.evaluateThresholds _ _ a1 _) as [a2 calls2] eqn:E2.
        destruct (positive_gt0 _ _ Hppos) as [Hpsome Hpgt].
        cbn. split; [|split].
        -- intros Hno. exfalso. specialize (Hno o Ho Hoid).
           rewrite Hob, Hsome in Hno. cbn in Hno. rewrite Hno in Hgt.
           now apply Qlt_irrefl in Hgt.
        -- intros Hno. exfalso. specialize (Hno p Hp Hpid).
           rewrite Hpb, Hpsome in Hno. cbn in Hno. rewrite Hno in Hpgt.
           now apply Qlt_irrefl in Hpgt.
        -- intros e calls [[= <- _]|[[= <- _]|[]]]; assumption.
      * cbn. split; [|split].
        -- intros Hno. exfalso. specialize (Hno o Ho Hoid).
           rewrite Hob, Hsome in Hno. cbn in Hno. rewrite Hno in Hgt.
           now apply Qlt_irrefl in Hgt.
        -- intros _. split; [|exact R1].
           intros e calls [[= <- _]|[]]. now cbn.
        -- intros e calls [[= <- _]|[]]. assumption.
    + cbn. split; [|split].
      * intros Hno. exfalso. specialize (Hno o Ho Hoid).
        rewrite Hob, Hsome in Hno. cbn in Hno. rewrite Hno in Hgt.
        now apply Qlt_irrefl in Hgt.
      * intros _. split; [|exact R1].
        intros e calls [[= <- _]|[]]. now cbn.
      * intros e calls [[= <- _]|[]]. assumption.
  - (* the organization scope is skipped *)
    destruct (BudgetService.getProjectBudget f c _ projectId)
      as [[projectBudget projectSpend]|err] eqn:Hproj;
      [|cbn; repeat split; intros; (contradiction || auto)].
    apply getProjectBudget_row in Hproj as (p & Hp & Hpid & Hpb). cbn in Hp.
    destruct (BudgetService.positive projectBudget) as [pb|] eqn:Hppos;
      [|cbn; repeat split; intros; (contradiction || auto)].
    destruct (BudgetService.evaluateThresholds _ _ (alerts s) _) as [a2 calls2] eqn:E2.
    destruct (positive_gt0 _ _ Hppos) as [Hpsome Hpgt].
    assert (R2 : forall r, In r a2 ->
                           In r (alerts s) \/ Alerts.project_id r = Some projectId).
    { intros r Hr. replace a2 with (fst (BudgetService.evaluateThresholds
        (now c) (BudgetService.project_alert_insert f) (alerts s)
        {| BudgetService.organization_id := organizationId;
           BudgetService.project_id := Some projectId;
           BudgetService.alert_level := "project";
           BudgetService.budget := pb; BudgetService.actual := projectSpend |}))
        in Hr by now rewrite E2.
      now apply walk_rows in Hr. }
    cbn. split; [|split].
    + intros _. split; [|exact R2].
      intros e calls [[= <- _]|[]]. now cbn.
    + intros Hno. exfalso. specialize (Hno p Hp Hpid).
      rewrite Hpb, Hpsome in Hno. cbn in Hno. rewrite Hno in Hpgt.
      now apply Qlt_irrefl in Hpgt.
    + intros e calls [[= <- _]|[]]. assumption.
Qed.

Definition demo_clock : clock :=
  {| now := demo_now; epoch := 1768471200000; startOfMonth := 1767225600000 |}.

Definition demo_usage (cost : Q) : UsageLogs.row :=
  {| UsageLogs.request_id := "req-1";
     UsageLogs.organization_id := "org-1";
     UsageLogs.project_id := "proj-1";
     UsageLogs.proxy_key_id := "key-1";
     UsageLogs.model := "gpt-4";
     UsageLogs.provider := "openai";
     UsageLogs.tokens_prompt := 1000;
     UsageLogs.tokens_completion := 1000;
     UsageLogs.cost_usd := cost;
     UsageLogs.price_prompt_per_million := Some 30%Q;
     UsageLogs.price_completion_per_million := Some 60%Q;
     UsageLogs.currency := "USD";
     UsageLogs.status := "success";
     UsageLogs.created_at := 1768000000000 |}.

(** An organization without a ceiling, a project with a ceiling of $10.00
    and $9.10 spent this month. *)
Definition demo_store : datastore :=
  {| organizations :=
       [ {| Organizations.id := "org-1";
            Organizations.openai_api_key := Some "sk-proj-legacy";
            Organizations.monthly_budget_usd := None |} ];
     projects :=
       [ {| Projects.id := "proj-1";
            Projects.organization_id := "org-1";
            Projects.monthly_budget_usd := Some 10%Q |} ];
     proxy_keys := [];
     usage_logs := [ demo_usage 5.5; demo_usage 3.6 ];
     alerts := [] |}.

Lemma checkBudgets_skips_scope_without_ceiling_witness :
  let result :=
    BudgetService.checkBudgets BudgetService.no_faults demo_clock demo_store
      "org-1" "proj-1" in
  (forall o, In o (organizations demo_store) -> Organizations.id o = "org-1" ->
             no_ceiling (Organizations.monthly_budget_usd o))
  /\ map (fun ev => (BudgetService.alert_level (fst ev),
                     map AlertService.threshold_percent (snd ev))) (snd result)
     = [("project", [90%Z])]
  /\ (forall e calls, In (e, calls) (snd result) ->
                      BudgetService.alert_level e = "project"
                      /\ BudgetService.project_id e = Some "proj-1")
  /\ (forall r, In r (alerts (fst result)) ->
                In r (alerts demo_store) \/ Alerts.project_id r = Some "proj-1").
Proof.
  assert (H : forall o, In o (organizations demo_store) ->
                        Organizations.id o = "org-1" ->
                        no_ceiling (Organizations.monthly_budget_usd o)).
  { intros o [<-|[]] _. exact I. }
  cbv zeta. split; [exact H|]. split; [vm_compute; reflexivity|].
  exact (proj1 (checkBudgets_skips_scope_without_ceiling
                  BudgetService.no_faults demo_clock demo_store "org-1" "proj-1") H).
Defined.

(** ** Proxy keys *)

Lemma verifyProxyKey_throws hmac secret fault table keyValue e :
  ProxyKeyService.verifyProxyKey hmac secret fault table keyValue = Throws e ->
  e = ProxyKeyService.AuthenticationFailure.
Proof.
  unfold ProxyKeyService.verifyProxyKey, rethrow, ProxyKeyService.AuthenticationFailure.
  destruct (ProxyKeyService.verifyProxyKey_try _ _ _ _ _); congruence.
Qed.

Lemma verifyProxyKey_fails_or_returns hmac secret fault table keyValue :
  (exists k, ProxyKeyService.verifyProxyKey hmac secret fault table keyValue = Returns k)
  \/ ProxyKeyService.verifyProxyKey hmac secret fault table keyValue
     = Throws ProxyKeyService.AuthenticationFailure.
Proof.
  destruct (ProxyKeyService.verifyProxyKey hmac secret fault table keyValue) eqn:E;
    [eauto|].
  right. f_equal. eapply verifyProxyKey_throws; eassumption.
Qed.

(** Whoever calls [proxyChatCompletion] with a key that does not verify
    gets that same error: no outbound call, no write. *)
Lemma proxyChatCompletion_unverified
      (aes : EncryptionService.Aead) hmac env stamp s proxyKey requestBody requestHeaders e :
  ProxyKeyService.verifyProxyKey hmac (OpenAIProxyService.PROXY_KEY_SECRET env)
    (OpenAIProxyService.proxy_keys_select env) (proxy_keys s) proxyKey = Throws e ->
  OpenAIProxyService.proxyChatCompletion hmac env stamp s proxyKey requestBody requestHeaders
  = (s, [], Throws ProxyKeyService.AuthenticationFailure).
Proof.
  intros H. pose proof (verifyProxyKey_throws _ _ _ _ _ _ H) as ->.
  unfold OpenAIProxyService.proxyChatCompletion, OpenAIProxyService.prepare.
  rewrite H. reflexivity.
Qed.

(** C4. Whenever [verifyProxyKey] does not return a credential, what it
    throws is the one generic error, [Invalid or revoked proxy key]. That is
    so when the lookup fails, when the server secret is missing, and when
    every stored key whose fingerprint equals that of the provided secret is
    inactive (in particular when none matches). [proxyChatCompletion]
    surfaces that same error to its caller. *)
Theorem verifyProxyKey_failure_is_generic
        (hmac : string -> string -> string) (secret : option string)
        (fault : option Db.fault) (table : list ProxyKeys.row) (keyValue : string) :
  let verify := ProxyKeyService.verifyProxyKey hmac secret fault table keyValue in
  (forall e, verify = Throws e -> e = Error "Invalid or revoked proxy key")
  /\ (fault <> None -> verify = Throws (Error "Invalid or revoked proxy key"))
  /\ ((forall keyHash,
          ProxyKeyService.hashKeyValue hmac secret keyValue = Returns keyHash ->
          forall k, In k table -> ProxyKeyService.matches keyHash k = true ->
                    ProxyKeys.is_active k = false) ->
      verify = Throws (Error "Invalid or revoked proxy key"))
  /\ (forall (aes : EncryptionService.Aead) env stamp s requestBody requestHeaders e,
         OpenAIProxyService.PROXY_KEY_SECRET env = secret ->
         OpenAIProxyService.proxy_keys_select env = fault ->
         proxy_keys s = table ->
         verify = Throws e ->
         OpenAIProxyService.proxyChatCompletion hmac env stamp s keyValue
           requestBody requestHeaders
         = (s, [], Throws (Error "Invalid or revoked proxy key"))).
Proof.
  cbv zeta. split; [|split; [|split]].
  - apply verifyProxyKey_throws.
  - intros Hfault.
    unfold ProxyKeyService.verifyProxyKey, ProxyKeyService.verifyProxyKey_try.
    destruct (ProxyKeyService.hashKeyValue hmac secret keyValue); [|reflexivity].
    cbn [bind]. destruct fault as [[? ?|?]|]; [reflexivity | reflexivity | congruence].
  - intros Hinactive.
    unfold ProxyKeyService.verifyProxyKey, ProxyKeyService.verifyProxyKey_try.
    destruct (ProxyKeyService.hashKeyValue hmac secret keyValue) as [keyHash|] eqn:Hh;
      [|reflexivity].
    cbn [bind]. destruct fault as [[? ?|?]|]; [reflexivity | reflexivity |].
    cbn [bind]. destruct (filter ProxyKeys.is_active table) as [|k0 ks] eqn:Hkeys;
      [reflexivity|].
    destruct (find (ProxyKeyService.matches keyHash) (k0 :: ks)) as [k|] eqn:Hfind;
      [|reflexivity].
    apply find_some in Hfind as [Hin Hmatch]. rewrite <- Hkeys in Hin.
    apply filter_In in Hin as [Hin Hactive].
    rewrite (Hinactive keyHash eq_refl k Hin Hmatch) in Hactive. discriminate.
  - intros aes env stamp s requestBody requestHeaders e <- <- <- H.
    eapply proxyChatCompletion_unverified; eassumption.
Qed.

(** A stand-in for HMAC-SHA256 that lets examples compute: the hex
    encoding of the secret followed by the message. *)
Definition toy_hmac (secret keyValue : string) : string :=
  Buffer.toString_hex (list_byte_of_string (secret ++ keyValue)).

Definition demo_key (active : bool) (revoked_at : option string) : ProxyKeys.row :=
  {| ProxyKeys.id := "key-1";
     ProxyKeys.organization_id := "org-1";
     ProxyKeys.project_id := "proj-1";
     ProxyKeys.key_value := toy_hmac "pepper" "sk-spendai-abc";
     ProxyKeys.name := "sk-****-abc";
     ProxyKeys.is_active := active;
     ProxyKeys.created_by := "user-1";
     ProxyKeys.revoked_at := revoked_at |}.

Lemma verifyProxyKey_failure_is_generic_witness :
  let table := [demo_key false (Some "2026-01-01T00:00:00.000Z")] in
  (forall keyHash,
      ProxyKeyService.hashKeyValue toy_hmac (Some "pepper") "sk-spendai-abc"
      = Returns keyHash ->
      forall k, In k table -> ProxyKeyService.matches keyHash k = true ->
                ProxyKeys.is_active k = false)
  /\ ProxyKeyService.matches (toy_hmac "pepper" "sk-spendai-abc")
       (demo_key false (Some "2026-01-01T00:00:00.000Z")) = true
  /\ ProxyKeyService.verifyProxyKey toy_hmac (Some "pepper") None table "sk-spendai-abc"
     = Throws (Error "Invalid or revoked proxy key")
  /\ ProxyKeyService.verifyProxyKey toy_hmac (Some "pepper")
       (Some (Db.Unreachable "fetch failed")) table "sk-spendai-abc"
     = Throws (Error "Invalid or revoked proxy key").
Proof.
  cbv zeta.
  assert (H : forall keyHash,
             ProxyKeyService.hashKeyValue toy_hmac (Some "pepper") "sk-spendai-abc"
             = Returns keyHash ->
             forall k, In k [demo_key false (Some "2026-01-01T00:00:00.000Z")] ->
                       ProxyKeyService.matches keyHash k = true ->
                       ProxyKeys.is_active k = false).
  { intros keyHash _ k [<-|[]] _. reflexivity. }
  split; [exact H|]. split; [vm_compute; reflexivity|]. split.
  - exact (proj1 (proj2 (proj2 (verifyProxyKey_failure_is_generic toy_hmac
             (Some "pepper") None
             [demo_key false (Some "2026-01-01T00:00:00.000Z")] "sk-spendai-abc"))) H).
  - apply (proj1 (proj2 (verifyProxyKey_failure_is_generic toy_hmac
             (Some "pepper") (Some (Db.Unreachable "fetch failed"))
             [demo_key false (Some "2026-01-01T00:00:00.000Z")] "sk-spendai-abc"))).
    discriminate.
Defined.

(** A credential is revoked in a table when the table has a row with its
    id and every such row is inactive. *)
Definition revoked_in (table : list ProxyKeys.row) (keyId : string) : Prop :=
  (exists k, In k table /\ ProxyKeys.id k = keyId)
  /\ forall k, In k table -> ProxyKeys.id k = keyId -> ProxyKeys.is_active k = false.

Definition revoke_row (now keyId organizationId : string) (r : ProxyKeys.row)
  : ProxyKeys.row :=
  if ProxyKeyService.targets keyId organizationId r
  then ProxyKeyService.revoked now r else r.

Lemma revoke_row_id now keyId organizationId r :
  ProxyKeys.id (revoke_row now keyId organizationId r) = ProxyKeys.id r.
Proof. unfold revoke_row. now destruct (ProxyKeyService.targets _ _ _). Qed.

Lemma revoke_row_inactive now keyId organizationId r :
  ProxyKeys.is_active r = false ->
  ProxyKeys.is_active (revoke_row now keyId organizationId r) = false.
Proof. unfold revoke_row. now destruct (ProxyKeyService.targets _ _ _). Qed.

Lemma revokeProxyKey_table now fault table keyId organizationId :
  fst (ProxyKeyService.revokeProxyKey now fault table keyId organizationId) = table
  \/ fst (ProxyKeyService.revokeProxyKey now fault table keyId organizationId)
     = map (revoke_row now keyId organizationId) table.
Proof.
  unfold ProxyKeyService.revokeProxyKey.
  destruct fault as [[? ?|?]|]; auto.
  destruct (filter _ table) as [|k [|k' ks]]; auto.
Qed.

Lemma createProxyKey_table hmac secret rb new_id fault table o p u n :
  fst (ProxyKeyService.createProxyKey hmac secret rb new_id fault table o p u n) = table
  \/ exists r,
       fst (ProxyKeyService.createProxyKey hmac secret rb new_id fault table o p u n)
       = (table ++ [r])%list
       /\ ProxyKeys.id r = new_id
       /\ ProxyKeys.is_active r = true
       /\ ProxyKeys.revoked_at r = None
       /\ forall k, In k table -> ProxyKeys.id k <> new_id.
Proof.
  unfold ProxyKeyService.createProxyKey.
  destruct (ProxyKeyService.hashKeyValue hmac secret _) as [keyHash|]; auto.
  destruct fault as [[? ?|?]|]; auto.
  destruct (existsb _ table) eqn:Hex; auto.
  right. eexists. split; [reflexivity|]. cbn. repeat split.
  intros k Hk Hid.
  assert (existsb (fun k0 => (ProxyKeys.id k0 =? new_id)
                             || (ProxyKeys.key_value k0 =? keyHash)) table = true).
  { apply existsb_exists. exists k. split; [exact Hk|].
    apply orb_true_intro. left. now apply String.eqb_eq. }
  congruence.
Qed.

Lemma step_revoked_in hmac secret table op keyId :
  revoked_in table keyId ->
  revoked_in (ProxyKeyService.step hmac secret table op) keyId.
Proof.
  intros [[k0 [Hin0 Hid0]] Hall]. destruct op as [rb i f o p u n|t f k o]; cbn.
  - destruct (createProxyKey_table hmac secret rb i f table o p u n)
      as [->|(r & -> & Hid & _ & _ & Hfresh)].
    + split; eauto.
    + split.
      * exists k0. split; [apply in_or_app; now left | exact Hid0].
      * intros x Hx Hxid. apply in_app_or in Hx as [Hx|[<-|[]]]; [now apply Hall|].
        exfalso. apply (Hfresh k0 Hin0). congruence.
  - destruct (revokeProxyKey_table t f table k o) as [->| ->].
    + split; eauto.
    + split.
      * exists (revoke_row t k o k0). split; [now apply in_map|].
        now rewrite revoke_row_id.
      * intros x Hx Hxid. apply in_map_iff in Hx as (y & <- & Hy).
        rewrite revoke_row_id in Hxid. apply revoke_row_inactive. now apply Hall.
Qed.

Lemma run_revoked_in hmac secret ops : forall table keyId,
  revoked_in table keyId ->
  revoked_in (ProxyKeyService.run hmac secret ops table) keyId.
Proof.
  unfold ProxyKeyService.run.
  induction ops as [|op ops IH]; intros table keyId H; cbn; [exact H|].
  apply IH. now apply step_revoked_in.
Qed.

Lemma map_injective_on {A B} (f : A -> B) l a b :
  NoDup (map f l) -> In a l -> In b l -> f a = f b -> a = b.
Proof.
  induction l as [|x l IH]; cbn; [tauto|].
  intros Hnd Ha Hb E. inversion Hnd as [|? ? Hnotin Hnd']; subst.
  destruct Ha as [->|Ha], Hb as [->|Hb]; auto.
  - exfalso. apply Hnotin. rewrite E. now apply in_map.
  - exfalso. apply Hnotin. rewrite <- E. now apply in_map.
Qed.

Lemma map_revoke_row_ids now keyId organizationId table :
  map ProxyKeys.id (map (revoke_row now keyId organizationId) table)
  = map ProxyKeys.id table.
Proof.
  rewrite map_map. apply map_ext. intros r. apply revoke_row_id.
Qed.

(** The primary key of [proxy_keys] stays unique. *)
Lemma step_primary_key hmac secret table op :
  NoDup (map ProxyKeys.id table) ->
  NoDup (map ProxyKeys.id (ProxyKeyService.step hmac secret table op)).
Proof.
  intros Hnd. destruct op as [rb i f o p u n|t f k o]; cbn.
  - destruct (createProxyKey_table hmac secret rb i f table o p u n)
      as [->|(r & -> & Hid & _ & _ & Hfresh)]; [exact Hnd|].
    rewrite map_app. cbn [map].
    apply (NoDup_Add (a := ProxyKeys.id r) (l := map ProxyKeys.id table)).
    + rewrite <- (app_nil_r (map ProxyKeys.id table)) at 1. apply Add_app.
    + split; [exact Hnd|]. intros Hin. apply in_map_iff in Hin as (y & Hy & Hin).
      apply (Hfresh y Hin). congruence.
  - destruct (revokeProxyKey_table t f table k o) as [->| ->]; [exact Hnd|].
    now rewrite map_revoke_row_ids.
Qed.

Lemma run_primary_key hmac secret ops : forall table,
  NoDup (map ProxyKeys.id table) ->
  NoDup (map ProxyKeys.id (ProxyKeyService.run hmac secret ops table)).
Proof.
  unfold ProxyKeyService.run.
  induction ops as [|op ops IH]; intros table H; cbn; [exact H|].
  apply IH. now apply step_primary_key.
Qed.

(** C6, as the code has it. On a table whose ids are unique (the primary
    key, which every sequence of operations preserves), a successful
    [revokeProxyKey] leaves the credential with [is_active = false] and
    [revoked_at] set to the time of the call. Once a credential is revoked,
    no sequence of [createProxyKey] and [revokeProxyKey] calls makes it
    active again. Revoking a revoked credential succeeds again and keeps it
    inactive, with every other column as it was; [revoked_at] is set to the
    time of this later call. *)
Theorem revocation_is_one_way :
  (forall now table keyId organizationId table' k,
      NoDup (map ProxyKeys.id table) ->
      ProxyKeyService.revokeProxyKey now None table keyId organizationId
      = (table', Returns k) ->
      ProxyKeys.id k = keyId
      /\ ProxyKeys.is_active k = false
      /\ ProxyKeys.revoked_at k = Some now
      /\ In k table'
      /\ revoked_in table' keyId)
  /\ (forall hmac secret ops table keyId,
         revoked_in table keyId ->
         revoked_in (ProxyKeyService.run hmac secret ops table) keyId)
  /\ (forall hmac secret ops,
         NoDup (map ProxyKeys.id (ProxyKeyService.run hmac secret ops [])))
  /\ (forall now' table keyId organizationId k,
         filter (ProxyKeyService.targets keyId organizationId) table = [k] ->
         ProxyKeys.is_active k = false ->
         exists k',
           ProxyKeyService.revokeProxyKey now' None table keyId organizationId
           = (map (revoke_row now' keyId organizationId) table, Returns k')
           /\ ProxyKeys.is_active k' = false
           /\ ProxyKeys.revoked_at k' = Some now'
           /\ ProxyKeys.id k' = ProxyKeys.id k
           /\ ProxyKeys.organization_id k' = ProxyKeys.organization_id k
           /\ ProxyKeys.project_id k' = ProxyKeys.project_id k
           /\ ProxyKeys.key_value k' = ProxyKeys.key_value k
           /\ ProxyKeys.name k' = ProxyKeys.name k
           /\ ProxyKeys.created_by k' = ProxyKeys.created_by k).
Proof.
  split; [|split; [|split]].
  - intros now table keyId organizationId table' k Hnd.
    unfold ProxyKeyService.revokeProxyKey.
    destruct (filter _ table) as [|k0 [|k1 ks]] eqn:Hf; try discriminate.
    intros [= <- <-].
    apply filter_singleton_in in Hf as [Hin Ht].
    assert (Hid : ProxyKeys.id k0 = keyId).
    { unfold ProxyKeyService.targets in Ht. apply andb_prop in Ht as [Ht _].
      now apply String.eqb_eq. }
    assert (Hk : In (ProxyKeyService.revoked now k0)
                    (map (revoke_row now keyId organizationId) table)).
    { apply in_map_iff. exists k0. split; [|exact Hin].
      unfold revoke_row. now rewrite Ht. }
    repeat split; try assumption.
    + exists (ProxyKeyService.revoked now k0). split; [exact Hk | exact Hid].
    + intros x Hx Hxid. apply in_map_iff in Hx as (y & <- & Hy).
      change (ProxyKeys.id (revoke_row now keyId organizationId y) = keyId) in Hxid.
      rewrite revoke_row_id in Hxid.
      assert (y = k0) as ->
          by (apply (map_injective_on ProxyKeys.id table); congruence).
      now rewrite Ht.
  - exact run_revoked_in.
  - intros hmac secret ops. apply run_primary_key. constructor.
  - intros now' table keyId organizationId k Hf Hinactive.
    exists (ProxyKeyService.revoked now' k).
    unfold ProxyKeyService.revokeProxyKey. rewrite Hf.
    repeat split.
Qed.

Lemma revocation_is_one_way_witness :
  let active := demo_key true None in
  let first := "2026-01-01T00:00:00.000Z" in
  let later := "2026-02-01T00:00:00.000Z" in
  NoDup (map ProxyKeys.id [active])
  /\ ProxyKeyService.revokeProxyKey first None [active] "key-1" "org-1"
     = ([demo_key false (Some first)], Returns (demo_key false (Some first)))
  /\ revoked_in [demo_key false (Some first)] "key-1"
  /\ revoked_in
       (ProxyKeyService.run toy_hmac (Some "pepper")
          [ProxyKeyService.Revoke later None "key-1" "org-1";
           ProxyKeyService.Create [] "key-1" None "org-1" "proj-1" "user-1" "again"]
          [demo_key false (Some first)]) "key-1"
  /\ exists k',
       ProxyKeyService.revokeProxyKey later None [demo_key false (Some first)]
         "key-1" "org-1"
       = (map (revoke_row later "key-1" "org-1") [demo_key false (Some first)],
          Returns k')
       /\ ProxyKeys.is_active k' = false
       /\ ProxyKeys.revoked_at k' = Some later.
Proof.
  cbv zeta.
  destruct revocation_is_one_way as (H1 & H2 & _ & H4).
  assert (Hnd : NoDup (map ProxyKeys.id [demo_key true None])).
  { cbn. constructor; [intros []|constructor]. }
  assert (Hrun : ProxyKeyService.revokeProxyKey "2026-01-01T00:00:00.000Z" None
                   [demo_key true None] "key-1" "org-1"
                 = ([demo_key false (Some "2026-01-01T00:00:00.000Z")],
                    Returns (demo_key false (Some "2026-01-01T00:00:00.000Z"))))
    by reflexivity.
  pose proof (H1 _ _ _ _ _ _ Hnd Hrun) as (_ & _ & _ & _ & Hrev).
  split; [exact Hnd|]. split; [exact Hrun|]. split; [exact Hrev|].
  split; [apply H2; exact Hrev|].
  destruct (H4 "2026-02-01T00:00:00.000Z"
              [demo_key false (Some "2026-01-01T00:00:00.000Z")] "key-1" "org-1"
              (demo_key false (Some "2026-01-01T00:00:00.000Z")) eq_refl eq_refl)
    as (k' & E & Ha & Hr & _).
  exists k'. auto.
Defined.

(** Revoking a revoked credential again is not a no-op: [revoked_at] moves
    to the time of the second call. *)
Lemma revoke_again_overwrites_revoked_at :
  let revoked := demo_key false (Some "2026-01-01T00:00:00.000Z") in
  let again :=
    ProxyKeyService.revokeProxyKey "2026-02-01T00:00:00.000Z" None [revoked]
      "key-1" "org-1" in
  ProxyKeys.is_active revoked = false
  /\ again = ([demo_key false (Some "2026-02-01T00:00:00.000Z")],
              Returns (demo_key false (Some "2026-02-01T00:00:00.000Z")))
  /\ fst again <> [revoked]
  /\ map ProxyKeys.revoked_at (fst again) <> map ProxyKeys.revoked_at [revoked].
Proof. cbv zeta. repeat split; cbn; discriminate. Qed.

(** ** The proxy *)

Definition with_ledger (env : OpenAIProxyService.environment)
           (l : UsageLoggingService.faults) : OpenAIProxyService.environment :=
  {| OpenAIProxyService.PROXY_KEY_SECRET := OpenAIProxyService.PROXY_KEY_SECRET env;
     OpenAIProxyService.OPENAI_KEY_ENCRYPTION_SECRET :=
       OpenAIProxyService.OPENAI_KEY_ENCRYPTION_SECRET env;
     OpenAIProxyService.randomUUID := OpenAIProxyService.randomUUID env;
     OpenAIProxyService.time := OpenAIProxyService.time env;
     OpenAIProxyService.transport := OpenAIProxyService.transport env;
     OpenAIProxyService.proxy_keys_select := OpenAIProxyService.proxy_keys_select env;
     OpenAIProxyService.organizations_select :=
       OpenAIProxyService.organizations_select env;
     OpenAIProxyService.ledger := l |}.

(** The fields of the returned object that do not depend on when it was
    built: status, body, headers and trace identifier. *)
Definition passthrough (r : OpenAIProxyService.result)
  : bool * Z * response_body * list (string * string) * string :=
  (OpenAIProxyService.success r,
   OpenAIProxyService.statusCode r,
   OpenAIProxyService.response r,
   OpenAIProxyService.headers r,
   OpenAIProxyService.spendai_request_id (OpenAIProxyService.meta r)).

(** C1. Once the upstream has answered, the value [proxyChatCompletion]
    returns does not depend on what happens to the ledger write: for any two
    behaviours of the datastore during the write (success, rejection,
    thrown error) the call returns, never throws, and returns the same
    object; its status, body, headers and trace identifier are those of the
    upstream response, whenever the object is built. *)
Theorem ledger_failure_never_alters_response
        (aes : EncryptionService.Aead) (hmac : string -> string -> string)
        (env : OpenAIProxyService.environment) (s : datastore)
        (proxyKey : string) (requestBody : OpenAIProxyService.request_body)
        (requestHeaders : list (string * string))
        (key : ProxyKeyService.key_info) (call : OpenAIProxyService.outbound)
        (upstream : http_response) :
  OpenAIProxyService.prepare hmac env s proxyKey requestBody requestHeaders
  = Returns (key, call) ->
  OpenAIProxyService.axios_post env call = Returns upstream ->
  (forall ledger1 ledger2 stamp,
      snd (OpenAIProxyService.proxyChatCompletion hmac (with_ledger env ledger1)
             stamp s proxyKey requestBody requestHeaders)
      = snd (OpenAIProxyService.proxyChatCompletion hmac (with_ledger env ledger2)
               stamp s proxyKey requestBody requestHeaders))
  /\ (forall ledger stamp,
         exists r,
           snd (OpenAIProxyService.proxyChatCompletion hmac (with_ledger env ledger)
                  stamp s proxyKey requestBody requestHeaders)
           = Returns r
           /\ passthrough r
              = (true, status upstream, data upstream, Js.headers upstream,
                 OpenAIProxyService.randomUUID env)).
Proof.
  intros Hprep Hpost.
  assert (P : forall l,
             OpenAIProxyService.prepare hmac (with_ledger env l) s proxyKey
               requestBody requestHeaders = Returns (key, call))
    by (intros l; exact Hprep).
  assert (A : forall l,
             OpenAIProxyService.axios_post (with_ledger env l) call = Returns upstream)
    by (intros l; exact Hpost).
  split.
  - intros ledger1 ledger2 stamp.
    unfold OpenAIProxyService.proxyChatCompletion.
    now rewrite !P, !A.
  - intros ledger stamp.
    unfold OpenAIProxyService.proxyChatCompletion.
    rewrite P, A. cbn [snd]. eexists. split; reflexivity.
Qed.

Definition demo_body : response_body :=
  {| payload := "chatcmpl-1";
     body_model := Some "gpt-4";
     body_usage := Some {| prompt_tokens := Num 1000;
                           completion_tokens := Num 1000;
                           total_tokens := Num 2000 |} |}.

Definition demo_upstream : http_response :=
  {| status := 200; data := demo_body; Js.headers := [("x-request-id", "req_abc123")] |}.

Definition healthy_ledger : UsageLoggingService.faults :=
  {| UsageLoggingService.usage_insert := None;
     UsageLoggingService.budget_faults := BudgetService.no_faults |}.

Definition failing_ledger : UsageLoggingService.faults :=
  {| UsageLoggingService.usage_insert := Some (Db.Rejected "08006" "connection failure");
     UsageLoggingService.budget_faults := BudgetService.no_faults |}.

Definition demo_env : OpenAIProxyService.environment :=
  {| OpenAIProxyService.PROXY_KEY_SECRET := Some "pepper";
     OpenAIProxyService.OPENAI_KEY_ENCRYPTION_SECRET := Some demo_master_secret;
     OpenAIProxyService.randomUUID := "550e8400-e29b-41d4-a716-446655440000";
     OpenAIProxyService.time := demo_clock;
     OpenAIProxyService.transport := fun _ _ _ => inl demo_upstream;
     OpenAIProxyService.proxy_keys_select := None;
     OpenAIProxyService.organizations_select := None;
     OpenAIProxyService.ledger := healthy_ledger |}.

Definition demo_proxy_store : datastore :=
  {| organizations := organizations demo_store;
     projects := projects demo_store;
     proxy_keys := [demo_key true None];
     usage_logs := [];
     alerts := [] |}.

Definition demo_request : OpenAIProxyService.request_body :=
  {| OpenAIProxyService.model := Str "gpt-4"; OpenAIProxyService.messages := Obj |}.

Lemma ledger_failure_never_alters_response_witness :
  let run ledger :=
    OpenAIProxyService.proxyChatCompletion (aes := EncryptionService.toy_aead)
      toy_hmac (with_ledger demo_env ledger) demo_now demo_proxy_store
      "sk-spendai-abc" demo_request [] in
  (* the ledger write of the failing run throws, that of the healthy one
     appends a row *)
  snd (UsageLoggingService.logFromOpenAIResponse failing_ledger demo_clock
         demo_proxy_store
         {| UsageLoggingService.request_id := "550e8400-e29b-41d4-a716-446655440000";
            UsageLoggingService.organization_id := "org-1";
            UsageLoggingService.project_id := "proj-1";
            UsageLoggingService.proxy_key_id := "key-1" |}
         demo_body)
  = Throws (Error "Failed to log usage: connection failure")
  /\ usage_logs (fst (fst (run failing_ledger))) = []
  /\ List.length (usage_logs (fst (fst (run healthy_ledger)))) = 1%nat
  /\ snd (run failing_ledger) = snd (run healthy_ledger)
  /\ exists r,
       snd (run failing_ledger) = Returns r
       /\ passthrough r
          = (true, 200%Z, demo_body, [("x-request-id", "req_abc123")],
             "550e8400-e29b-41d4-a716-446655440000").
Proof.
  cbv zeta.
  pose proof (ledger_failure_never_alters_response EncryptionService.toy_aead
                toy_hmac demo_env demo_proxy_store "sk-spendai-abc" demo_request []
                _ _ _ eq_refl eq_refl) as [H1 H2].
  split; [vm_compute; reflexivity|].
  split; [vm_compute; reflexivity|].
  split; [vm_compute; reflexivity|].
  split; [apply H1|].
  apply H2.
Defined.

Definition allowlisted (v : Js.value) : bool :=
  match v with
  | Str m => OpenAIProxyService.list_includes OpenAIProxyService.getSupportedModels m
  | _ => false
  end.

(** The message of the validation error, by the kind of value rejected. *)
Definition rejection_message (v : Js.value) : string :=
  match v with
  | Str m =>
      if m =? "" then "model is required"
      else "Unsupported model: " ++ m ++ ". Supported models: "
           ++ join ", " OpenAIProxyService.getSupportedModels
  | _ => "model is required"
  end.

Lemma validateModel_rejects v :
  allowlisted v = false ->
  OpenAIProxyService.validateModel v = OpenAIProxyService.Invalid (rejection_message v).
Proof.
  destruct v as [| |b|n|m|]; try reflexivity.
  unfold allowlisted, OpenAIProxyService.validateModel, rejection_message.
  intros ->. now destruct (m =? "").
Qed.

Lemma validateModel_accepts v :
  allowlisted v = true -> OpenAIProxyService.validateModel v = OpenAIProxyService.Valid.
Proof.
  destruct v as [| |b|n|m|]; try discriminate.
  unfold allowlisted, OpenAIProxyService.validateModel.
  intros H. rewrite H. destruct (m =? "") eqn:E; [|reflexivity].
  apply String.eqb_eq in E. subst m. discriminate.
Qed.

(** C7, as the code has it. For every request with a verified credential
    whose model is not in the allowlist, [proxyChatCompletion] throws a
    validation error (code [INVALID_MODEL]) without any outbound call and
    with the datastore, hence the usage ledger, untouched. When the model is a
    non-empty string the message names it and the allowed set; when it is
    missing, empty or not a string the message is [model is required]. *)
Theorem unsupported_model_rejected_before_forwarding
        (aes : EncryptionService.Aead) (hmac : string -> string -> string)
        (env : OpenAIProxyService.environment) (stamp : string) (s : datastore)
        (proxyKey : string) (requestBody : OpenAIProxyService.request_body)
        (requestHeaders : list (string * string)) (key : ProxyKeyService.key_info) :
  ProxyKeyService.verifyProxyKey hmac (OpenAIProxyService.PROXY_KEY_SECRET env)
    (OpenAIProxyService.proxy_keys_select env) (proxy_keys s) proxyKey = Returns key ->
  allowlisted (OpenAIProxyService.model requestBody) = false ->
  exists msg,
    OpenAIProxyService.proxyChatCompletion hmac env stamp s proxyKey
      requestBody requestHeaders
    = (s, [], Throws {| message := msg; code := Some "INVALID_MODEL";
                        Js.response := None |})
    /\ (forall m, OpenAIProxyService.model requestBody = Str m -> m <> "" ->
                  msg = "Unsupported model: " ++ m ++ ". Supported models: "
                        ++ join ", " OpenAIProxyService.getSupportedModels)
    /\ ((forall m, OpenAIProxyService.model requestBody = Str m -> m = "") ->
        msg = "model is required").
Proof.
  intros Hkey Hmodel.
  exists (rejection_message (OpenAIProxyService.model requestBody)).
  split; [|split].
  - unfold OpenAIProxyService.proxyChatCompletion, OpenAIProxyService.prepare.
    rewrite Hkey. cbn [bind].
    now rewrite (validateModel_rejects _ Hmodel).
  - intros m -> Hne. cbn. now rewrite (eqb_empty_false _ Hne).
  - intros Hempty. destruct (OpenAIProxyService.model requestBody) as [| |b|n|m|];
      try reflexivity.
    now rewrite (Hempty m eq_refl).
Qed.

Lemma unsupported_model_rejected_before_forwarding_witness :
  let body := {| OpenAIProxyService.model := Str "gpt-5-nonexistent";
                 OpenAIProxyService.messages := Obj |} in
  allowlisted (OpenAIProxyService.model body) = false
  /\ exists msg,
       OpenAIProxyService.proxyChatCompletion (aes := EncryptionService.toy_aead)
         toy_hmac demo_env demo_now demo_proxy_store "sk-spendai-abc" body []
       = (demo_proxy_store, [],
          Throws {| message := msg; code := Some "INVALID_MODEL"; Js.response := None |})
       /\ msg = "Unsupported model: gpt-5-nonexistent. Supported models: gpt-3.5-turbo, gpt-3.5-turbo-0125, gpt-3.5-turbo-1106, gpt-4, gpt-4-0613, gpt-4-turbo, gpt-4-turbo-preview, gpt-4o, gpt-4o-mini".
Proof.
  cbv zeta. split; [reflexivity|].
  destruct (unsupported_model_rejected_before_forwarding EncryptionService.toy_aead
              toy_hmac demo_env demo_now demo_proxy_store "sk-spendai-abc"
              {| OpenAIProxyService.model := Str "gpt-5-nonexistent";
                 OpenAIProxyService.messages := Obj |} []
              _ eq_refl eq_refl) as (msg & Hrun & Hnamed & _).
  exists msg. split; [exact Hrun|].
  apply (Hnamed "gpt-5-nonexistent" eq_refl). discriminate.
Defined.

(** A model that is not a string, such as the number 5, passes the route's
    check of the body ([!body.model] is false) and is not in the allowlist;
    the error it gets names neither the value nor the allowed set. *)
Lemma non_string_model_error_names_nothing :
  let body := {| OpenAIProxyService.model := Num 5;
                 OpenAIProxyService.messages := Obj |} in
  truthy (OpenAIProxyService.model body) = true
  /\ allowlisted (OpenAIProxyService.model body) = false
  /\ OpenAIProxyService.proxyChatCompletion (aes := EncryptionService.toy_aead)
       toy_hmac demo_env demo_now demo_proxy_store "sk-spendai-abc" body []
     = (demo_proxy_store, [],
        Throws {| message := "model is required"; code := Some "INVALID_MODEL";
                  Js.response := None |})
  /\ includes (join ", " OpenAIProxyService.getSupportedModels) "model is required"
     = false
  /\ includes "5" "model is required" = false.
Proof. cbv zeta. repeat split; vm_compute; reflexivity. Qed.

(** * Further properties of the services *)

(** ** Outbound headers and the bearer token *)

(** X1. Whatever the inbound headers are, the outbound [Authorization]
    header is [Bearer] followed by the organization's key, the content type
    is JSON, and nothing but [Accept] and [User-Agent] is carried over, each
    with the value of the inbound header of that name. *)
Theorem buildForwardHeaders_whitelist
        (requestHeaders : list (string * string)) (openaiApiKey : string) :
  let out := OpenAIProxyService.buildForwardHeaders requestHeaders openaiApiKey in
  OpenAIProxyService.header_value out "Authorization" = Some ("Bearer " ++ openaiApiKey)
  /\ OpenAIProxyService.header_value out "Content-Type" = Some "application/json"
  /\ (forall name v, In (name, v) out ->
        (name = "Content-Type" /\ v = "application/json")
        \/ (name = "Authorization" /\ v = "Bearer " ++ openaiApiKey)
        \/ (name = "Accept" /\ v <> ""
            /\ OpenAIProxyService.header_value requestHeaders "accept" = Some v)
        \/ (name = "User-Agent" /\ v <> ""
            /\ OpenAIProxyService.header_value requestHeaders "user-agent" = Some v)).
Proof.
  cbv zeta. unfold OpenAIProxyService.buildForwardHeaders. cbn [fold_left].
  change (join "-" (map OpenAIProxyService.capitalize (split "-" "accept")))
    with "Accept".
  change (join "-" (map OpenAIProxyService.capitalize (split "-" "user-agent")))
    with "User-Agent".
  destruct (OpenAIProxyService.header_value requestHeaders "accept") as [a|] eqn:Ha;
    destruct (OpenAIProxyService.header_value requestHeaders "user-agent") as [u|] eqn:Hu;
    try (destruct (a =? "") eqn:Ea); try (destruct (u =? "") eqn:Eu);
    repeat match goal with
           | H : (_ =? "") = false |- _ => apply String.eqb_neq in H
           end;
    (split; [reflexivity|]); (split; [reflexivity|]);
    intros name v Hin; cbn in Hin;
    repeat match goal with
           | H : _ \/ _ |- _ => destruct H
           | H : (_, _) = (_, _) |- _ => injection H as <- <-
           | H : False |- _ => destruct H
           end; tauto.
Qed.

Lemma substring_all s : String.substring 0 (String.length s) s = s.
Proof. induction s as [|c s IH]; cbn; [reflexivity | now rewrite IH]. Qed.

Lemma prefix_split a : forall s,
  String.prefix a s = true ->
  s = a ++ String.substring (String.length a) (String.length s - String.length a) s.
Proof.
  induction a as [|c a IH]; intros s H.
  - cbn. rewrite Nat.sub_0_r. now rewrite substring_all.
  - destruct s as [|d s]; [discriminate|]. cbn in H.
    destruct (ascii_dec c d) as [<-|]; [|discriminate].
    cbn. f_equal. now apply IH.
Qed.

Lemma prefix_append a s : String.prefix a (a ++ s) = true.
Proof.
  induction a as [|c a IH]; cbn; [now destruct s|].
  destruct (ascii_dec c c); [exact IH | congruence].
Qed.

(** X2. [extractBearerToken] gives back exactly what follows [Bearer ] in
    the header: a header [Bearer t] yields [t], and whenever a token [t] is
    returned the header was [Bearer t]; a missing header yields nothing. *)
Theorem extractBearerToken_spec :
  (forall t, OpenAIProxyService.extractBearerToken (Some ("Bearer " ++ t)) = Some t)
  /\ (forall h t, OpenAIProxyService.extractBearerToken h = Some t ->
                  h = Some ("Bearer " ++ t))
  /\ OpenAIProxyService.extractBearerToken None = None.
Proof.
  split; [|split; [|reflexivity]].
  - intros t. unfold OpenAIProxyService.extractBearerToken.
    rewrite prefix_append. f_equal. cbn. rewrite Nat.sub_0_r. apply substring_all.
  - intros [h|] t; [|discriminate]. unfold OpenAIProxyService.extractBearerToken.
    destruct (String.prefix "Bearer " h) eqn:Hp; [|discriminate].
    intros [= <-]. f_equal. exact (prefix_split "Bearer " h Hp).
Qed.

(** ** More on pricing *)

Lemma Math_round_monotone x y :
  (x <= y)%Q -> (PricingService.Math_round x <= PricingService.Math_round y)%Z.
Proof.
  intros H. unfold PricingService.Math_round. apply Qfloor_resp_le. lra.
Qed.

Lemma find_key {V} (table : list (string * V)) (m : string) :
  In m (map fst table) ->
  exists v, find (fun entry => fst entry =? m) table = Some (m, v).
Proof.
  induction table as [|[k v] table IH]; cbn; [tauto|].
  destruct (k =? m) eqn:E.
  - apply String.eqb_eq in E. subst k. eauto.
  - intros [->|H]; [now rewrite String.eqb_refl in E | now apply IH].
Qed.

(** X3. The proxy's allowlist is the list of the pricing table's own keys:
    [validateModel] accepts a value exactly when it is a string among
    [Object.keys(getPricingTable())], and for such a model
    [getModelPricing] returns the table's entry. The converse fails for the
    names every object inherits: [hasPricing('constructor')] is true, and
    the allowlist rejects it. *)
Theorem validated_models_are_priced (v : Js.value) :
  (OpenAIProxyService.validateModel v = OpenAIProxyService.Valid
   <-> exists m, v = Str m /\ In m PricingService.getSupportedModels)
  /\ (OpenAIProxyService.validateModel v = OpenAIProxyService.Valid ->
      exists m pricing,
        v = Str m
        /\ In (m, pricing) PricingService.getPricingTable
        /\ PricingService.getModelPricing m
           = Some (PricingService.Entry pricing))
  /\ PricingService.hasPricing "constructor" = true
  /\ OpenAIProxyService.validateModel (Str "constructor")
     <> OpenAIProxyService.Valid.
Proof.
  assert (Hiff : OpenAIProxyService.validateModel v = OpenAIProxyService.Valid
                 <-> exists m, v = Str m /\ In m PricingService.getSupportedModels).
  { split.
    - destruct v as [| |b|n|m|]; try discriminate.
      unfold OpenAIProxyService.validateModel.
      destruct (m =? ""); [discriminate|].
      destruct (OpenAIProxyService.list_includes _ m) eqn:Hin; [|discriminate].
      intros _. exists m. split; [reflexivity|].
      unfold OpenAIProxyService.list_includes in Hin.
      apply existsb_exists in Hin as (k & Hk & E).
      apply String.eqb_eq in E. subst k. exact Hk.
    - intros (m & -> & Hin).
      assert (Hinc : OpenAIProxyService.list_includes
                       OpenAIProxyService.getSupportedModels m = true).
      { unfold OpenAIProxyService.list_includes. apply existsb_exists.
        exists m. split; [exact Hin | apply String.eqb_refl]. }
      unfold OpenAIProxyService.validateModel. rewrite Hinc.
      destruct (m =? "") eqn:E; [|reflexivity].
      apply String.eqb_eq in E. subst m. cbn in Hin. intuition discriminate. }
  split; [exact Hiff|]. split; [|split; [reflexivity|discriminate]].
  intros Hv. apply Hiff in Hv as (m & -> & Hin).
  destruct (find_key PricingService.getPricingTable m Hin) as [pricing Hfind].
  exists m, pricing. split; [reflexivity|]. split.
  - exact (proj1 (find_some _ _ Hfind)).
  - unfold PricingService.getModelPricing. now rewrite Hfind.
Qed.

Lemma calculateCost_ranged model pricing p c :
  PricingService.getModelPricing model = Some (PricingService.Entry pricing) ->
  (0 <= p < 2 ^ 31)%Z -> (0 <= c < 2 ^ 31)%Z ->
  Binary64Facts.ranged (-72) (-24) (PricingService.calculateCost_f64 model p c).
Proof.
  intros Hm Hp Hc.
  destruct (microdollars_twice model pricing p c Hm Hp Hc) as [_ Ry].
  unfold PricingService.calculateCost_f64. rewrite Hm.
  fold (microdollars (PricingService.Entry pricing) p c).
  rewrite (Math_round_f64_ranged _ _ _ Ry).
  destruct (Binary64Facts.to_Q_bounds (-160) (-9) _ 44 Ry) as [Hy0 Hy44];
    try (unfold SpecFloat.emin, emax, prec; lia).
  destruct (Math_round_bounds _ _ Hy0 Hy44) as [Hn0 Hn44].
  set (n := PricingService.Math_round _) in *.
  assert (Hn : (0 <= n < 2 ^ 45)%Z)
    by (change (2 ^ 45)%Z with (2 * 2 ^ 44)%Z;
        assert (0 < 2 ^ 44)%Z by reflexivity; lia).
  destruct (Binary64Facts.of_Z_twice 45 n ltac:(lia) Hn) as [T1 R1].
  destruct (Binary64Facts.div_twice (-52) (45 - 52) (-33) (-33) _ _ _ _ _
              R1 million ltac:(lia) T1) as [_ R2];
    try (unfold SpecFloat.emin, emax, prec; lia).
  apply (ranged_weaken _ _ _ _ _ R2); unfold prec; lia.
Qed.

Lemma nan_spec : Prim2SF nan = S754_nan.
Proof. reflexivity. Qed.

Lemma mul_nan_r x : (x * nan)%float = nan.
Proof.
  apply Prim2SF_inj. rewrite FloatAxioms.mul_spec, nan_spec.
  now destruct (Prim2SF x).
Qed.

Lemma add_nan_l x : (nan + x)%float = nan.
Proof.
  apply Prim2SF_inj. rewrite FloatAxioms.add_spec, nan_spec. reflexivity.
Qed.

Lemma mul_nan_l x : (nan * x)%float = nan.
Proof.
  apply Prim2SF_inj. rewrite FloatAxioms.mul_spec, nan_spec. reflexivity.
Qed.

Lemma div_nan_l x : (nan / x)%float = nan.
Proof.
  apply Prim2SF_inj. rewrite FloatAxioms.div_spec, nan_spec. reflexivity.
Qed.

(** X4. The cost of a priced model is a proper, non-negative number: for
    every model of the pricing table and token counts from 0 to 2^31 - 1,
    [calculateCost] is a finite double that is at least 0, never NaN and
    never infinite. For a name inherited from [Object.prototype] (such as
    [constructor]) the cost is NaN, whatever the counts. *)
Theorem calculateCost_nonnegative (model : string) (p c : Z) :
  (forall pricing,
      PricingService.getModelPricing model = Some (PricingService.Entry pricing) ->
      (0 <= p < 2 ^ 31)%Z -> (0 <= c < 2 ^ 31)%Z ->
      PrimFloat.leb 0 (PricingService.calculateCost_f64 model p c) = true
      /\ PrimFloat.ltb (PricingService.calculateCost_f64 model p c) infinity = true)
  /\ (forall name,
         PricingService.getModelPricing model = Some (PricingService.Inherited name) ->
         PricingService.calculateCost_f64 model p c = nan).
Proof.
  split.
  - intros pricing Hm Hp Hc.
    pose proof (calculateCost_ranged model pricing p c Hm Hp Hc) as Hr.
    rewrite FloatAxioms.leb_spec, FloatAxioms.ltb_spec.
    change (Prim2SF 0) with (S754_zero false).
    change (Prim2SF infinity) with (S754_infinity false).
    destruct Hr as [H|(m & e & H & _)]; rewrite H; split; reflexivity.
  - intros name Hm. unfold PricingService.calculateCost_f64. rewrite Hm.
    unfold PricingService.totalCost_f64.
    cbn [PricingService.prompt_f64 PricingService.completion_f64].
    rewrite !mul_nan_r, add_nan_l, mul_nan_l.
    change (PricingService.Math_round_f64 nan) with nan.
    apply div_nan_l.
Qed.

Lemma calculateCost_nonnegative_witness :
  PricingService.getModelPricing "gpt-4"
  = Some (PricingService.Entry {| PricingService.prompt := 30.00;
                                  PricingService.completion := 60.00 |})
  /\ (0 <= 1000 < 2 ^ 31)%Z /\ (0 <= 500 < 2 ^ 31)%Z
  /\ PrimFloat.leb 0 (PricingService.calculateCost_f64 "gpt-4" 1000 500) = true
  /\ PricingService.getModelPricing "constructor"
     = Some (PricingService.Inherited "constructor")
  /\ PricingService.calculateCost_f64 "constructor" 1000 500 = nan.
Proof.
  assert (Hm : PricingService.getModelPricing "gpt-4"
               = Some (PricingService.Entry
                         {| PricingService.prompt := 30.00;
                            PricingService.completion := 60.00 |}))
    by reflexivity.
  assert (Hp : (0 <= 1000 < 2 ^ 31)%Z) by (split; [discriminate|reflexivity]).
  assert (Hc : (0 <= 500 < 2 ^ 31)%Z) by (split; [discriminate|reflexivity]).
  assert (Hi : PricingService.getModelPricing "constructor"
               = Some (PricingService.Inherited "constructor")) by reflexivity.
  split; [exact Hm|]. split; [exact Hp|]. split; [exact Hc|].
  split; [|split; [exact Hi|]].
  - exact (proj1 (proj1 (calculateCost_nonnegative "gpt-4" 1000 500) _ Hm Hp Hc)).
  - exact (proj2 (calculateCost_nonnegative "constructor" 1000 500) _ Hi).
Defined.

(** X6. The audit breakdown and [calculateCost] agree: for every model and
    all counts, the breakdown's [total_cost_usd] is the very number
    [calculateCost] returns (NaN included), its [total_tokens] is the sum
    of the two counts, and its prices are those of [getModelPricing]. A
    model without pricing gets the object
    [{ model, error: 'No pricing found', total_cost_usd: 0 }], and its cost
    is 0. *)
Theorem getCostBreakdown_consistent (model : string) (p c : Z) :
  match PricingService.getCostBreakdown model p c with
  | PricingService.NoPricingFound m error total =>
      m = model /\ error = "No pricing found" /\ total = 0%float
      /\ PricingService.hasPricing model = false
      /\ PricingService.calculateCost_f64 model p c = 0%float
  | PricingService.CostBreakdown m b =>
      m = model
      /\ PricingService.hasPricing model = true
      /\ PricingService.total_cost_usd b = PricingService.calculateCost_f64 model p c
      /\ PricingService.breakdown_total_tokens b = (p + c)%Z
      /\ PricingService.prompt_per_1m b
         = PricingService.prompt_per_million (PricingService.getModelPricing model)
      /\ PricingService.completion_per_1m b
         = PricingService.completion_per_million (PricingService.getModelPricing model)
  end.
Proof.
  unfold PricingService.getCostBreakdown, PricingService.calculateCost_f64,
    PricingService.hasPricing.
  destruct (PricingService.getModelPricing model) as [pricing|];
    repeat split; reflexivity.
Qed.

(** One prompt token and one completion token of [gpt-3.5-turbo]: each
    part is rounded on its own, to 1 and 2 millionths, and the total to 2. *)
Example breakdown_parts_need_not_sum :
  match PricingService.getCostBreakdown "gpt-3.5-turbo" 1 1 with
  | PricingService.CostBreakdown _ b =>
      PricingService.prompt_cost_usd b = (1 / 1000000)%float
      /\ PricingService.completion_cost_usd b = (2 / 1000000)%float
      /\ PricingService.total_cost_usd b = (2 / 1000000)%float
  | PricingService.NoPricingFound _ _ _ => False
  end.
Proof. vm_compute. repeat split; reflexivity. Qed.

(** ** More on the secret cipher *)

Lemma split_nonempty sep s : split sep s <> [].
Proof.
  destruct s as [|c s]; cbn; [discriminate|].
  destruct (Ascii.eqb c sep); [discriminate|].
  destruct (split sep s); discriminate.
Qed.

Lemma join_split sep s : join (String sep EmptyString) (split sep s) = s.
Proof.
  unfold join. induction s as [|c s IH]; [reflexivity|].
  cbn [split]. destruct (Ascii.eqb c sep) eqn:E.
  - apply Ascii.eqb_eq in E. subst c.
    pose proof (split_nonempty sep s) as Hne.
    destruct (split sep s) as [|p ps]; [congruence|].
    change (String.concat (String sep "") ("" :: p :: ps))
      with (String sep (String.concat (String sep "") (p :: ps))).
    now rewrite IH.
  - pose proof (split_nonempty sep s) as Hne.
    destruct (split sep s) as [|p ps]; [congruence|].
    destruct ps as [|q ps].
    + cbn in *. now rewrite IH.
    + change (String.concat (String sep "") (String c p :: q :: ps))
        with (String c (String.concat (String sep "") (p :: q :: ps))).
      now rewrite IH.
Qed.

Lemma hex_part_inv part :
  EncryptionService.hex_part part = true -> part <> "" /\ Buffer.all_hex part = true.
Proof.
  unfold EncryptionService.hex_part. intros H. apply andb_prop in H as [Hne Hh].
  split; [|exact Hh]. intros ->. discriminate.
Qed.

Lemma isEncrypted_shape a b c :
  EncryptionService.hex_part a = true ->
  EncryptionService.hex_part b = true ->
  EncryptionService.hex_part c = true ->
  EncryptionService.isEncrypted (a ++ ":" ++ b ++ ":" ++ c) = true.
Proof.
  intros Ha Hb Hc.
  pose proof (hex_part_inv _ Ha) as [Hane Hah].
  pose proof (hex_part_inv _ Hb) as [_ Hbh].
  pose proof (hex_part_inv _ Hc) as [_ Hch].
  unfold EncryptionService.isEncrypted.
  rewrite (eqb_empty_false _ (append_nonempty _ _ Hane)).
  change (":" ++ ?x) with (String ":" x).
  rewrite split_app by (auto using colon_not_hex).
  change (":" ++ ?x) with (String ":" x).
  rewrite split_app by (auto using colon_not_hex).
  rewrite split_free by (auto using colon_not_hex).
  cbn [List.length Nat.eqb negb forallb]. now rewrite Ha, Hb, Hc.
Qed.

Lemma isEncrypted_parts (value : string) :
  EncryptionService.isEncrypted value = true ->
  exists a b c,
    value = a ++ ":" ++ b ++ ":" ++ c
    /\ EncryptionService.hex_part a = true
    /\ EncryptionService.hex_part b = true
    /\ EncryptionService.hex_part c = true.
Proof.
  unfold EncryptionService.isEncrypted.
  destruct (value =? ""); [discriminate|].
  pose proof (join_split ":" value) as Hjoin.
  destruct (split ":" value) as [|a [|b [|c [|d rest]]]]; try discriminate.
  cbn [List.length Nat.eqb negb forallb]. intros H.
  apply andb_prop in H as [Ha H]. apply andb_prop in H as [Hb H].
  apply andb_prop in H as [Hc _].
  exists a, b, c. split; [|auto]. now rewrite <- Hjoin.
Qed.

(** X7. [isEncrypted] accepts exactly the strings [a:b:c] whose three
    parts are non-empty and hexadecimal (either case). *)
Theorem isEncrypted_format (value : string) :
  EncryptionService.isEncrypted value = true
  <-> exists a b c,
        value = a ++ ":" ++ b ++ ":" ++ c
        /\ EncryptionService.hex_part a = true
        /\ EncryptionService.hex_part b = true
        /\ EncryptionService.hex_part c = true.
Proof.
  split.
  - apply isEncrypted_parts.
  - intros (a & b & c & -> & Ha & Hb & Hc).
    now apply isEncrypted_shape.
Qed.

(** X8. A stored value whose first character is not a hexadecimal digit is
    never taken for an encrypted bundle; in particular no key of the form
    [sk-...] is. *)
Theorem isEncrypted_rejects_plain_keys :
  (forall c rest, Buffer.is_hex c = false ->
                  EncryptionService.isEncrypted (String c rest) = false)
  /\ (forall rest, EncryptionService.isEncrypted ("sk-" ++ rest) = false).
Proof.
  assert (H : forall c rest, Buffer.is_hex c = false ->
                             EncryptionService.isEncrypted (String c rest) = false).
  { intros c rest Hc.
    destruct (EncryptionService.isEncrypted (String c rest)) eqn:E; [|reflexivity].
    apply isEncrypted_parts in E as (a & b & d & Hv & Ha & _).
    apply hex_part_inv in Ha as [Hane Hah].
    destruct a as [|x a]; [congruence|].
    cbn in Hv. injection Hv as <- _.
    cbn in Hah. rewrite Hc in Hah. discriminate. }
  split; [exact H|]. intros rest. now apply H.
Qed.

(** X9. [decrypt] releases a plaintext only for an input of three
    colon-separated parts, under a master key of 32 bytes, and only when the
    cipher has verified the authentication tag over the decoded parts; the
    plaintext is the one the cipher opened. Every error it throws carries
    one of two fixed messages, neither of which depends on the key or on
    the input. *)
Theorem decrypt_releases_only_authenticated
        (aes : EncryptionService.Aead) (secret : option string) (encrypted : string) :
  (forall x, EncryptionService.decrypt secret encrypted = Returns x ->
     exists p0 p1 p2 key pt,
       split ":" encrypted = [p0; p1; p2]
       /\ EncryptionService.getMasterKey secret = Returns key
       /\ List.length key = 32%nat
       /\ EncryptionService.gcm_open key (Buffer.from_hex p0) (Buffer.from_hex p1)
            (Buffer.from_hex p2) = Some pt
       /\ x = EncryptionService.utf8_decode pt)
  /\ (forall e, EncryptionService.decrypt secret encrypted = Throws e ->
        e = Error "Encrypted text must be a non-empty string"
        \/ e = Error "Failed to decrypt OpenAI API key (corrupted or tampered)").
Proof.
  unfold EncryptionService.decrypt. split.
  - intros x. destruct (encrypted =? ""); [discriminate|].
    destruct (split ":" encrypted) as [|p0 [|p1 [|p2 [|p3 rest]]]]; try discriminate.
    destruct (EncryptionService.getMasterKey secret) as [key|] eqn:Hk;
      cbn [bind rethrow]; [|discriminate].
    destruct (EncryptionService.cipher_accepts key (Buffer.from_hex p0)) eqn:Hacc;
      [|discriminate].
    destruct (EncryptionService.gcm_open _ _ _ _) as [pt|] eqn:Hopen; [|discriminate].
    cbn [rethrow]. intros [= <-].
    exists p0, p1, p2, key, pt. repeat split; try assumption.
    unfold EncryptionService.cipher_accepts in Hacc.
    apply andb_prop in Hacc as [Hlen _]. now apply Nat.eqb_eq in Hlen.
  - intros e. destruct (encrypted =? ""); [intros [= <-]; now left|].
    unfold rethrow.
    match goal with
    | |- match ?m with _ => _ end = _ -> _ => destruct m
    end; [discriminate|]. intros [= <-]. now right.
Qed.

(** X10. Without a usable master secret (unset, or not 64 characters long)
    nothing is encrypted or decrypted: [encrypt] of any non-empty plaintext
    and [decrypt] of any non-empty input throw their generic errors, for
    every nonce and every cipher. *)
Theorem master_secret_required
        (aes : EncryptionService.Aead) (secret : option string) :
  match secret with
  | None => True
  | Some s => String.length s <> 64%nat
  end ->
  (forall iv x, x <> "" ->
     EncryptionService.encrypt secret iv x
     = Throws (Error "Failed to encrypt OpenAI API key"))
  /\ (forall encrypted, encrypted <> "" ->
        EncryptionService.decrypt secret encrypted
        = Throws (Error "Failed to decrypt OpenAI API key (corrupted or tampered)")).
Proof.
  intros Hbad.
  assert (Hk : exists e, EncryptionService.getMasterKey secret = Throws e).
  { unfold EncryptionService.getMasterKey. destruct secret as [s|]; [|eauto].
    destruct (s =? ""); [eauto|].
    destruct (String.length s =? 64)%nat eqn:E; [|cbn; eauto].
    apply Nat.eqb_eq in E. contradiction. }
  destruct Hk as [e Hk]. split.
  - intros iv x Hx. unfold EncryptionService.encrypt.
    now rewrite (eqb_empty_false _ Hx), Hk.
  - intros encrypted Hne. unfold EncryptionService.decrypt.
    rewrite (eqb_empty_false _ Hne), Hk.
    now destruct (split ":" encrypted) as [|p0 [|p1 [|p2 [|p3 rest]]]].
Qed.

Lemma master_secret_required_witness :
  String.length "too-short" <> 64%nat
  /\ EncryptionService.encrypt (aes := EncryptionService.toy_aead)
       (Some "too-short") demo_iv "sk-proj-test123"
     = Throws (Error "Failed to encrypt OpenAI API key")
  /\ EncryptionService.decrypt (aes := EncryptionService.toy_aead)
       (Some "too-short") "0a:0b:0c"
     = Throws (Error "Failed to decrypt OpenAI API key (corrupted or tampered)").
Proof.
  assert (H : String.length "too-short" <> 64%nat) by (cbn; lia).
  destruct (master_secret_required EncryptionService.toy_aead (Some "too-short") H)
    as [He Hd].
  split; [exact H|]. split.
  - apply He. discriminate.
  - apply Hd. discriminate.
Defined.

Definition demo_bundle : string :=
  Eval vm_compute in
    match EncryptionService.encrypt (aes := EncryptionService.toy_aead)
            (Some demo_master_secret) demo_iv "sk-proj-test123" with
    | Returns b => b
    | Throws _ => ""
    end.

Lemma decrypt_releases_only_authenticated_witness :
  EncryptionService.decrypt (aes := EncryptionService.toy_aead)
    (Some demo_master_secret) demo_bundle = Returns "sk-proj-test123"
  /\ exists p0 p1 p2 key pt,
       split ":" demo_bundle = [p0; p1; p2]
       /\ EncryptionService.getMasterKey (Some demo_master_secret) = Returns key
       /\ List.length key = 32%nat
       /\ EncryptionService.gcm_open (Aead := EncryptionService.toy_aead)
            key (Buffer.from_hex p0) (Buffer.from_hex p1) (Buffer.from_hex p2)
          = Some pt
       /\ "sk-proj-test123" = EncryptionService.utf8_decode pt.
Proof.
  assert (H : EncryptionService.decrypt (aes := EncryptionService.toy_aead)
                (Some demo_master_secret) demo_bundle = Returns "sk-proj-test123")
    by (vm_compute; reflexivity).
  split; [exact H|].
  exact (proj1 (decrypt_releases_only_authenticated EncryptionService.toy_aead
                  (Some demo_master_secret) demo_bundle) "sk-proj-test123" H).
Defined.

Lemma isEncrypted_rejects_plain_keys_witness :
  Buffer.is_hex "s" = false
  /\ EncryptionService.isEncrypted "sk-proj-legacy:00:11" = false.
Proof.
  assert (H : Buffer.is_hex "s" = false) by reflexivity.
  split; [exact H|].
  exact (proj1 isEncrypted_rejects_plain_keys "s"%char "k-proj-legacy:00:11" H).
Defined.

(** ** More on the proxy *)

Definition proxy_result (success : bool) (error : option string)
           (upstream : http_response) (meta : OpenAIProxyService.metadata)
  : OpenAIProxyService.result :=
  {| OpenAIProxyService.success := success;
     OpenAIProxyService.error := error;
     OpenAIProxyService.response := data upstream;
     OpenAIProxyService.statusCode := status upstream;
     OpenAIProxyService.headers := Js.headers upstream;
     OpenAIProxyService.meta := meta |}.

(** X11. An upstream answer other than 200 is handed back as it came, with
    the trace identifier, and nothing is written: below 600 it is returned
    with [success: true] (axios does not throw), from 600 on as the
    [OpenAI API error] object whose metadata holds the trace identifier
    only. In both cases exactly one outbound call was made and the datastore
    is unchanged. *)
Theorem upstream_error_passes_through
        (aes : EncryptionService.Aead) (hmac : string -> string -> string)
        (env : OpenAIProxyService.environment) (stamp : string) (s : datastore)
        (proxyKey : string) (requestBody : OpenAIProxyService.request_body)
        (requestHeaders : list (string * string))
        (key : ProxyKeyService.key_info) (call : OpenAIProxyService.outbound)
        (upstream : http_response) :
  OpenAIProxyService.prepare hmac env s proxyKey requestBody requestHeaders
  = Returns (key, call) ->
  OpenAIProxyService.transport env (OpenAIProxyService.url call)
    (OpenAIProxyService.body call) (OpenAIProxyService.forwardHeaders call)
  = inl upstream ->
  status upstream <> 200%Z ->
  exists r,
    OpenAIProxyService.proxyChatCompletion hmac env stamp s proxyKey
      requestBody requestHeaders = (s, [call], Returns r)
    /\ passthrough r
       = ((status upstream <? 600)%Z, status upstream, data upstream,
          Js.headers upstream, OpenAIProxyService.randomUUID env)
    /\ ((600 <= status upstream)%Z ->
        r = proxy_result false (Some "OpenAI API error") upstream
              {| OpenAIProxyService.spendai_request_id :=
                   OpenAIProxyService.randomUUID env;
                 OpenAIProxyService.organization_id := None;
                 OpenAIProxyService.project_id := None;
                 OpenAIProxyService.proxy_key_id := None;
                 OpenAIProxyService.timestamp := None;
                 OpenAIProxyService.openai_request_id := None |}).
Proof.
  intros Hprep Htransport Hstatus.
  unfold OpenAIProxyService.proxyChatCompletion. rewrite Hprep.
  unfold OpenAIProxyService.axios_post. rewrite Htransport.
  destruct (status upstream <? 600)%Z eqn:Hlt.
  - assert (E : (status upstream =? 200)%Z = false) by now apply Z.eqb_neq.
    rewrite E. eexists. split; [reflexivity|]. split; [reflexivity|].
    apply Z.ltb_lt in Hlt. lia.
  - eexists. split; [reflexivity|]. split; reflexivity.
Qed.

(** X12. A transport failure never reaches the ledger and is not retried:
    one outbound call, datastore unchanged, an error thrown. A timeout
    ([ECONNABORTED]) is reported as [OpenAI request timeout]; any other
    failure whose message mentions neither [proxy key] nor [decrypt] as
    [Proxy request failed]. *)
Theorem transport_failure_is_reported
        (aes : EncryptionService.Aead) (hmac : string -> string -> string)
        (env : OpenAIProxyService.environment) (stamp : string) (s : datastore)
        (proxyKey : string) (requestBody : OpenAIProxyService.request_body)
        (requestHeaders : list (string * string))
        (key : ProxyKeyService.key_info) (call : OpenAIProxyService.outbound)
        (errcode errmsg : string) :
  OpenAIProxyService.prepare hmac env s proxyKey requestBody requestHeaders
  = Returns (key, call) ->
  OpenAIProxyService.transport env (OpenAIProxyService.url call)
    (OpenAIProxyService.body call) (OpenAIProxyService.forwardHeaders call)
  = inr (errcode, errmsg) ->
  exists e,
    OpenAIProxyService.proxyChatCompletion hmac env stamp s proxyKey
      requestBody requestHeaders = (s, [call], Throws e)
    /\ (errcode = "ECONNABORTED" -> e = Error "OpenAI request timeout")
    /\ (errcode <> "ECONNABORTED" -> errcode <> "INVALID_MODEL" ->
        includes "proxy key" errmsg = false -> includes "decrypt" errmsg = false ->
        e = Error "Proxy request failed").
Proof.
  intros Hprep Htransport.
  unfold OpenAIProxyService.proxyChatCompletion. rewrite Hprep.
  unfold OpenAIProxyService.axios_post. rewrite Htransport.
  unfold OpenAIProxyService.on_error.
  cbn [code message Js.response].
  destruct (errcode =? "INVALID_MODEL") eqn:Em.
  - apply String.eqb_eq in Em. subst errcode.
    eexists. split; [reflexivity|]. split; [discriminate | congruence].
  - destruct (errcode =? "ECONNABORTED") eqn:Ec.
    + apply String.eqb_eq in Ec. subst errcode.
      eexists. split; [reflexivity|]. split; [reflexivity | congruence].
    + apply String.eqb_neq in Ec.
      destruct (includes "proxy key" errmsg) eqn:I1;
        [eexists; split; [reflexivity|]; split; [congruence | discriminate]|].
      destruct (includes "decrypt" errmsg) eqn:I2;
        eexists; (split; [reflexivity|]); (split; [congruence|]);
        intros; (reflexivity || discriminate).
Qed.

Definition with_transport (env : OpenAIProxyService.environment)
           (t : string -> OpenAIProxyService.request_body -> list (string * string)
                -> http_response + (string * string))
  : OpenAIProxyService.environment :=
  {| OpenAIProxyService.PROXY_KEY_SECRET := OpenAIProxyService.PROXY_KEY_SECRET env;
     OpenAIProxyService.OPENAI_KEY_ENCRYPTION_SECRET :=
       OpenAIProxyService.OPENAI_KEY_ENCRYPTION_SECRET env;
     OpenAIProxyService.randomUUID := OpenAIProxyService.randomUUID env;
     OpenAIProxyService.time := OpenAIProxyService.time env;
     OpenAIProxyService.transport := t;
     OpenAIProxyService.proxy_keys_select := OpenAIProxyService.proxy_keys_select env;
     OpenAIProxyService.organizations_select :=
       OpenAIProxyService.organizations_select env;
     OpenAIProxyService.ledger := OpenAIProxyService.ledger env |}.

Definition demo_rate_limited : http_response :=
  {| status := 429;
     data := {| payload := "rate_limit_exceeded"; body_model := None; body_usage := None |};
     Js.headers := [] |}.

Lemma upstream_error_passes_through_witness :
  let env := with_transport demo_env (fun _ _ _ => inl demo_rate_limited) in
  status demo_rate_limited <> 200%Z
  /\ exists r,
       fst (OpenAIProxyService.proxyChatCompletion (aes := EncryptionService.toy_aead)
              toy_hmac env demo_now demo_proxy_store "sk-spendai-abc" demo_request [])
       = (demo_proxy_store,
          [ {| OpenAIProxyService.url := "https://api.openai.com/v1/chat/completions";
               OpenAIProxyService.body := demo_request;
               OpenAIProxyService.forwardHeaders :=
                 [("Content-Type", "application/json");
                  ("Authorization", "Bearer sk-proj-legacy")];
               OpenAIProxyService.timeout := 60000 |} ])
       /\ snd (OpenAIProxyService.proxyChatCompletion (aes := EncryptionService.toy_aead)
                 toy_hmac env demo_now demo_proxy_store "sk-spendai-abc" demo_request [])
          = Returns r
       /\ passthrough r
          = (true, 429%Z, data demo_rate_limited, [],
             "550e8400-e29b-41d4-a716-446655440000").
Proof.
  cbv zeta.
  assert (Hs : status demo_rate_limited <> 200%Z) by discriminate.
  split; [exact Hs|].
  destruct (upstream_error_passes_through EncryptionService.toy_aead toy_hmac
              (with_transport demo_env (fun _ _ _ => inl demo_rate_limited))
              demo_now demo_proxy_store "sk-spendai-abc" demo_request []
              _ _ demo_rate_limited eq_refl eq_refl Hs) as (r & Hrun & Hpass & _).
  exists r. rewrite Hrun. repeat split. exact Hpass.
Defined.

Lemma transport_failure_is_reported_witness :
  let env := with_transport demo_env
               (fun _ _ _ => inr ("ECONNABORTED", "timeout of 60000ms exceeded")) in
  snd (OpenAIProxyService.proxyChatCompletion (aes := EncryptionService.toy_aead)
         toy_hmac env demo_now demo_proxy_store "sk-spendai-abc" demo_request [])
  = Throws (Error "OpenAI request timeout")
  /\ fst (fst (OpenAIProxyService.proxyChatCompletion
                 (aes := EncryptionService.toy_aead)
                 toy_hmac env demo_now demo_proxy_store "sk-spendai-abc"
                 demo_request []))
     = demo_proxy_store.
Proof.
  cbv zeta.
  destruct (transport_failure_is_reported EncryptionService.toy_aead toy_hmac
              (with_transport demo_env
                 (fun _ _ _ => inr ("ECONNABORTED", "timeout of 60000ms exceeded")))
              demo_now demo_proxy_store "sk-spendai-abc" demo_request []
              _ _ "ECONNABORTED" "timeout of 60000ms exceeded" eq_refl eq_refl)
    as (e & Hrun & Htimeout & _).
  rewrite Hrun. cbn [fst snd]. split; [|reflexivity].
  now rewrite (Htimeout eq_refl).
Defined.

Lemma getOrganizationOpenAIKey_errors
      (aes : EncryptionService.Aead) secret fault table organizationId e :
  snd (OpenAIProxyService.getOrganizationOpenAIKey secret fault table organizationId)
  = Throws e ->
  e = Error "Failed to fetch organization OpenAI key"
  \/ e = Error "Organization OpenAI API key not configured"
  \/ e = Error "Failed to decrypt organization OpenAI API key".
Proof.
  unfold OpenAIProxyService.getOrganizationOpenAIKey.
  destruct fault; [cbn; intros [= <-]; auto|].
  destruct (filter _ table) as [|org [|org' rest]]; try (cbn; intros [= <-]; now auto).
  destruct (Organizations.openai_api_key org) as [k|]; [|cbn; intros [= <-]; auto].
  destruct (k =? ""); [cbn; intros [= <-]; auto|].
  destruct (EncryptionService.isEncrypted k); [|discriminate].
  destruct (EncryptionService.decrypt secret k); cbn; [discriminate|].
  intros [= <-]. auto.
Qed.

(** X13. When the organization's key cannot be resolved, the request stops
    before any outbound call and with the datastore unchanged. A failed
    decryption is reported as [Failed to decrypt organization OpenAI key];
    a failed lookup and a key that is not configured are both reported as
    the unspecific [Proxy request failed]. *)
Theorem key_resolution_failure_is_reported
        (aes : EncryptionService.Aead) (hmac : string -> string -> string)
        (env : OpenAIProxyService.environment) (stamp : string) (s : datastore)
        (proxyKey : string) (requestBody : OpenAIProxyService.request_body)
        (requestHeaders : list (string * string))
        (key : ProxyKeyService.key_info) (e : Js.error) :
  ProxyKeyService.verifyProxyKey hmac (OpenAIProxyService.PROXY_KEY_SECRET env)
    (OpenAIProxyService.proxy_keys_select env) (proxy_keys s) proxyKey = Returns key ->
  allowlisted (OpenAIProxyService.model requestBody) = true ->
  snd (OpenAIProxyService.getOrganizationOpenAIKey
         (OpenAIProxyService.OPENAI_KEY_ENCRYPTION_SECRET env)
         (OpenAIProxyService.organizations_select env) (organizations s)
         (ProxyKeyService.organization_id key)) = Throws e ->
  exists e',
    OpenAIProxyService.proxyChatCompletion hmac env stamp s proxyKey
      requestBody requestHeaders = (s, [], Throws e')
    /\ ((e = Error "Failed to decrypt organization OpenAI API key"
         /\ e' = Error "Failed to decrypt organization OpenAI key")
        \/ ((e = Error "Failed to fetch organization OpenAI key"
             \/ e = Error "Organization OpenAI API key not configured")
            /\ e' = Error "Proxy request failed")).
Proof.
  intros Hkey Hmodel Hlookup.
  unfold OpenAIProxyService.proxyChatCompletion, OpenAIProxyService.prepare.
  rewrite Hkey. cbn [bind]. rewrite (validateModel_accepts _ Hmodel), Hlookup.
  cbn [bind].
  destruct (getOrganizationOpenAIKey_errors _ _ _ _ _ _ Hlookup) as [->|[->| ->]];
    eexists; (split; [reflexivity|]); auto.
Qed.

Definition demo_unconfigured_store : datastore :=
  {| organizations :=
       [ {| Organizations.id := "org-1";
            Organizations.openai_api_key := None;
            Organizations.monthly_budget_usd := None |} ];
     projects := projects demo_store;
     proxy_keys := [demo_key true None];
     usage_logs := [];
     alerts := [] |}.

Lemma key_resolution_failure_is_reported_witness :
  allowlisted (OpenAIProxyService.model demo_request) = true
  /\ OpenAIProxyService.proxyChatCompletion (aes := EncryptionService.toy_aead)
       toy_hmac demo_env demo_now demo_unconfigured_store "sk-spendai-abc"
       demo_request []
     = (demo_unconfigured_store, [], Throws (Error "Proxy request failed")).
Proof.
  split; [reflexivity|].
  destruct (key_resolution_failure_is_reported EncryptionService.toy_aead toy_hmac
              demo_env demo_now demo_unconfigured_store "sk-spendai-abc"
              demo_request [] _ (Error "Organization OpenAI API key not configured")
              eq_refl eq_refl eq_refl) as (e' & Hrun & [[Hd _]|[_ ->]]).
  - discriminate Hd.
  - exact Hrun.
Defined.

(** ** The usage ledger and the alert table only grow *)

Lemma insert_appends fault table r :
  fst (Alerts.insert fault table r) = table
  \/ fst (Alerts.insert fault table r) = (table ++ [r])%list.
Proof.
  unfold Alerts.insert. destruct fault as [[? ?|?]|]; auto.
  destruct (existsb _ _); auto.
Qed.

Lemma walk_appends ts now fault table e :
  exists added,
    fst (BudgetService.walk ts now fault table e) = (table ++ added)%list
    /\ (List.length added <= 1)%nat
    /\ forall r, In r added ->
         Alerts.organization_id r = BudgetService.organization_id e
         /\ Alerts.project_id r = BudgetService.project_id e
         /\ Alerts.alert_level r = BudgetService.alert_level e
         /\ In (Alerts.threshold_percent r) ts
         /\ Alerts.month_year r = String.substring 0 7 now.
Proof.
  induction ts as [|t ts IH]; cbn [BudgetService.walk].
  - exists []. rewrite app_nil_r.
    split; [reflexivity|]. split; [cbn; lia | intros r []].
  - destruct (BudgetService.reached _ _).
    + cbn [fst].
      match goal with
      | |- context [AlertService.recordAlert now fault table ?p] =>
          destruct (recordAlert_table now fault table p)
            as (r & E & Ho & Hp & Hl & Ht & Hm)
      end.
      rewrite E. destruct (insert_appends fault table r) as [-> | ->].
      * exists []. rewrite app_nil_r.
        split; [reflexivity|]. split; [cbn; lia | intros x []].
      * exists [r]. split; [reflexivity|]. split; [cbn; lia|].
        intros x [<-|[]]. cbn in *. rewrite Ht. auto 6.
    + destruct IH as (added & E & Hlen & Hall). exists added.
      split; [exact E|]. split; [exact Hlen|]. intros r Hr.
      destruct (Hall r Hr) as (? & ? & ? & ? & ?). repeat split; auto. now right.
Qed.

(** X14. [checkBudgets] writes nothing but alerts, and only by appending:
    organizations, projects, proxy keys and the usage ledger are as before,
    the alerts that were there are still there in the same order, and at
    most two rows were added, each for the organization or the project of
    the call, at a threshold of the ladder and for the current month. *)
Theorem checkBudgets_only_appends_alerts
        (f : BudgetService.faults) (c : clock) (s : datastore)
        (organizationId projectId : string) :
  let after := fst (BudgetService.checkBudgets f c s organizationId projectId) in
  organizations after = organizations s
  /\ projects after = projects s
  /\ proxy_keys after = proxy_keys s
  /\ usage_logs after = usage_logs s
  /\ exists added,
       alerts after = (alerts s ++ added)%list
       /\ (List.length added <= 2)%nat
       /\ forall r, In r added ->
            Alerts.organization_id r = organizationId
            /\ (Alerts.project_id r = None \/ Alerts.project_id r = Some projectId)
            /\ In (Alerts.threshold_percent r) [100; 90; 75; 50]%Z
            /\ Alerts.month_year r = String.substring 0 7 (now c).
Proof.
  cbv zeta. unfold BudgetService.checkBudgets, BudgetService.evaluateThresholds.
  assert (Nil : forall a : list Alerts.row, a = (a ++ [])%list)
    by (intros a; now rewrite app_nil_r).
  destruct (BudgetService.getOrgBudget f c s organizationId)
    as [[orgBudget orgSpend]|err].
  2: { cbn. repeat split. exists []. split; [apply Nil|].
       split; [cbn; lia | intros x []]. }
  destruct (BudgetService.positive orgBudget) as [b|].
  - match goal with
    | |- context [BudgetService.walk ?ts ?n ?fl ?tb ?e] =>
        destruct (walk_appends ts n fl tb e) as (added1 & Eq1 & L1 & A1);
        destruct (BudgetService.walk ts n fl tb e) as [a1 calls1]
    end.
    cbn [fst] in Eq1. subst a1.
    destruct (BudgetService.getProjectBudget f c _ projectId)
      as [[projectBudget projectSpend]|err].
    2: { cbn. repeat split. exists added1. split; [reflexivity|].
         split; [lia|]. intros x Hx.
         destruct (A1 x Hx) as (? & ? & ? & ? & ?). cbn in *. auto. }
    destruct (BudgetService.positive projectBudget) as [pb|].
    + match goal with
      | |- context [BudgetService.walk ?ts ?n ?fl ?tb ?e] =>
          destruct (walk_appends ts n fl tb e) as (added2 & Eq2 & L2 & A2);
          destruct (BudgetService.walk ts n fl tb e) as [a2 calls2]
      end.
      cbn [fst] in Eq2. subst a2. cbn. repeat split.
      exists (added1 ++ added2)%list. rewrite app_assoc.
      split; [reflexivity|]. split; [rewrite length_app; lia|].
      intros x Hx. apply in_app_or in Hx as [Hx|Hx].
      * destruct (A1 x Hx) as (? & ? & ? & ? & ?). cbn in *. auto.
      * destruct (A2 x Hx) as (? & ? & ? & ? & ?). cbn in *. auto.
    + cbn. repeat split. exists added1. split; [reflexivity|].
      split; [lia|]. intros x Hx.
      destruct (A1 x Hx) as (? & ? & ? & ? & ?). cbn in *. auto.
  - destruct (BudgetService.getProjectBudget f c _ projectId)
      as [[projectBudget projectSpend]|err].
    2: { cbn. repeat split. exists []. split; [apply Nil|].
         split; [cbn; lia | intros x []]. }
    destruct (BudgetService.positive projectBudget) as [pb|].
    + match goal with
      | |- context [BudgetService.walk ?ts ?n ?fl ?tb ?e] =>
          destruct (walk_appends ts n fl tb e) as (added2 & Eq2 & L2 & A2);
          destruct (BudgetService.walk ts n fl tb e) as [a2 calls2]
      end.
      cbn [fst] in Eq2. subst a2. cbn. repeat split.
      exists added2. split; [reflexivity|]. split; [lia|].
      intros x Hx. destruct (A2 x Hx) as (? & ? & ? & ? & ?). cbn in *. auto.
    + cbn. repeat split. exists []. split; [apply Nil|].
      split; [cbn; lia | intros x []].
Qed.

Lemma checkBudgets_keeps_tables f c s organizationId projectId :
  let after := fst (BudgetService.checkBudgets f c s organizationId projectId) in
  organizations after = organizations s
  /\ projects after = projects s
  /\ proxy_keys after = proxy_keys s
  /\ usage_logs after = usage_logs s.
Proof.
  cbv zeta. unfold BudgetService.checkBudgets.
  destruct (BudgetService.getOrgBudget f c s organizationId) as [[ob os]|err];
    [|cbn; auto].
  destruct (BudgetService.positive ob) as [b|];
    repeat match goal with
           | |- context [BudgetService.evaluateThresholds ?n ?fl ?tb ?e] =>
               destruct (BudgetService.evaluateThresholds n fl tb e)
           end;
    (destruct (BudgetService.getProjectBudget f c _ projectId) as [[pb ps]|err];
     [|cbn; auto]);
    (destruct (BudgetService.positive pb) as [b2|];
     repeat match goal with
            | |- context [BudgetService.evaluateThresholds ?n ?fl ?tb ?e] =>
                destruct (BudgetService.evaluateThresholds n fl tb e)
            end; cbn; auto).
Qed.

Lemma checkBudgets_appends f c s organizationId projectId :
  let after := fst (BudgetService.checkBudgets f c s organizationId projectId) in
  organizations after = organizations s
  /\ projects after = projects s
  /\ proxy_keys after = proxy_keys s
  /\ usage_logs after = usage_logs s
  /\ exists added,
       alerts after = (alerts s ++ added)%list
       /\ (List.length added <= 2)%nat
       /\ forall r, In r added ->
            Alerts.organization_id r = organizationId
            /\ (Alerts.project_id r = None \/ Alerts.project_id r = Some projectId)
            /\ In (Alerts.threshold_percent r) [100; 90; 75; 50]%Z
            /\ Alerts.month_year r = String.substring 0 7 (now c).
Proof.
  cbv zeta. unfold BudgetService.checkBudgets, BudgetService.evaluateThresholds.
  assert (Nil : forall a : list Alerts.row, a = (a ++ [])%list)
    by (intros a; now rewrite app_nil_r).
  destruct (BudgetService.getOrgBudget f c s organizationId)
    as [[orgBudget orgSpend]|err].
  2: { cbn. repeat split. exists []. split; [apply Nil|].
       split; [cbn; lia | intros x []]. }
  destruct (BudgetService.positive orgBudget) as [b|].
  - match goal with
    | |- context [BudgetService.walk ?ts ?n ?fl ?tb ?e] =>
        destruct (walk_appends ts n fl tb e) as (added1 & Eq1 & L1 & A1);
        destruct (BudgetService.walk ts n fl tb e) as [a1 calls1]
    end.
    cbn [fst] in Eq1. subst a1.
    destruct (BudgetService.getProjectBudget f c _ projectId)
      as [[projectBudget projectSpend]|err].
    2: { cbn. repeat split. exists added1. split; [reflexivity|].
         split; [lia|]. intros x Hx.
         destruct (A1 x Hx) as (? & ? & ? & ? & ?). cbn in *. auto. }
    destruct (BudgetService.positive projectBudget) as [pb|].
    + match goal with
      | |- context [BudgetService.walk ?ts ?n ?fl ?tb ?e] =>
          destruct (walk_appends ts n fl tb e) as (added2 & Eq2 & L2 & A2);
          destruct (BudgetService.walk ts n fl tb e) as [a2 calls2]
      end.
      cbn [fst] in Eq2. subst a2. cbn. repeat split.
      exists (added1 ++ added2)%list. rewrite app_assoc.
      split; [reflexivity|]. split; [rewrite length_app; lia|].
      intros x Hx. apply in_app_or in Hx as [Hx|Hx].
      * destruct (A1 x Hx) as (? & ? & ? & ? & ?). cbn in *. auto.
      * destruct (A2 x Hx) as (? & ? & ? & ? & ?). cbn in *. auto.
    + cbn. repeat split. exists added1. split; [reflexivity|].
      split; [lia|]. intros x Hx.
      destruct (A1 x Hx) as (? & ? & ? & ? & ?). cbn in *. auto.
  - destruct (BudgetService.getProjectBudget f c _ projectId)
      as [[projectBudget projectSpend]|err].
    2: { cbn. repeat split. exists []. split; [apply Nil|].
         split; [cbn; lia | intros x []]. }
    destruct (BudgetService.positive projectBudget) as [pb|].
    + match goal with
      | |- context [BudgetService.walk ?ts ?n ?fl ?tb ?e] =>
          destruct (walk_appends ts n fl tb e) as (added2 & Eq2 & L2 & A2);
          destruct (BudgetService.walk ts n fl tb e) as [a2 calls2]
      end.
      cbn [fst] in Eq2. subst a2. cbn. repeat split.
      exists added2. split; [reflexivity|]. split; [lia|].
      intros x Hx. destruct (A2 x Hx) as (? & ? & ? & ? & ?). cbn in *. auto.
    + cbn. repeat split. exists []. split; [apply Nil|].
      split; [cbn; lia | intros x []].
Qed.

(** X15. [logUsage] either throws and leaves the datastore as it was, or
    appends exactly one row to the usage ledger. That row carries the
    request's identifiers, the model and the (non-negative) token counts,
    the cost and the price snapshot, currency USD and status success.
    Organizations, projects and proxy keys are never written; the only
    other write is that of the budget check the call starts, which appends
    at most two alerts, all of the request's organization. *)
Theorem logUsage_appends_one_row
        (f : UsageLoggingService.faults) (c : clock) (s : datastore)
        (p : UsageLoggingService.params) (u : UsageLoggingService.usage) :
  match UsageLoggingService.logUsage f c s p u with
  | (s', Throws _) => s' = s
  | (s', Returns r) =>
      usage_logs s' = (usage_logs s ++ [r])%list
      /\ organizations s' = organizations s
      /\ projects s' = projects s
      /\ proxy_keys s' = proxy_keys s
      /\ (exists added,
            alerts s' = (alerts s ++ added)%list
            /\ (List.length added <= 2)%nat
            /\ forall a, In a added ->
                 Alerts.organization_id a = UsageLoggingService.organization_id p)
      /\ UsageLogs.request_id r = UsageLoggingService.request_id p
      /\ UsageLogs.organization_id r = UsageLoggingService.organization_id p
      /\ UsageLogs.project_id r = UsageLoggingService.project_id p
      /\ UsageLogs.proxy_key_id r = UsageLoggingService.proxy_key_id p
      /\ UsageLogs.model r = UsageLoggingService.usage_model u
      /\ UsageLogs.tokens_prompt r = UsageLoggingService.usage_prompt_tokens u
      /\ UsageLogs.tokens_completion r = UsageLoggingService.usage_completion_tokens u
      /\ (0 <= UsageLogs.tokens_prompt r)%Z
      /\ (0 <= UsageLogs.tokens_completion r)%Z
      /\ UsageLogs.cost_usd r
         = PricingService.calculateCost (UsageLogs.model r)
             (UsageLogs.tokens_prompt r) (UsageLogs.tokens_completion r)
      /\ UsageLogs.price_prompt_per_million r
         = PricingService.prompt_per_million
             (PricingService.getModelPricing (UsageLogs.model r))
      /\ UsageLogs.price_completion_per_million r
         = PricingService.completion_per_million
             (PricingService.getModelPricing (UsageLogs.model r))
      /\ UsageLogs.currency r = "USD"
      /\ UsageLogs.status r = "success"
      /\ UsageLogs.request_id r <> ""
  end.
Proof.
  unfold UsageLoggingService.logUsage.
  destruct (_ || _ || _ || _ || _)%bool eqn:Hreq; [reflexivity|].
  destruct ((_ <? 0)%Z || (_ <? 0)%Z)%bool eqn:Hneg; [reflexivity|].
  destruct (UsageLoggingService.usage_insert f) as [[? ?|?]|]; try reflexivity.
  match goal with
  | |- context [BudgetService.checkBudgets ?a ?b ?st ?o ?q] =>
      destruct (checkBudgets_appends a b st o q)
        as (Ho & Hp & Hk & Hu & added & Ha & Hlen & Hadded)
  end.
  apply orb_false_elim in Hneg as [Hn1 Hn2].
  apply Z.ltb_ge in Hn1, Hn2.
  repeat (apply orb_false_elim in Hreq as [Hreq ?]).
  apply String.eqb_neq in Hreq.
  rewrite Ho, Hp, Hk, Hu, Ha. cbn.
  split; [reflexivity|]. split; [reflexivity|]. split; [reflexivity|].
  split; [reflexivity|]. split.
  - exists added. split; [reflexivity|]. split; [exact Hlen|].
    intros a Hin. exact (proj1 (Hadded a Hin)).
  - repeat split; assumption.
Qed.

Lemma extractUsageFromResponse_some body u :
  UsageLoggingService.extractUsageFromResponse body = Some u ->
  body_model body = Some (UsageLoggingService.usage_model u)
  /\ UsageLoggingService.usage_model u <> ""
  /\ exists t,
       body_usage body
       = Some {| prompt_tokens := Num (UsageLoggingService.usage_prompt_tokens u);
                 completion_tokens :=
                   Num (UsageLoggingService.usage_completion_tokens u);
                 total_tokens := t |}.
Proof.
  unfold UsageLoggingService.extractUsageFromResponse.
  destruct (body_model body) as [m|]; [|discriminate].
  destruct (m =? "") eqn:Em; [discriminate|]. apply String.eqb_neq in Em.
  destruct (body_usage body) as [[pt ct tt]|]; [|discriminate].
  cbn. destruct pt; try discriminate. destruct ct; try discriminate.
  intros [= <-]. cbn. repeat split; auto. now exists tt.
Qed.

(** X16. A request answered with status 200 is metered at most once. If
    the answer carries no usage telemetry (no model, no [usage] object, or
    token counts that are not numbers) nothing is written. If it does, the
    counts are non-negative, the identifiers are non-empty and the
    datastore accepts the insert, exactly one row is appended to the usage
    ledger: it carries the trace identifier of the request, the verified
    key's organization, project and id, the model and counts of the answer
    and their cost. Either way the response is returned. *)
Theorem successful_call_is_metered_once
        (aes : EncryptionService.Aead) (hmac : string -> string -> string)
        (env : OpenAIProxyService.environment) (stamp : string) (s : datastore)
        (proxyKey : string) (requestBody : OpenAIProxyService.request_body)
        (requestHeaders : list (string * string))
        (key : ProxyKeyService.key_info) (call : OpenAIProxyService.outbound)
        (upstream : http_response) :
  OpenAIProxyService.prepare hmac env s proxyKey requestBody requestHeaders
  = Returns (key, call) ->
  OpenAIProxyService.axios_post env call = Returns upstream ->
  status upstream = 200%Z ->
  let after :=
    fst (fst (OpenAIProxyService.proxyChatCompletion hmac env stamp s proxyKey
                requestBody requestHeaders)) in
  (UsageLoggingService.extractUsageFromResponse (data upstream) = None -> after = s)
  /\ (forall u,
        UsageLoggingService.extractUsageFromResponse (data upstream) = Some u ->
        UsageLoggingService.usage_insert (OpenAIProxyService.ledger env) = None ->
        OpenAIProxyService.randomUUID env <> "" ->
        ProxyKeyService.organization_id key <> "" ->
        ProxyKeyService.project_id key <> "" ->
        ProxyKeyService.id key <> "" ->
        (0 <= UsageLoggingService.usage_prompt_tokens u)%Z ->
        (0 <= UsageLoggingService.usage_completion_tokens u)%Z ->
        exists r,
          usage_logs after = (usage_logs s ++ [r])%list
          /\ UsageLogs.request_id r = OpenAIProxyService.randomUUID env
          /\ UsageLogs.organization_id r = ProxyKeyService.organization_id key
          /\ UsageLogs.project_id r = ProxyKeyService.project_id key
          /\ UsageLogs.proxy_key_id r = ProxyKeyService.id key
          /\ body_model (data upstream) = Some (UsageLogs.model r)
          /\ UsageLogs.tokens_prompt r = UsageLoggingService.usage_prompt_tokens u
          /\ UsageLogs.tokens_completion r
             = UsageLoggingService.usage_completion_tokens u
          /\ UsageLogs.cost_usd r
             = PricingService.calculateCost (UsageLogs.model r)
                 (UsageLogs.tokens_prompt r) (UsageLogs.tokens_completion r))
  /\ exists r,
       snd (OpenAIProxyService.proxyChatCompletion hmac env stamp s proxyKey
              requestBody requestHeaders) = Returns r
       /\ OpenAIProxyService.response r = data upstream.
Proof.
  intros Hprep Hpost Hstatus. cbv zeta.
  unfold OpenAIProxyService.proxyChatCompletion.
  rewrite Hprep, Hpost, Hstatus. cbn [Z.eqb Pos.eqb fst snd].
  unfold UsageLoggingService.logFromOpenAIResponse.
  split; [|split].
  - intros ->. reflexivity.
  - intros u Hu Hins Hid Horg Hproj Hkey Hp Hc. rewrite Hu.
    destruct (extractUsageFromResponse_some _ _ Hu) as (Hmodel & Hmne & _).
    unfold UsageLoggingService.logUsage.
    cbn [UsageLoggingService.request_id UsageLoggingService.organization_id
         UsageLoggingService.project_id UsageLoggingService.proxy_key_id].
    rewrite (eqb_empty_false _ Hid), (eqb_empty_false _ Horg),
      (eqb_empty_false _ Hproj), (eqb_empty_false _ Hkey),
      (eqb_empty_false _ Hmne).
    assert (N1 : (UsageLoggingService.usage_prompt_tokens u <? 0)%Z = false)
      by now apply Z.ltb_ge.
    assert (N2 : (UsageLoggingService.usage_completion_tokens u <? 0)%Z = false)
      by now apply Z.ltb_ge.
    rewrite N1, N2, Hins. cbn [orb].
    match goal with
    | |- context [BudgetService.checkBudgets ?a ?b ?st ?o ?q] =>
        destruct (checkBudgets_keeps_tables a b st o q) as (_ & _ & _ & Hu')
    end.
    eexists. rewrite Hu'. cbn [usage_logs with_usage_logs].
    split; [reflexivity|]. cbn. rewrite Hmodel. repeat split.
  - eexists. split; reflexivity.
Qed.

Lemma successful_call_is_metered_once_witness :
  let after :=
    fst (fst (OpenAIProxyService.proxyChatCompletion
                (aes := EncryptionService.toy_aead) toy_hmac demo_env demo_now
                demo_proxy_store "sk-spendai-abc" demo_request [])) in
  status demo_upstream = 200%Z
  /\ exists r,
       usage_logs after = (usage_logs demo_proxy_store ++ [r])%list
       /\ UsageLogs.request_id r = "550e8400-e29b-41d4-a716-446655440000"
       /\ UsageLogs.proxy_key_id r = "key-1"
       /\ UsageLogs.cost_usd r = PricingService.calculateCost "gpt-4" 1000 1000.
Proof.
  cbv zeta. split; [reflexivity|].
  destruct (successful_call_is_metered_once EncryptionService.toy_aead toy_hmac
              demo_env demo_now demo_proxy_store "sk-spendai-abc" demo_request []
              _ _ demo_upstream eq_refl eq_refl eq_refl) as (_ & Hlog & _).
  destruct (Hlog {| UsageLoggingService.usage_model := "gpt-4";
                    UsageLoggingService.usage_prompt_tokens := 1000;
                    UsageLoggingService.usage_completion_tokens := 1000;
                    UsageLoggingService.usage_total_tokens := Num 2000 |})
    as (r & Hr & Hid & _ & _ & Hkey & Hmodel & Hp & Hc & Hcost);
    [reflexivity | reflexivity | cbn; discriminate | cbn; discriminate
     | cbn; discriminate | cbn; discriminate | cbn; lia | cbn; lia | ].
  exists r. split; [exact Hr|]. split; [exact Hid|]. split; [exact Hkey|].
  cbn in Hmodel. injection Hmodel as Hm. cbn in Hp, Hc.
  now rewrite Hcost, <- Hm, Hp, Hc.
Defined.

(** ** Issuing, verifying and revoking proxy keys *)

(** X17. [verifyProxyKey] returns a credential only when the lookup
    succeeded and the table holds an active row whose stored fingerprint
    equals, byte for byte, the fingerprint of the presented secret; the
    credential it returns is that row's id, organization and project. *)
Theorem verifyProxyKey_sound
        (hmac : string -> string -> string) (secret : option string)
        (fault : option Db.fault) (table : list ProxyKeys.row) (keyValue : string)
        (info : ProxyKeyService.key_info) :
  ProxyKeyService.verifyProxyKey hmac secret fault table keyValue = Returns info ->
  fault = None
  /\ exists row keyHash,
       In row table
       /\ ProxyKeys.is_active row = true
       /\ ProxyKeyService.hashKeyValue hmac secret keyValue = Returns keyHash
       /\ Buffer.from_hex (ProxyKeys.key_value row) = Buffer.from_hex keyHash
       /\ info = {| ProxyKeyService.id := ProxyKeys.id row;
                    ProxyKeyService.organization_id := ProxyKeys.organization_id row;
                    ProxyKeyService.project_id := ProxyKeys.project_id row;
                    ProxyKeyService.is_active := true |}.
Proof.
  unfold ProxyKeyService.verifyProxyKey, ProxyKeyService.verifyProxyKey_try.
  destruct (ProxyKeyService.hashKeyValue hmac secret keyValue) as [keyHash|] eqn:Hh;
    [|discriminate].
  cbn [bind]. destruct fault as [[? ?|?]|]; try discriminate.
  cbn [bind]. destruct (filter ProxyKeys.is_active table) as [|k0 ks] eqn:Hkeys;
    [discriminate|].
  destruct (find (ProxyKeyService.matches keyHash) (k0 :: ks)) as [row|] eqn:Hfind;
    [|discriminate].
  apply find_some in Hfind as [Hin Hmatch]. rewrite <- Hkeys in Hin.
  apply filter_In in Hin as [Hin Hactive]. rewrite Hactive. cbn [negb rethrow].
  intros [= <-]. split; [reflexivity|].
  exists row, keyHash. repeat split; try assumption.
  unfold ProxyKeyService.matches in Hmatch. apply andb_prop in Hmatch as [_ Hb].
  revert Hb. generalize (Buffer.from_hex (ProxyKeys.key_value row)),
               (Buffer.from_hex keyHash).
  induction l as [|x l IH]; intros [|y l']; cbn; try discriminate; [reflexivity|].
  intros H. apply andb_prop in H as [Hx Hl].
  apply Byte.byte_dec_bl in Hx. subst y. f_equal. now apply IH.
Qed.

Lemma verifyProxyKey_sound_witness :
  ProxyKeyService.verifyProxyKey toy_hmac (Some "pepper") None
    [demo_key true None] "sk-spendai-abc"
  = Returns {| ProxyKeyService.id := "key-1";
               ProxyKeyService.organization_id := "org-1";
               ProxyKeyService.project_id := "proj-1";
               ProxyKeyService.is_active := true |}
  /\ exists row keyHash,
       In row [demo_key true None]
       /\ ProxyKeys.is_active row = true
       /\ ProxyKeyService.hashKeyValue toy_hmac (Some "pepper") "sk-spendai-abc"
          = Returns keyHash
       /\ Buffer.from_hex (ProxyKeys.key_value row) = Buffer.from_hex keyHash.
Proof.
  assert (H : ProxyKeyService.verifyProxyKey toy_hmac (Some "pepper") None
                [demo_key true None] "sk-spendai-abc"
              = Returns {| ProxyKeyService.id := "key-1";
                           ProxyKeyService.organization_id := "org-1";
                           ProxyKeyService.project_id := "proj-1";
                           ProxyKeyService.is_active := true |})
    by (vm_compute; reflexivity).
  split; [exact H|].
  destruct (verifyProxyKey_sound _ _ _ _ _ _ H) as (_ & row & keyHash & H1 & H2 & H3 & H4 & _).
  exists row, keyHash. auto.
Defined.

(** A digest in hexadecimal, as [digest('hex')] produces it. *)
Definition hex_digest (hmac : string -> string -> string) : Prop :=
  forall secret keyValue, exists bs, hmac secret keyValue = Buffer.toString_hex bs.

Definition is_digest (s : string) : Prop := exists bs, s = Buffer.toString_hex bs.

(** The fingerprints of a table: unique (the [UNIQUE] constraint on
    [key_value]) and hexadecimal digests. *)
Definition fingerprints_ok (table : list ProxyKeys.row) : Prop :=
  NoDup (map ProxyKeys.key_value table)
  /\ forall k, In k table -> is_digest (ProxyKeys.key_value k).

Lemma bytes_eqb_true a : forall b, Buffer.bytes_eqb a b = true -> a = b.
Proof.
  induction a as [|x a IH]; intros [|y b]; cbn; try discriminate; [reflexivity|].
  intros H. apply andb_prop in H as [Hx Hl].
  apply Byte.byte_dec_bl in Hx. subst y. f_equal. now apply IH.
Qed.

Lemma matches_digest keyHash k :
  is_digest keyHash -> is_digest (ProxyKeys.key_value k) ->
  ProxyKeyService.matches keyHash k = true -> ProxyKeys.key_value k = keyHash.
Proof.
  intros [b1 ->] [b2 E] H. unfold ProxyKeyService.matches in H.
  apply andb_prop in H as [_ H]. apply bytes_eqb_true in H.
  rewrite E in *. rewrite !from_hex_toString_hex in H. now subst.
Qed.

Lemma matches_same keyHash k :
  ProxyKeys.key_value k = keyHash -> ProxyKeyService.matches keyHash k = true.
Proof.
  intros <-. unfold ProxyKeyService.matches.
  now rewrite Nat.eqb_refl, EncryptionService.bytes_eqb_refl.
Qed.

Lemma createProxyKey_cases hmac secret rb new_id fault table o p u n :
  (fst (ProxyKeyService.createProxyKey hmac secret rb new_id fault table o p u n) = table
   /\ exists e, snd (ProxyKeyService.createProxyKey hmac secret rb new_id fault
                       table o p u n) = Throws e)
  \/ exists r,
       ProxyKeyService.createProxyKey hmac secret rb new_id fault table o p u n
       = ((table ++ [r])%list,
          Returns {| ProxyKeyService.created_row := r;
                     ProxyKeyService.keyValue := ProxyKeyService.generateKeyValue rb;
                     ProxyKeyService.masked :=
                       ProxyKeyService.maskKeyValue
                         (ProxyKeyService.generateKeyValue rb) |})
       /\ ProxyKeyService.hashKeyValue hmac secret (ProxyKeyService.generateKeyValue rb)
          = Returns (ProxyKeys.key_value r)
       /\ ProxyKeys.id r = new_id
       /\ ProxyKeys.organization_id r = o
       /\ ProxyKeys.project_id r = p
       /\ ProxyKeys.is_active r = true
       /\ ProxyKeys.revoked_at r = None
       /\ (forall k, In k table -> ProxyKeys.id k <> new_id)
       /\ (forall k, In k table -> ProxyKeys.key_value k <> ProxyKeys.key_value r).
Proof.
  unfold ProxyKeyService.createProxyKey.
  destruct (ProxyKeyService.hashKeyValue hmac secret _) as [keyHash|] eqn:Hh;
    [|left; cbn; eauto].
  destruct fault as [[? ?|?]|]; try solve [left; cbn; eauto].
  destruct (existsb _ table) eqn:Hex; [left; cbn; eauto|].
  right. eexists. split; [reflexivity|]. cbn.
  assert (Fresh : forall k, In k table ->
                    (ProxyKeys.id k =? new_id) || (ProxyKeys.key_value k =? keyHash)
                    = false).
  { intros k Hk. destruct (_ || _)%bool eqn:E; [|reflexivity].
    assert (existsb (fun k0 => (ProxyKeys.id k0 =? new_id)
                               || (ProxyKeys.key_value k0 =? keyHash)) table = true)
      by (apply existsb_exists; eauto).
    congruence. }
  repeat split; intros k Hk Heq; specialize (Fresh k Hk);
    apply orb_false_elim in Fresh as [F1 F2];
    [apply String.eqb_neq in F1 | apply String.eqb_neq in F2]; contradiction.
Qed.

Lemma NoDup_snoc {A} (l : list A) x : NoDup l -> ~ In x l -> NoDup (l ++ [x]).
Proof.
  intros Hnd Hx. apply (NoDup_Add (a := x) (l := l)).
  - rewrite <- (app_nil_r l) at 1. apply Add_app.
  - now split.
Qed.

Lemma map_revoke_row_fingerprints now keyId organizationId table :
  map ProxyKeys.key_value (map (revoke_row now keyId organizationId) table)
  = map ProxyKeys.key_value table.
Proof.
  rewrite map_map. apply map_ext. intros r. unfold revoke_row.
  now destruct (ProxyKeyService.targets _ _ _).
Qed.

Lemma step_fingerprints_ok hmac secret table op :
  hex_digest hmac -> fingerprints_ok table ->
  fingerprints_ok (ProxyKeyService.step hmac secret table op).
Proof.
  intros Hd [Hnd Hall]. destruct op as [rb i f o p u n|t f k o]; cbn.
  - destruct (createProxyKey_cases hmac secret rb i f table o p u n)
      as [[-> _]|(r & -> & Hh & _ & _ & _ & _ & _ & _ & Hfresh)]; [now split|].
    cbn [fst]. split.
    + rewrite map_app. cbn [map]. apply NoDup_snoc; [exact Hnd|].
      intros Hin. apply in_map_iff in Hin as (y & Hy & Hin).
      now apply (Hfresh y Hin).
    + intros x Hx. apply in_app_or in Hx as [Hx|[<-|[]]]; [now apply Hall|].
      unfold ProxyKeyService.hashKeyValue in Hh.
      destruct (ProxyKeyService.getServerSecret secret) as [sec|]; [|discriminate].
      cbn in Hh. injection Hh as <-. apply Hd.
  - destruct (revokeProxyKey_table t f table k o) as [->| ->]; [now split|].
    split.
    + now rewrite map_revoke_row_fingerprints.
    + intros x Hx. apply in_map_iff in Hx as (y & <- & Hy).
      unfold revoke_row. destruct (ProxyKeyService.targets _ _ _); cbn;
        now apply Hall.
Qed.

Lemma run_fingerprints_ok hmac secret ops : forall table,
  hex_digest hmac -> fingerprints_ok table ->
  fingerprints_ok (ProxyKeyService.run hmac secret ops table).
Proof.
  unfold ProxyKeyService.run.
  induction ops as [|op ops IH]; intros table Hd H; cbn; [exact H|].
  apply IH; [exact Hd|]. now apply step_fingerprints_ok.
Qed.

Lemma fingerprints_ok_nil : fingerprints_ok [].
Proof. split; [constructor | intros k []]. Qed.

Lemma find_app_none {A} (f : A -> bool) l1 l2 :
  (forall x, In x l1 -> f x = false) -> find f (l1 ++ l2) = find f l2.
Proof.
  induction l1 as [|x l1 IH]; cbn; [reflexivity|].
  intros H. rewrite (H x (or_introl eq_refl)). apply IH. auto.
Qed.

(** X18. A key verifies right after it was issued. On any table built by
    [createProxyKey] and [revokeProxyKey] calls, when [createProxyKey]
    succeeds, [verifyProxyKey] of the key value it handed out (same server
    secret, lookup succeeding) returns the new credential: its id, the
    organization and the project it was created for. The digest function is
    any function into hexadecimal encodings. *)
Theorem verify_after_create
        (hmac : string -> string -> string) (secret : option string)
        (ops : list ProxyKeyService.operation)
        (rb : list Byte.byte) (new_id : string) (fault : option Db.fault)
        (organizationId projectId userId name : string)
        (table' : list ProxyKeys.row) (created : ProxyKeyService.created_key) :
  hex_digest hmac ->
  ProxyKeyService.createProxyKey hmac secret rb new_id fault
    (ProxyKeyService.run hmac secret ops []) organizationId projectId userId name
  = (table', Returns created) ->
  ProxyKeyService.verifyProxyKey hmac secret None table'
    (ProxyKeyService.keyValue created)
  = Returns {| ProxyKeyService.id := new_id;
               ProxyKeyService.organization_id := organizationId;
               ProxyKeyService.project_id := projectId;
               ProxyKeyService.is_active := true |}.
Proof.
  intros Hd Hcreate.
  set (table := ProxyKeyService.run hmac secret ops []) in *.
  destruct (run_fingerprints_ok hmac secret ops [] Hd fingerprints_ok_nil)
    as [_ Hdig]. fold table in Hdig.
  destruct (createProxyKey_cases hmac secret rb new_id fault table
              organizationId projectId userId name)
    as [[_ [e He]]|(r & E & Hh & Hid & Ho & Hp & Ha & _ & _ & Hfresh)].
  { rewrite Hcreate in He. discriminate. }
  rewrite Hcreate in E. injection E as -> ->. cbn [ProxyKeyService.keyValue].
  unfold ProxyKeyService.verifyProxyKey, ProxyKeyService.verifyProxyKey_try.
  rewrite Hh. cbn [bind].
  rewrite filter_app. cbn [filter]. rewrite Ha.
  assert (Hr : is_digest (ProxyKeys.key_value r)).
  { unfold ProxyKeyService.hashKeyValue in Hh.
    destruct (ProxyKeyService.getServerSecret secret) as [sec|]; [|discriminate].
    cbn in Hh. injection Hh as <-. apply Hd. }
  assert (Hfind : find (ProxyKeyService.matches (ProxyKeys.key_value r))
                    (filter ProxyKeys.is_active table ++ [r]) = Some r).
  { rewrite find_app_none.
    - cbn. now rewrite (matches_same _ r eq_refl).
    - intros x Hx. apply filter_In in Hx as [Hx _].
      destruct (ProxyKeyService.matches (ProxyKeys.key_value r) x) eqn:Hm;
        [|reflexivity].
      exfalso. apply (Hfresh x Hx).
      apply matches_digest; [exact Hr | now apply Hdig | exact Hm]. }
  destruct (filter ProxyKeys.is_active table ++ [r])%list as [|k0 ks] eqn:Hkeys.
  { destruct (filter ProxyKeys.is_active table); discriminate. }
  rewrite Hfind, Ha. cbn. now rewrite Hid, Ho, Hp.
Qed.

Lemma toy_hmac_hex_digest : hex_digest toy_hmac.
Proof. intros secret keyValue. unfold toy_hmac. eauto. Qed.

Lemma verify_after_create_witness :
  hex_digest toy_hmac
  /\ exists table' created,
       ProxyKeyService.createProxyKey toy_hmac (Some "pepper")
         [Byte.x0a; Byte.x0b] "key-2" None
         (ProxyKeyService.run toy_hmac (Some "pepper")
            [ProxyKeyService.Create [Byte.x01] "key-1" None "org-1" "proj-1" "user-1" ""]
            [])
         "org-1" "proj-1" "user-1" "ci"
       = (table', Returns created)
       /\ ProxyKeyService.keyValue created = "sk-spendai-0a0b"
       /\ ProxyKeyService.verifyProxyKey toy_hmac (Some "pepper") None table'
            "sk-spendai-0a0b"
          = Returns {| ProxyKeyService.id := "key-2";
                       ProxyKeyService.organization_id := "org-1";
                       ProxyKeyService.project_id := "proj-1";
                       ProxyKeyService.is_active := true |}.
Proof.
  split; [exact toy_hmac_hex_digest|].
  eexists. eexists. split; [vm_compute; reflexivity|]. split; [reflexivity|].
  exact (verify_after_create toy_hmac (Some "pepper")
           [ProxyKeyService.Create [Byte.x01] "key-1" None "org-1" "proj-1" "user-1" ""]
           [Byte.x0a; Byte.x0b] "key-2" None "org-1" "proj-1" "user-1" "ci"
           _ _ toy_hmac_hex_digest eq_refl).
Defined.

Lemma revokeProxyKey_success now fault table keyId organizationId table' r :
  ProxyKeyService.revokeProxyKey now fault table keyId organizationId
  = (table', Returns r) ->
  fault = None
  /\ table' = map (revoke_row now keyId organizationId) table
  /\ exists k, filter (ProxyKeyService.targets keyId organizationId) table = [k]
               /\ r = ProxyKeyService.revoked now k.
Proof.
  unfold ProxyKeyService.revokeProxyKey.
  destruct fault as [[? ?|?]|]; try discriminate.
  destruct (filter _ table) as [|k [|k' ks]]; try discriminate.
  intros [= <- <-]. split; [reflexivity|]. split; [reflexivity|]. eauto.
Qed.

Lemma verifyProxyKey_no_active_match hmac secret fault table keyValue keyHash :
  ProxyKeyService.hashKeyValue hmac secret keyValue = Returns keyHash ->
  (forall k, In k table -> ProxyKeyService.matches keyHash k = true ->
             ProxyKeys.is_active k = false) ->
  ProxyKeyService.verifyProxyKey hmac secret fault table keyValue
  = Throws (Error "Invalid or revoked proxy key").
Proof.
  intros Hh Hinactive.
  unfold ProxyKeyService.verifyProxyKey, ProxyKeyService.verifyProxyKey_try.
  rewrite Hh. cbn [bind]. destruct fault as [[? ?|?]|]; [reflexivity | reflexivity |].
  cbn [bind]. destruct (filter ProxyKeys.is_active table) as [|k0 ks] eqn:Hkeys;
    [reflexivity|].
  destruct (find (ProxyKeyService.matches keyHash) (k0 :: ks)) as [k|] eqn:Hfind;
    [|reflexivity].
  apply find_some in Hfind as [Hin Hmatch]. rewrite <- Hkeys in Hin.
  apply filter_In in Hin as [Hin Hactive].
  rewrite (Hinactive k Hin Hmatch) in Hactive. discriminate.
Qed.

(** X19. A key stops verifying once it is revoked. On any table built by
    [createProxyKey] and [revokeProxyKey] calls, after a successful
    [revokeProxyKey] of the credential whose stored fingerprint is that of
    a secret, [verifyProxyKey] of that secret throws the generic
    authentication error, whether the lookup fails or not. *)
Theorem verify_after_revoke
        (hmac : string -> string -> string) (secret : option string)
        (ops : list ProxyKeyService.operation)
        (k : ProxyKeys.row) (keyValue now : string)
        (fault fault' : option Db.fault)
        (table' : list ProxyKeys.row) (r : ProxyKeys.row) :
  hex_digest hmac ->
  In k (ProxyKeyService.run hmac secret ops []) ->
  ProxyKeyService.hashKeyValue hmac secret keyValue
  = Returns (ProxyKeys.key_value k) ->
  ProxyKeyService.revokeProxyKey now fault (ProxyKeyService.run hmac secret ops [])
    (ProxyKeys.id k) (ProxyKeys.organization_id k) = (table', Returns r) ->
  ProxyKeyService.verifyProxyKey hmac secret fault' table' keyValue
  = Throws (Error "Invalid or revoked proxy key").
Proof.
  intros Hd Hk Hh Hrevoke.
  set (table := ProxyKeyService.run hmac secret ops []) in *.
  destruct (run_fingerprints_ok hmac secret ops [] Hd fingerprints_ok_nil)
    as [Hnd Hdig]. fold table in Hnd, Hdig.
  apply revokeProxyKey_success in Hrevoke as (_ & -> & _).
  apply (verifyProxyKey_no_active_match _ _ _ _ _ _ Hh).
  intros x Hx Hm. apply in_map_iff in Hx as (y & <- & Hy).
  assert (Hkv : ProxyKeys.key_value (revoke_row now (ProxyKeys.id k)
                                       (ProxyKeys.organization_id k) y)
                = ProxyKeys.key_value y).
  { unfold revoke_row. now destruct (ProxyKeyService.targets _ _ _). }
  assert (Hsame : ProxyKeys.key_value y = ProxyKeys.key_value k).
  { rewrite <- Hkv. apply matches_digest; [now apply Hdig | | exact Hm].
    rewrite Hkv. now apply Hdig. }
  assert (y = k) as ->
      by (apply (map_injective_on ProxyKeys.key_value table); assumption).
  unfold revoke_row, ProxyKeyService.targets. now rewrite !String.eqb_refl.
Qed.

Lemma verify_after_revoke_witness :
  let table :=
    ProxyKeyService.run toy_hmac (Some "pepper")
      [ProxyKeyService.Create [Byte.x0a; Byte.x0b] "key-1" None
         "org-1" "proj-1" "user-1" ""] [] in
  ProxyKeyService.verifyProxyKey toy_hmac (Some "pepper") None table "sk-spendai-0a0b"
  = Returns {| ProxyKeyService.id := "key-1";
               ProxyKeyService.organization_id := "org-1";
               ProxyKeyService.project_id := "proj-1";
               ProxyKeyService.is_active := true |}
  /\ exists table' r,
       ProxyKeyService.revokeProxyKey demo_now None table "key-1" "org-1"
       = (table', Returns r)
       /\ ProxyKeyService.verifyProxyKey toy_hmac (Some "pepper") None table'
            "sk-spendai-0a0b"
          = Throws (Error "Invalid or revoked proxy key").
Proof.
  cbv zeta. split; [vm_compute; reflexivity|].
  eexists. eexists. split; [vm_compute; reflexivity|].
  refine (verify_after_revoke toy_hmac (Some "pepper")
            [ProxyKeyService.Create [Byte.x0a; Byte.x0b] "key-1" None
               "org-1" "proj-1" "user-1" ""]
            {| ProxyKeys.id := "key-1";
               ProxyKeys.organization_id := "org-1";
               ProxyKeys.project_id := "proj-1";
               ProxyKeys.key_value := toy_hmac "pepper" "sk-spendai-0a0b";
               ProxyKeys.name := "sk-****0a0b";
               ProxyKeys.is_active := true;
               ProxyKeys.created_by := "user-1";
               ProxyKeys.revoked_at := None |}
            "sk-spendai-0a0b" demo_now None None _ _ toy_hmac_hex_digest _ _ _).
  - vm_compute. left. reflexivity.
  - vm_compute. reflexivity.
  - vm_compute. reflexivity.
Defined.

Lemma toString_hex_length bs :
  String.length (Buffer.toString_hex bs) = (2 * List.length bs)%nat.
Proof.
  induction bs as [|b bs IH]; [reflexivity|].
  cbn [Buffer.toString_hex List.length]. unfold Buffer.byte_to_hex.
  cbn [append String.length]. rewrite IH. lia.
Qed.

(** X20. [generateKeyValue] keeps all the randomness it is given: the key
    is [sk-spendai-] followed by two hexadecimal characters per random
    byte (75 characters for the 32 bytes drawn), and different draws give
    different keys. *)
Theorem generateKeyValue_injective (rb rb' : list Byte.byte) :
  String.prefix "sk-spendai-" (ProxyKeyService.generateKeyValue rb) = true
  /\ String.length (ProxyKeyService.generateKeyValue rb)
     = (11 + 2 * List.length rb)%nat
  /\ (ProxyKeyService.generateKeyValue rb = ProxyKeyService.generateKeyValue rb' ->
      rb = rb').
Proof.
  unfold ProxyKeyService.generateKeyValue. split; [apply prefix_append|]. split.
  - cbn [append String.length]. now rewrite toString_hex_length.
  - intros H. cbn [append] in H. injection H as H.
    apply (f_equal Buffer.from_hex) in H. now rewrite !from_hex_toString_hex in H.
Qed.

Lemma generateKeyValue_injective_witness :
  ProxyKeyService.generateKeyValue [Byte.x0a; Byte.x0b]
  = ProxyKeyService.generateKeyValue [Byte.x0a; Byte.x0b]
  /\ [Byte.x0a; Byte.x0b] = [Byte.x0a; Byte.x0b].
Proof.
  split; [reflexivity|].
  exact (proj2 (proj2 (generateKeyValue_injective [Byte.x0a; Byte.x0b]
                         [Byte.x0a; Byte.x0b])) eq_refl).
Defined.

(** ** Alerts are raised once *)

(** The row [recordAlert] inserts. *)
Lemma collides_refl r : Alerts.collides r r = true.
Proof.
  unfold Alerts.collides. destruct (Alerts.project_id r);
    now rewrite !String.eqb_refl, Z.eqb_refl.
Qed.

Lemma recordAlert_known now table p :
  existsb (Alerts.collides (alert_row now p)) table = true ->
  AlertService.recordAlert now None table p = (table, AlertService.AlreadySent).
Proof.
  intros H. unfold AlertService.recordAlert, Alerts.insert.
  fold (alert_row now p). now rewrite H.
Qed.

Lemma recordAlert_leaves_row now table p :
  existsb (Alerts.collides (alert_row now p))
          (fst (AlertService.recordAlert now None table p)) = true.
Proof.
  unfold AlertService.recordAlert, Alerts.insert. fold (alert_row now p).
  destruct (existsb (Alerts.collides (alert_row now p)) table) eqn:H; cbn [fst].
  - exact H.
  - rewrite existsb_app. cbn. now rewrite collides_refl, orb_true_r.
Qed.

Lemma run_known now p n : forall table,
  existsb (Alerts.collides (alert_row now p)) table = true ->
  AlertService.run
    (repeat {| AlertService.call_now := now;
               AlertService.call_fault := None;
               AlertService.call_params := p |} n) table = table.
Proof.
  induction n as [|n IH]; intros table H; [reflexivity|].
  cbn [repeat AlertService.run AlertService.call_now AlertService.call_fault
       AlertService.call_params].
  rewrite (recordAlert_known now table p H). cbn [fst]. now apply IH.
Qed.

(** X21. Raising the same alert again is a no-op: after one fault-free
    [recordAlert], the table holds a row of that scope, threshold and month;
    a second call with the same parameters in the same month returns
    [already_sent] and leaves the table as the first call left it, and so
    does any number of repetitions. *)
Theorem recordAlert_idempotent
        (now : string) (table : list Alerts.row) (p : AlertService.params) :
  let once := fst (AlertService.recordAlert now None table p) in
  let call := {| AlertService.call_now := now;
                 AlertService.call_fault := None;
                 AlertService.call_params := p |} in
  existsb (Alerts.has_triple (params_scope p) (AlertService.threshold_percent p)
             (String.substring 0 7 now)) once = true
  /\ AlertService.recordAlert now None once p = (once, AlertService.AlreadySent)
  /\ forall n, AlertService.run (repeat call (S n)) table = once.
Proof.
  cbv zeta.
  pose proof (recordAlert_leaves_row now table p) as Hrow.
  split; [|split].
  - rewrite <- Hrow. apply existsb_pointwise. intros x.
    now rewrite collides_has_triple.
  - now apply recordAlert_known.
  - intros n.
    cbn [repeat AlertService.run AlertService.call_now AlertService.call_fault
         AlertService.call_params].
    now apply run_known.
Qed.

Lemma walk_settled ts now e : forall table extra,
  fst (BudgetService.walk ts now None
         (fst (BudgetService.walk ts now None table e) ++ extra)%list e)
  = (fst (BudgetService.walk ts now None table e) ++ extra)%list.
Proof.
  induction ts as [|t ts IH]; intros table extra; cbn [BudgetService.walk].
  - reflexivity.
  - destruct (BudgetService.reached _ _); [|apply IH].
    cbn [fst]. rewrite recordAlert_known; [reflexivity|].
    rewrite existsb_app. now rewrite recordAlert_leaves_row.
Qed.

Lemma getOrgBudget_alerts f c s a organizationId :
  BudgetService.getOrgBudget f c (with_alerts s a) organizationId
  = BudgetService.getOrgBudget f c s organizationId.
Proof. reflexivity. Qed.

Lemma getProjectBudget_alerts f c s a projectId :
  BudgetService.getProjectBudget f c (with_alerts s a) projectId
  = BudgetService.getProjectBudget f c s projectId.
Proof. reflexivity. Qed.

Lemma getOrgBudget_ext f c s s' organizationId :
  organizations s' = organizations s -> usage_logs s' = usage_logs s ->
  BudgetService.getOrgBudget f c s' organizationId
  = BudgetService.getOrgBudget f c s organizationId.
Proof.
  intros Ho Hu. unfold BudgetService.getOrgBudget, BudgetService.calculateMTDSpend.
  now rewrite Ho, Hu.
Qed.

Lemma getProjectBudget_ext f c s s' projectId :
  projects s' = projects s -> usage_logs s' = usage_logs s ->
  BudgetService.getProjectBudget f c s' projectId
  = BudgetService.getProjectBudget f c s projectId.
Proof.
  intros Hp Hu. unfold BudgetService.getProjectBudget, BudgetService.calculateMTDSpend.
  now rewrite Hp, Hu.
Qed.

(** The alerts after the organization step and after the project step of a
    fault-free [checkBudgets]. *)
Definition org_alerts (c : clock) (table : list Alerts.row)
           (organizationId : string) (ceiling : option Q) (spend : Q)
  : list Alerts.row :=
  match BudgetService.positive ceiling with
  | Some b =>
      fst (BudgetService.walk BudgetService.thresholds (now c) None table
             {| BudgetService.organization_id := organizationId;
                BudgetService.project_id := None;
                BudgetService.alert_level := "organization";
                BudgetService.budget := b;
                BudgetService.actual := spend |})
  | None => table
  end.

Definition project_alerts (c : clock) (table : list Alerts.row)
           (organizationId projectId : string) (ceiling : option Q) (spend : Q)
  : list Alerts.row :=
  match BudgetService.positive ceiling with
  | Some b =>
      fst (BudgetService.walk BudgetService.thresholds (now c) None table
             {| BudgetService.organization_id := organizationId;
                BudgetService.project_id := Some projectId;
                BudgetService.alert_level := "project";
                BudgetService.budget := b;
                BudgetService.actual := spend |})
  | None => table
  end.

Lemma checkBudgets_alerts c s organizationId projectId :
  alerts (fst (BudgetService.checkBudgets BudgetService.no_faults c s
                 organizationId projectId))
  = match BudgetService.getOrgBudget BudgetService.no_faults c s organizationId with
    | Throws _ => alerts s
    | Returns (ob, os) =>
        let a1 := org_alerts c (alerts s) organizationId ob os in
        match BudgetService.getProjectBudget BudgetService.no_faults c s projectId with
        | Throws _ => a1
        | Returns (pb, ps) => project_alerts c a1 organizationId projectId pb ps
        end
    end.
Proof.
  unfold BudgetService.checkBudgets, BudgetService.evaluateThresholds,
    org_alerts, project_alerts.
  cbn [BudgetService.org_alert_insert BudgetService.project_alert_insert
       BudgetService.no_faults].
  destruct (BudgetService.getOrgBudget BudgetService.no_faults c s organizationId)
    as [[ob os]|err]; [|reflexivity].
  destruct (BudgetService.positive ob) as [b|].
  - destruct (BudgetService.walk _ _ _ (alerts s) _) as [a1 calls1]. cbn [fst].
    rewrite getProjectBudget_alerts.
    destruct (BudgetService.getProjectBudget BudgetService.no_faults c s projectId)
      as [[pb ps]|err]; [|reflexivity].
    destruct (BudgetService.positive pb) as [b2|]; [|reflexivity].
    now destruct (BudgetService.walk _ _ _ a1 _) as [a2 calls2].
  - cbv zeta. rewrite getProjectBudget_alerts.
    destruct (BudgetService.getProjectBudget BudgetService.no_faults c s projectId)
      as [[pb ps]|err]; [|reflexivity].
    destruct (BudgetService.positive pb) as [b2|]; [|reflexivity].
    now destruct (BudgetService.walk _ _ _ (alerts s) _) as [a2 calls2].
Qed.

Lemma org_alerts_settled c table organizationId ob os extra :
  org_alerts c (org_alerts c table organizationId ob os ++ extra)%list
    organizationId ob os
  = (org_alerts c table organizationId ob os ++ extra)%list.
Proof.
  unfold org_alerts. destruct (BudgetService.positive ob); [|reflexivity].
  apply walk_settled.
Qed.

Lemma project_alerts_settled c table organizationId projectId pb ps extra :
  project_alerts c (project_alerts c table organizationId projectId pb ps ++ extra)%list
    organizationId projectId pb ps
  = (project_alerts c table organizationId projectId pb ps ++ extra)%list.
Proof.
  unfold project_alerts. destruct (BudgetService.positive pb); [|reflexivity].
  apply walk_settled.
Qed.

Lemma project_alerts_extends c table organizationId projectId pb ps :
  exists extra,
    project_alerts c table organizationId projectId pb ps = (table ++ extra)%list.
Proof.
  unfold project_alerts. destruct (BudgetService.positive pb).
  - match goal with
    | |- context [BudgetService.walk ?ts ?n ?fl ?tb ?e] =>
        destruct (walk_appends ts n fl tb e) as (added & E & _)
    end.
    eauto.
  - exists []. now rewrite app_nil_r.
Qed.

(** X22. Evaluating the budgets again without new usage raises nothing
    new: after a fault-free [checkBudgets], a second fault-free call for the
    same organization and project at the same clock reading leaves the
    alerts exactly as the first call left them. *)
Theorem checkBudgets_idempotent
        (c : clock) (s : datastore) (organizationId projectId : string) :
  let once :=
    fst (BudgetService.checkBudgets BudgetService.no_faults c s
           organizationId projectId) in
  alerts (fst (BudgetService.checkBudgets BudgetService.no_faults c once
                 organizationId projectId))
  = alerts once.
Proof.
  cbv zeta.
  destruct (checkBudgets_keeps_tables BudgetService.no_faults c s
              organizationId projectId) as (Ho & Hp & _ & Hu).
  cbv zeta in Ho, Hp, Hu.
  set (once := fst (BudgetService.checkBudgets BudgetService.no_faults c s
                      organizationId projectId)) in *.
  rewrite (checkBudgets_alerts c once).
  rewrite (getOrgBudget_ext _ c s once organizationId Ho Hu).
  rewrite (getProjectBudget_ext _ c s once projectId Hp Hu).
  unfold once at 1 2 3. rewrite !checkBudgets_alerts.
  destruct (BudgetService.getOrgBudget BudgetService.no_faults c s organizationId)
    as [[ob os]|err]; [|reflexivity].
  cbv zeta.
  destruct (BudgetService.getProjectBudget BudgetService.no_faults c s projectId)
    as [[pb ps]|err].
  - destruct (project_alerts_extends c
                (org_alerts c (alerts s) organizationId ob os)
                organizationId projectId pb ps) as (extra & E).
    rewrite E at 1. rewrite org_alerts_settled. rewrite <- E.
    pose proof (project_alerts_settled c
                  (org_alerts c (alerts s) organizationId ob os)
                  organizationId projectId pb ps []) as H.
    now rewrite !app_nil_r in H.
  - pose proof (org_alerts_settled c (alerts s) organizationId ob os []) as H.
    now rewrite !app_nil_r in H.
Qed.

(** ** Month-to-date spend *)

Definition add_usage (s : datastore) (r : UsageLogs.row) : datastore :=
  with_usage_logs s (usage_logs s ++ [r])%list.

(** X23. Month-to-date spend counts only the organization's own rows of
    the current month (and of the project, when one is given): a usage row
    of another organization, a row created before the start of the month,
    or, for a project's spend, a row of another project, leaves it
    unchanged. With no usage at all the spend is 0. *)
Theorem calculateMTDSpend_scope
        (fault : option Db.fault) (c : clock) (s : datastore) (r : UsageLogs.row)
        (organizationId : string) (projectId : option string) :
  (UsageLogs.organization_id r <> organizationId
   \/ (UsageLogs.created_at r < startOfMonth c)%Z
   \/ (exists p, projectId = Some p /\ p <> "" /\ UsageLogs.project_id r <> p)) ->
  BudgetService.calculateMTDSpend fault c (add_usage s r) organizationId projectId
  = BudgetService.calculateMTDSpend fault c s organizationId projectId
  /\ (usage_logs s = [] ->
      BudgetService.calculateMTDSpend None c s organizationId projectId
      = Returns (0 / 1000000)%Q).
Proof.
  intros Hout. split.
  - unfold BudgetService.calculateMTDSpend, add_usage.
    cbn [usage_logs with_usage_logs]. rewrite filter_app. cbn [filter].
    match goal with
    | |- context [if ?b then [r] else []] =>
        assert (E : b = false); [|rewrite E; now rewrite app_nil_r]
    end.
    destruct Hout as [Ho|[Ht|(p & -> & Hp & Hr)]].
    + apply String.eqb_neq in Ho. now rewrite Ho.
    + apply Z.leb_gt in Ht. rewrite Ht. now rewrite andb_false_r.
    + apply String.eqb_neq in Hp, Hr. rewrite Hp, Hr. now rewrite andb_false_r.
  - intros He. unfold BudgetService.calculateMTDSpend. rewrite He. reflexivity.
Qed.

Lemma calculateMTDSpend_scope_witness :
  let other := {| UsageLogs.request_id := "req-9";
                  UsageLogs.organization_id := "org-2";
                  UsageLogs.project_id := "proj-9";
                  UsageLogs.proxy_key_id := "key-9";
                  UsageLogs.model := "gpt-4";
                  UsageLogs.provider := "openai";
                  UsageLogs.tokens_prompt := 10;
                  UsageLogs.tokens_completion := 10;
                  UsageLogs.cost_usd := 0.0009;
                  UsageLogs.price_prompt_per_million := Some 30%Q;
                  UsageLogs.price_completion_per_million := Some 60%Q;
                  UsageLogs.currency := "USD";
                  UsageLogs.status := "success";
                  UsageLogs.created_at := 1768000000000 |} in
  UsageLogs.organization_id other <> "org-1"
  /\ BudgetService.calculateMTDSpend None demo_clock (add_usage demo_store other)
       "org-1" None
     = BudgetService.calculateMTDSpend None demo_clock demo_store "org-1" None.
Proof.
  cbv zeta.
  match goal with
  | |- ?A /\ _ => assert (H : A) by discriminate
  end.
  split; [exact H|].
  refine (proj1 (calculateMTDSpend_scope None demo_clock demo_store _ "org-1" None _)).
  left. exact H.
Defined.

Lemma sum_filter_le (f g : UsageLogs.row -> bool) (l : list UsageLogs.row) :
  (forall r, g r = true -> f r = true) ->
  (forall r, In r l -> (0 <= UsageLogs.cost_usd r)%Q) ->
  forall a b, (a <= b)%Q ->
  (fold_left (fun acc r => acc + UsageLogs.cost_usd r) (filter g l) a
   <= fold_left (fun acc r => acc + UsageLogs.cost_usd r) (filter f l) b)%Q.
Proof.
  intros Hgf. induction l as [|r l IH]; intros Hpos a b Hab; cbn [filter].
  - exact Hab.
  - assert (Hr : (0 <= UsageLogs.cost_usd r)%Q) by (apply Hpos; now left).
    assert (Hl : forall x, In x l -> (0 <= UsageLogs.cost_usd x)%Q)
      by (intros x Hx; apply Hpos; now right).
    destruct (g r) eqn:Eg.
    + rewrite (Hgf r Eg). cbn [fold_left]. apply IH; [exact Hl | lra].
    + destruct (f r); cbn [fold_left]; apply IH; try exact Hl; lra.
Qed.

(** X24. A project never has spent more this month than its organization:
    when no usage row has a negative cost, the month-to-date spend of a
    project is at most the month-to-date spend of the organization it is
    computed under. *)
Theorem project_spend_within_organization
        (c : clock) (s : datastore) (organizationId projectId : string)
        (projectSpend orgSpend : Q) :
  (forall r, In r (usage_logs s) -> (0 <= UsageLogs.cost_usd r)%Q) ->
  BudgetService.calculateMTDSpend None c s organizationId (Some projectId)
  = Returns projectSpend ->
  BudgetService.calculateMTDSpend None c s organizationId None = Returns orgSpend ->
  (projectSpend <= orgSpend)%Q.
Proof.
  intros Hpos. unfold BudgetService.calculateMTDSpend. cbn [BudgetService.query bind].
  intros [= <-] [= <-].
  match goal with
  | |- (inject_Z (PricingService.Math_round (?x * _)) / _
        <= inject_Z (PricingService.Math_round (?y * _)) / _)%Q =>
      assert (Hxy : (x <= y)%Q)
  end.
  { apply sum_filter_le; [|exact Hpos|apply Qle_refl].
    intros r H. apply andb_prop in H as [H _]. now rewrite H. }
  match goal with
  | |- (inject_Z ?m / _ <= inject_Z ?n / _)%Q => assert (Hmn : (m <= n)%Z)
  end.
  { apply Math_round_monotone. lra. }
  rewrite Zle_Qle in Hmn.
  unfold Qdiv. change (/ 1000000)%Q with (1 # 1000000)%Q. lra.
Qed.

Lemma project_spend_within_organization_witness :
  (forall r, In r (usage_logs demo_store) -> (0 <= UsageLogs.cost_usd r)%Q)
  /\ exists projectSpend orgSpend,
       BudgetService.calculateMTDSpend None demo_clock demo_store "org-1"
         (Some "proj-1") = Returns projectSpend
       /\ BudgetService.calculateMTDSpend None demo_clock demo_store "org-1" None
          = Returns orgSpend
       /\ (projectSpend <= orgSpend)%Q.
Proof.
  assert (H : forall r, In r (usage_logs demo_store) -> (0 <= UsageLogs.cost_usd r)%Q).
  { intros r [<-|[<-|[]]]; cbn; discriminate. }
  split; [exact H|]. eexists. eexists.
  split; [reflexivity|]. split; [reflexivity|].
  exact (project_spend_within_organization demo_clock demo_store "org-1" "proj-1"
           _ _ H eq_refl eq_refl).
Defined.

(** ** Counting keys *)

Lemma filter_partition_length {A} (f g : A -> bool) (l : list A) :
  List.length (filter f l)
  = (List.length (filter (fun x => f x && g x) l)
     + List.length (filter (fun x => f x && negb (g x)) l))%nat.
Proof.
  induction l as [|x l IH]; [reflexivity|]. cbn [filter].
  destruct (f x), (g x); cbn; lia.
Qed.

Lemma filter_sub_length {A} (f g : A -> bool) (l : list A) :
  (List.length (filter (fun x => f x && g x) l) <= List.length (filter f l))%nat.
Proof. rewrite (filter_partition_length f g l). lia. Qed.

(** X25. The three numbers of [getKeyCount] fit together: when both counts
    succeed, [revoked] is the number of the project's keys that are not
    active, [active] and [revoked] add up to [total], and none is negative.
    When a count fails the call throws. *)
Theorem getKeyCount_consistent
        (totalFault activeFault : option Db.fault)
        (table : list ProxyKeys.row) (projectId organizationId : string) :
  match ProxyKeyService.getKeyCount totalFault activeFault table
          projectId organizationId with
  | Returns n =>
      totalFault = None /\ activeFault = None
      /\ ProxyKeyService.revoked_count n
         = Z.of_nat (List.length
                       (filter (fun k =>
                                  ProxyKeyService.in_project projectId organizationId k
                                  && negb (ProxyKeys.is_active k)) table))
      /\ (ProxyKeyService.active n + ProxyKeyService.revoked_count n
          = ProxyKeyService.total n)%Z
      /\ (0 <= ProxyKeyService.active n)%Z
      /\ (0 <= ProxyKeyService.revoked_count n)%Z
  | Throws _ => totalFault <> None \/ activeFault <> None
  end.
Proof.
  unfold ProxyKeyService.getKeyCount.
  destruct totalFault as [[? ?|?]|]; try (left; discriminate).
  destruct activeFault as [[? ?|?]|]; try (right; discriminate).
  cbn [ProxyKeyService.total ProxyKeyService.active ProxyKeyService.revoked_count].
  pose proof (filter_partition_length
                (ProxyKeyService.in_project projectId organizationId)
                ProxyKeys.is_active table) as H.
  repeat split; lia.
Qed.

Lemma revoke_row_elsewhere now k l :
  (forall x, In x l -> ProxyKeys.id x <> ProxyKeys.id k) ->
  map (revoke_row now (ProxyKeys.id k) (ProxyKeys.organization_id k)) l = l.
Proof.
  induction l as [|x l IH]; intros H; [reflexivity|]. cbn [map].
  rewrite IH by (intros y Hy; apply H; now right).
  unfold revoke_row, ProxyKeyService.targets.
  assert (E : (ProxyKeys.id x =? ProxyKeys.id k) = false)
    by (apply String.eqb_neq, H; now left).
  now rewrite E.
Qed.

Lemma active_after_revoke now k (P : ProxyKeys.row -> bool) : forall l,
  (forall x, P (ProxyKeyService.revoked now x) = P x) ->
  NoDup (map ProxyKeys.id l) -> In k l ->
  List.length (filter (fun x => P x && ProxyKeys.is_active x) l)
  = (List.length
       (filter (fun x => P x && ProxyKeys.is_active x)
               (map (revoke_row now (ProxyKeys.id k) (ProxyKeys.organization_id k)) l))
     + (if P k && ProxyKeys.is_active k then 1 else 0))%nat.
Proof.
  intros l HP. induction l as [|x l IH]; intros Hnd Hin; [destruct Hin|].
  inversion Hnd as [|? ? Hnotin Hnd']; subst. cbn [map filter].
  destruct Hin as [->|Hin].
  - rewrite revoke_row_elsewhere.
    + assert (Ek : revoke_row now (ProxyKeys.id k) (ProxyKeys.organization_id k) k
                   = ProxyKeyService.revoked now k).
      { unfold revoke_row, ProxyKeyService.targets. now rewrite !String.eqb_refl. }
      rewrite Ek, HP. cbn [ProxyKeys.is_active ProxyKeyService.revoked].
      rewrite andb_false_r.
      destruct (P k && ProxyKeys.is_active k); cbn [List.length]; lia.
    + intros y Hy E. apply Hnotin. rewrite <- E. now apply in_map.
  - assert (Hx : ProxyKeys.id x <> ProxyKeys.id k).
    { intros E. apply Hnotin. rewrite E. now apply in_map. }
    assert (Ex : revoke_row now (ProxyKeys.id k) (ProxyKeys.organization_id k) x = x).
    { unfold revoke_row, ProxyKeyService.targets.
      apply String.eqb_neq in Hx. now rewrite Hx. }
    rewrite Ex. specialize (IH Hnd' Hin).
    destruct (P x && ProxyKeys.is_active x); cbn [List.length]; lia.
Qed.

Lemma total_after_revoke now keyId organizationId (P : ProxyKeys.row -> bool) l :
  (forall x, P (ProxyKeyService.revoked now x) = P x) ->
  List.length (filter P (map (revoke_row now keyId organizationId) l))
  = List.length (filter P l).
Proof.
  intros HP. induction l as [|x l IH]; [reflexivity|]. cbn [map filter].
  assert (E : P (revoke_row now keyId organizationId x) = P x).
  { unfold revoke_row. destruct (ProxyKeyService.targets _ _ _); [apply HP | reflexivity]. }
  rewrite E. destruct (P x); cbn [List.length]; now rewrite IH.
Qed.

(** X26. Revoking moves one key from active to revoked in the counts. On a
    table with unique ids, after a successful [revokeProxyKey] of a key,
    [getKeyCount] for that key's project reports the same total; the active
    count is one less and the revoked count one more if the key was active,
    and both are as before if it was already revoked. *)
Theorem revoke_updates_key_count
        (now : string) (table table' : list ProxyKeys.row)
        (k r : ProxyKeys.row) (before after : ProxyKeyService.key_count) :
  NoDup (map ProxyKeys.id table) ->
  In k table ->
  ProxyKeyService.revokeProxyKey now None table (ProxyKeys.id k)
    (ProxyKeys.organization_id k) = (table', Returns r) ->
  ProxyKeyService.getKeyCount None None table (ProxyKeys.project_id k)
    (ProxyKeys.organization_id k) = Returns before ->
  ProxyKeyService.getKeyCount None None table' (ProxyKeys.project_id k)
    (ProxyKeys.organization_id k) = Returns after ->
  let moved := if ProxyKeys.is_active k then 1%Z else 0%Z in
  ProxyKeyService.total after = ProxyKeyService.total before
  /\ ProxyKeyService.active after = (ProxyKeyService.active before - moved)%Z
  /\ ProxyKeyService.revoked_count after
     = (ProxyKeyService.revoked_count before + moved)%Z.
Proof.
  intros Hnd Hin Hrevoke Hbefore Hafter.
  apply revokeProxyKey_success in Hrevoke as (_ & -> & _).
  unfold ProxyKeyService.getKeyCount in Hbefore, Hafter.
  injection Hbefore as <-. injection Hafter as <-.
  cbn [ProxyKeyService.total ProxyKeyService.active ProxyKeyService.revoked_count].
  set (P := ProxyKeyService.in_project (ProxyKeys.project_id k)
              (ProxyKeys.organization_id k)).
  assert (HP : forall x, P (ProxyKeyService.revoked now x) = P x) by reflexivity.
  pose proof (total_after_revoke now (ProxyKeys.id k) (ProxyKeys.organization_id k)
                P table HP) as Ht.
  pose proof (active_after_revoke now k P table HP Hnd Hin) as Ha.
  assert (Pk : P k = true)
    by (unfold P, ProxyKeyService.in_project; now rewrite !String.eqb_refl).
  rewrite Pk in Ha. cbn [andb] in Ha.
  cbv zeta. destruct (ProxyKeys.is_active k); lia.
Qed.

Lemma revoke_updates_key_count_witness :
  let table := [demo_key true None] in
  NoDup (map ProxyKeys.id table)
  /\ ProxyKeyService.getKeyCount None None table "proj-1" "org-1"
     = Returns {| ProxyKeyService.total := 1; ProxyKeyService.active := 1;
                  ProxyKeyService.revoked_count := 0 |}
  /\ exists table' r after,
       ProxyKeyService.revokeProxyKey demo_now None table "key-1" "org-1"
       = (table', Returns r)
       /\ ProxyKeyService.getKeyCount None None table' "proj-1" "org-1"
          = Returns after
       /\ ProxyKeyService.total after = 1%Z
       /\ ProxyKeyService.active after = (1 - 1)%Z
       /\ ProxyKeyService.revoked_count after = (0 + 1)%Z.
Proof.
  cbv zeta.
  assert (Hnd : NoDup (map ProxyKeys.id [demo_key true None])).
  { cbn. constructor; [intros []|constructor]. }
  split; [exact Hnd|]. split; [reflexivity|].
  eexists. eexists. eexists. split; [reflexivity|]. split; [reflexivity|].
  exact (revoke_updates_key_count demo_now [demo_key true None] _
           (demo_key true None) _ _ _ Hnd (or_introl eq_refl)
           eq_refl eq_refl eq_refl).
Defined.

(** ** The key migration script *)

Import EncryptExistingKeys.

(** Whatever [encrypt] returns is in the format [isEncrypted] accepts and
    decrypts, under the same secret, to the plaintext. *)
Lemma encrypt_returns_bundle
      (aes : EncryptionService.Aead) (secret : option string)
      (iv : list Byte.byte) (x bundle : string) :
  List.length iv = 12%nat ->
  EncryptionService.encrypt secret iv x = Returns bundle ->
  x <> "" /\ bundle <> ""
  /\ EncryptionService.isEncrypted bundle = true
  /\ EncryptionService.decrypt secret bundle = Returns x.
Proof.
  intros Hiv. unfold EncryptionService.encrypt.
  destruct (x =? "") eqn:Hx; [discriminate|].
  destruct (EncryptionService.getMasterKey secret) as [key|err] eqn:Hkey;
    cbn [bind rethrow]; [|discriminate].
  destruct (EncryptionService.cipher_accepts key iv) eqn:Hacc;
    cbn [rethrow]; [|discriminate].
  intros E. injection E as <-.
  assert (Hlen : List.length key = 32%nat).
  { unfold EncryptionService.cipher_accepts in Hacc.
    apply andb_true_iff in Hacc as [Hacc _]. now apply Nat.eqb_eq in Hacc. }
  assert (Hxne : x <> "") by (intros ->; discriminate).
  set (sealed := EncryptionService.gcm_seal key iv (EncryptionService.utf8_encode x)).
  assert (Hne : Buffer.toString_hex iv <> "")
    by (apply toString_hex_nonempty; destruct iv; [discriminate | congruence]).
  assert (Htag : Buffer.toString_hex (snd sealed) <> "").
  { apply toString_hex_nonempty. intros E.
    pose proof (EncryptionService.gcm_tag_length key iv
                  (EncryptionService.utf8_encode x) Hlen Hiv) as L.
    fold sealed in L. now rewrite E in L. }
  assert (Hct : Buffer.toString_hex (fst sealed) <> "").
  { apply toString_hex_nonempty. intros E.
    pose proof (EncryptionService.gcm_ciphertext_length key iv
                  (EncryptionService.utf8_encode x) Hlen Hiv) as L.
    fold sealed in L. rewrite E in L. destruct x; [congruence | discriminate]. }
  split; [assumption|]. split; [|split].
  - now apply append_nonempty.
  - apply isEncrypted_shape; unfold EncryptionService.hex_part;
      rewrite all_hex_toString_hex, eqb_empty_false; auto.
  - unfold EncryptionService.decrypt.
    change (String ":" (Buffer.toString_hex (snd sealed) ++ ?t))
      with (":" ++ Buffer.toString_hex (snd sealed) ++ t).
    change (String ":" (Buffer.toString_hex (fst sealed)))
      with (":" ++ Buffer.toString_hex (fst sealed)).
    rewrite (eqb_empty_false _ (append_nonempty _ _ Hne)), split_bundle, Hkey.
    cbn [bind rethrow]. rewrite !from_hex_toString_hex, Hacc.
    unfold sealed. rewrite EncryptionService.gcm_open_seal by assumption.
    unfold EncryptionService.utf8_decode, EncryptionService.utf8_encode.
    now rewrite string_of_list_byte_of_string.
Qed.

(** With a well-formed master secret [encrypt] does not fail. *)
Lemma encrypt_succeeds
      (aes : EncryptionService.Aead) (secret : string) (iv : list Byte.byte)
      (x : string) :
  EncryptionService.valid_master_secret secret ->
  List.length iv = 12%nat ->
  x <> "" ->
  exists bundle, EncryptionService.encrypt (Some secret) iv x = Returns bundle.
Proof.
  intros Hsecret Hiv Hx.
  destruct (getMasterKey_valid secret Hsecret) as [Hkey Hlen].
  unfold EncryptionService.encrypt.
  rewrite (eqb_empty_false x Hx), Hkey. cbn [bind rethrow].
  unfold EncryptionService.cipher_accepts. rewrite Hlen, Hiv. cbn.
  eauto.
Qed.

(** A row the migration has nothing to do for: no key, an empty key, or a
    key already in the encrypted format. *)
Definition settled (o : Organizations.row) : Prop :=
  forall k, Organizations.openai_api_key o = Some k ->
            k = "" \/ EncryptionService.isEncrypted k = true.

(** Row [c] is row [o] with its plaintext key replaced by a bundle that
    decrypts to it. *)
Definition converted {aes : EncryptionService.Aead} (secret : option string)
           (o c : Organizations.row) : Prop :=
  exists k e,
    Organizations.openai_api_key o = Some k /\ k <> ""
    /\ EncryptionService.isEncrypted k = false
    /\ Organizations.openai_api_key c = Some e /\ e <> ""
    /\ EncryptionService.isEncrypted e = true
    /\ EncryptionService.decrypt secret e = Returns k.

(** The loop invariant: [o] is a row of the table as it was, [c] the same
    row now, [rest] what the loop has still to visit. [complete] stands for
    the assumption that nothing fails. *)
Definition migration_step {aes : EncryptionService.Aead} (complete : Prop)
           (secret : option string) (rest : list Organizations.row)
           (o c : Organizations.row) : Prop :=
  Organizations.id c = Organizations.id o
  /\ ((c = o /\ (In o rest \/ settled o \/ ~ complete)) \/ converted secret o c).

Lemma Forall2_map_in {A B} (R R' : A -> B -> Prop) (g : B -> B) l l' :
  Forall2 R l l' ->
  (forall o c, In o l -> R o c -> R' o (g c)) ->
  Forall2 R' l (map g l').
Proof.
  induction 1 as [|o c l l' Hoc Hll IH]; intros Hstep; cbn; constructor.
  - apply Hstep; [now left | assumption].
  - apply IH. intros o' c' Hin. apply Hstep. now right.
Qed.

Lemma Forall2_weaken_in {A B} (R R' : A -> B -> Prop) l l' :
  Forall2 R l l' ->
  (forall o c, In o l -> R o c -> R' o c) ->
  Forall2 R' l l'.
Proof.
  intros H Hstep. rewrite <- (map_id l').
  now apply (Forall2_map_in R R' (fun c => c)).
Qed.

Lemma Forall2_in_r {A B} (R : A -> B -> Prop) l l' c :
  Forall2 R l l' -> In c l' -> exists o, In o l /\ R o c.
Proof.
  induction 1 as [|o c' l l' Hoc Hll IH]; cbn; [tauto|].
  intros [->|Hin]; [eauto|].
  destruct (IH Hin) as (o' & Ho' & HR). eauto.
Qed.

Lemma Forall2_filter {A B} (R : A -> B -> Prop) (p : A -> bool) (q : B -> bool) l l' :
  Forall2 R l l' ->
  (forall o c, R o c -> q c = p o) ->
  Forall2 R (filter p l) (filter q l').
Proof.
  induction 1 as [|o c l l' Hoc Hll IH]; intros Hpq; cbn; [constructor|].
  rewrite (Hpq o c Hoc). destruct (p o); [constructor|]; auto.
Qed.

Lemma process_invariant
      (aes : EncryptionService.Aead) (complete : Prop) (secret : option string)
      (random : nat -> list Byte.byte) (update_fault : string -> option Db.fault)
      (table : list Organizations.row) :
  NoDup (map Organizations.id table) ->
  (forall n, List.length (random n) = 12%nat) ->
  (complete ->
   (exists s, secret = Some s /\ EncryptionService.valid_master_secret s)
   /\ forall i, update_fault i = None) ->
  forall fetched draws acc,
    (forall o, In o fetched -> In o table) ->
    Forall2 (migration_step complete secret fetched) table (migrated acc) ->
    Forall2 (migration_step complete secret []) table
            (migrated (process secret random update_fault fetched draws acc)).
Proof.
  intros Hnd Hrandom Hcomplete.
  assert (Hskip : forall org rest cur,
             settled org \/ ~ complete ->
             Forall2 (migration_step complete secret (org :: rest)) table cur ->
             Forall2 (migration_step complete secret rest) table cur).
  { intros org rest cur Hs H. apply (Forall2_weaken_in _ _ _ _ H).
    intros o c _ [Hid Hcases]. split; [exact Hid|].
    destruct Hcases as [[-> Hp]|Hconv]; [left; split; [reflexivity|] | now right].
    destruct Hp as [[->|Hin]|Hs']; tauto. }
  induction fetched as [|org rest IH]; intros draws acc Hsub Hinv; [exact Hinv|].
  assert (Hsub' : forall o, In o rest -> In o table)
    by (intros o Ho; apply Hsub; now right).
  assert (Horg : In org table) by (apply Hsub; now left).
  cbn [process].
  destruct (Organizations.openai_api_key org) as [key|] eqn:Hkey.
  2:{ apply IH; [assumption|]. apply (Hskip org); [|assumption].
      left. intros k Hk. congruence. }
  destruct (EncryptionService.isEncrypted key) eqn:Henc.
  { apply IH; [assumption|]. cbn [migrated]. apply (Hskip org); [|assumption].
    left. intros k Hk. right. congruence. }
  destruct (key =? "") eqn:Hempty.
  { apply IH; [assumption|]. apply (Hskip org); [|assumption].
    left. intros k Hk. left. apply String.eqb_eq in Hempty. congruence. }
  assert (Hkne : key <> "") by (intros ->; discriminate).
  destruct (EncryptionService.encrypt secret (random draws) key)
    as [encryptedKey|err] eqn:Hencrypt.
  2:{ apply IH; [assumption|]. apply (Hskip org); [|assumption].
      right. intros Hc. destruct (Hcomplete Hc) as [(s & -> & Hs) _].
      destruct (encrypt_succeeds aes s (random draws) key Hs (Hrandom draws) Hkne)
        as [b Hb]. congruence. }
  destruct (update_fault (Organizations.id org)) as [f|] eqn:Hupdate.
  { apply IH; [assumption|]. apply (Hskip org); [|assumption].
    right. intros Hc. destruct (Hcomplete Hc) as [_ Hnone].
    rewrite Hnone in Hupdate. discriminate. }
  apply IH; [assumption|]. cbn [migrated].
  destruct (encrypt_returns_bundle aes secret (random draws) key encryptedKey
              (Hrandom draws) Hencrypt) as (_ & Hene & Hfmt & Hdec).
  apply (Forall2_map_in _ _ _ _ _ Hinv).
  intros o c Ho [Hid Hcases]. unfold set_key.
  destruct (Organizations.id c =? Organizations.id org) eqn:Hsame.
  - apply String.eqb_eq in Hsame.
    assert (o = org) as ->
        by (apply (map_injective_on Organizations.id table); congruence).
    split; [exact Hid|]. right.
    exists key, encryptedKey. cbn. repeat split; assumption.
  - split; [exact Hid|].
    destruct Hcases as [[-> [[->|Hin]|Hs]]|Hconv]; auto.
    now rewrite String.eqb_refl in Hsame.
Qed.

Lemma encryptExistingKeys_invariant
      (aes : EncryptionService.Aead) (complete : Prop) (secret : option string)
      (random : nat -> list Byte.byte) (update_fault : string -> option Db.fault)
      (select_fault : option Db.fault) (table : list Organizations.row) :
  NoDup (map Organizations.id table) ->
  (forall n, List.length (random n) = 12%nat) ->
  (complete ->
   (exists s, secret = Some s /\ EncryptionService.valid_master_secret s)
   /\ (forall i, update_fault i = None) /\ select_fault = None) ->
  Forall2 (migration_step complete secret []) table
          (migrated (encryptExistingKeys secret random update_fault
                                         select_fault table)).
Proof.
  intros Hnd Hrandom Hcomplete. unfold encryptExistingKeys.
  assert (Hrefl : forall rest,
             (forall o, In o table ->
                        In o rest \/ settled o \/ ~ complete) ->
             Forall2 (migration_step complete secret rest) table table).
  { intros rest Hall.
    assert (H : Forall2 eq table table)
      by (clear; induction table; constructor; auto).
    apply (Forall2_weaken_in _ _ _ _ H).
    intros o c Ho <-. split; [reflexivity|]. left. split; auto. }
  destruct select_fault as [f|].
  - cbn [migrated]. apply Hrefl. intros o _. right. right.
    intros Hc. destruct (Hcomplete Hc) as (_ & _ & E). discriminate.
  - apply (process_invariant aes complete secret random update_fault table);
      try assumption.
    + intros Hc. destruct (Hcomplete Hc) as (Hs & Hu & _). now split.
    + intros o Ho. now apply filter_In in Ho as [Ho _].
    + cbn [migrated]. apply Hrefl. intros o Ho.
      destruct (Organizations.openai_api_key o) as [k|] eqn:Hk.
      * left. apply filter_In. split; [assumption|]. now rewrite Hk.
      * right. left. intros k Hk'. congruence.
Qed.

(** X27. The migration never changes the key an organization resolves to.
    Whatever the master secret and whichever reads, encryptions or updates
    fail on the way, [getOrganizationOpenAIKey] returns for every
    organization the same key, or the same error, on the table the script
    leaves behind as on the table it found. Organization ids are the primary
    key of the table and [crypto.randomBytes(12)] gives 12 bytes. *)
Theorem migration_preserves_resolved_keys
        (aes : EncryptionService.Aead) (secret : option string)
        (random : nat -> list Byte.byte)
        (update_fault : string -> option Db.fault)
        (select_fault : option Db.fault) (table : list Organizations.row)
        (fault : option Db.fault) (organizationId : string) :
  NoDup (map Organizations.id table) ->
  (forall n, List.length (random n) = 12%nat) ->
  snd (OpenAIProxyService.getOrganizationOpenAIKey secret fault
         (migrated (encryptExistingKeys secret random update_fault
                                        select_fault table))
         organizationId)
  = snd (OpenAIProxyService.getOrganizationOpenAIKey secret fault table
           organizationId).
Proof.
  intros Hnd Hrandom.
  pose proof (encryptExistingKeys_invariant aes False secret random update_fault
                select_fault table Hnd Hrandom (fun H => False_ind _ H)) as Hinv.
  set (after := migrated _) in *.
  unfold OpenAIProxyService.getOrganizationOpenAIKey.
  destruct fault as [f|]; [reflexivity|].
  pose proof (Forall2_filter _
                (fun o => Organizations.id o =? organizationId)
                (fun o => Organizations.id o =? organizationId)
                _ _ Hinv) as Hf.
  specialize (Hf ltac:(intros o c [Hid _]; now rewrite Hid)).
  inversion Hf as [|o c l l' Hoc Hrest Eo Ec]; [reflexivity|].
  inversion Hrest as [|? ? ? ? ? ? El El']; [|reflexivity].
  destruct Hoc as [_ [[-> _]|(k & e & Hk & Hkne & Hplain & He & Hene & Hfmt & Hdec)]];
    [reflexivity|].
  rewrite Hk, He, (eqb_empty_false _ Hkne), (eqb_empty_false _ Hene),
    Hplain, Hfmt, Hdec.
  reflexivity.
Qed.

Definition demo_plain_table : list Organizations.row :=
  [ demo_legacy_org;
    {| Organizations.id := "org-2";
       Organizations.openai_api_key := None;
       Organizations.monthly_budget_usd := None |} ].

Lemma demo_plain_table_NoDup : NoDup (map Organizations.id demo_plain_table).
Proof.
  cbn. repeat constructor; cbn; intuition discriminate.
Qed.

Lemma migration_preserves_resolved_keys_witness :
  snd (OpenAIProxyService.getOrganizationOpenAIKey
         (aes := EncryptionService.toy_aead) (Some demo_master_secret) None
         (migrated (encryptExistingKeys (aes := EncryptionService.toy_aead)
                      (Some demo_master_secret) (fun _ => demo_iv)
                      (fun _ => None) None demo_plain_table))
         "org-1")
  = snd (OpenAIProxyService.getOrganizationOpenAIKey
           (aes := EncryptionService.toy_aead) (Some demo_master_secret) None
           demo_plain_table "org-1").
Proof.
  apply (migration_preserves_resolved_keys EncryptionService.toy_aead).
  - exact demo_plain_table_NoDup.
  - intros n. reflexivity.
Defined.

Lemma process_settled
      (aes : EncryptionService.Aead) (secret : option string)
      (random : nat -> list Byte.byte) (update_fault : string -> option Db.fault)
      (fetched : list Organizations.row) :
  (forall o, In o fetched -> settled o) ->
  forall draws acc,
    migrated (process secret random update_fault fetched draws acc) = migrated acc
    /\ encryptedCount (process secret random update_fault fetched draws acc)
       = encryptedCount acc.
Proof.
  induction fetched as [|org rest IH]; intros Hall draws acc; [now split|].
  assert (Hrest : forall o, In o rest -> settled o)
    by (intros o Ho; apply Hall; now right).
  cbn [process].
  destruct (Organizations.openai_api_key org) as [key|] eqn:Hkey;
    [|now apply IH].
  destruct (EncryptionService.isEncrypted key) eqn:Henc.
  { destruct (IH Hrest draws
                {| migrated := migrated acc;
                   encryptedCount := encryptedCount acc;
                   alreadyEncryptedCount := S (alreadyEncryptedCount acc) |})
      as [-> ->].
    now split. }
  destruct (key =? "") eqn:Hempty; [now apply IH|].
  destruct (Hall org (or_introl eq_refl) key Hkey) as [->|E]; [discriminate|].
  congruence.
Qed.

(** X28. When nothing fails the migration finishes the job: with a
    well-formed master secret and no datastore fault, every non-empty key
    left in the table is in the encrypted format, so that no organization
    is served on the legacy plaintext path any more; and running the script
    a second time, under any conditions, encrypts nothing and leaves the
    table as it is. *)
Theorem migration_encrypts_every_key
        (aes : EncryptionService.Aead) (secret : string)
        (random : nat -> list Byte.byte) (table : list Organizations.row) :
  EncryptionService.valid_master_secret secret ->
  NoDup (map Organizations.id table) ->
  (forall n, List.length (random n) = 12%nat) ->
  let after :=
    migrated (encryptExistingKeys (Some secret) random (fun _ => None) None table) in
  (forall c key,
      In c after -> Organizations.openai_api_key c = Some key -> key <> "" ->
      EncryptionService.isEncrypted key = true)
  /\ (forall secret' random' update_fault' select_fault',
         let again :=
           encryptExistingKeys secret' random' update_fault' select_fault' after in
         migrated again = after /\ encryptedCount again = 0%nat).
Proof.
  intros Hsecret Hnd Hrandom after.
  assert (Hinv : Forall2 (migration_step True (Some secret) []) table after).
  { apply encryptExistingKeys_invariant; try assumption.
    intros _. repeat split; eauto. }
  assert (Hsettled : forall c, In c after -> settled c).
  { intros c Hc key Hkey.
    destruct (Forall2_in_r _ _ _ _ Hinv Hc) as (o & _ & _ & Hcases).
    destruct Hcases as [[-> [[]|[Hs|Hn]]]|(k & e & _ & _ & _ & He & _ & Hfmt & _)].
    - now apply Hs.
    - now destruct Hn.
    - right. congruence. }
  split.
  - intros c key Hc Hkey Hne.
    destruct (Hsettled c Hc key Hkey); [contradiction | assumption].
  - intros secret' random' update_fault' select_fault'.
    unfold encryptExistingKeys.
    destruct select_fault' as [f|]; [now split|].
    apply process_settled.
    intros o Ho. apply filter_In in Ho as [Ho _]. now apply Hsettled.
Qed.

Lemma migration_encrypts_every_key_witness :
  EncryptionService.valid_master_secret demo_master_secret
  /\ NoDup (map Organizations.id demo_plain_table)
  /\ (forall n : nat, List.length ((fun _ => demo_iv) n) = 12%nat)
  /\ let after :=
       migrated (encryptExistingKeys (aes := EncryptionService.toy_aead)
                   (Some demo_master_secret) (fun _ => demo_iv)
                   (fun _ => None) None demo_plain_table) in
     (forall c key,
         In c after -> Organizations.openai_api_key c = Some key -> key <> "" ->
         EncryptionService.isEncrypted key = true)
     /\ (forall secret' random' update_fault' select_fault',
            let again :=
              encryptExistingKeys (aes := EncryptionService.toy_aead)
                secret' random' update_fault' select_fault' after in
            migrated again = after /\ encryptedCount again = 0%nat).
Proof.
  assert (H1 : EncryptionService.valid_master_secret demo_master_secret)
    by (split; reflexivity).
  assert (H3 : forall n : nat, List.length ((fun _ => demo_iv) n) = 12%nat)
    by (intros n; reflexivity).
  split; [exact H1|]. split; [exact demo_plain_table_NoDup|].
  split; [exact H3|].
  exact (migration_encrypts_every_key EncryptionService.toy_aead
           demo_master_secret (fun _ => demo_iv) demo_plain_table
           H1 demo_plain_table_NoDup H3).
Defined.
